(** * SilentLedger: the pouch cipher, the ledger contract and the client

    A shallow embedding of
    - [home/src/lib/ledgerCrypto.ts]  (address-keyed AES-GCM wire format),
    - [contracts/SilentLedger.sol]    (per-owner key record and pouch),
    - [home/src/components/LedgerApp.tsx] (refresh, decrypt-all, lock),
    together with the platform functions they call (UTF-8 TextEncoder and
    TextDecoder, btoa/atob, SHA-256, AES-256-GCM), written after their
    standards so that every definition evaluates. *)

From Stdlib Require Import ZArith List Lia String Ascii Bool.
From stdpp Require Import gmap.
Import ListNotations.
Local Open Scope Z_scope.

(** ** JavaScript strings

    A JavaScript string is a sequence of UTF-16 code units. *)
Module Js.

Definition jsstring := list Z.

Definition code_unit (c : Z) : Prop := 0 <= c < 65536.

(** A string literal of the source, as code units. *)
Definition lit (s : string) : jsstring :=
  List.map (fun a => Z.of_N (N_of_ascii a)) (list_ascii_of_string s).

Fixpoint str_eqb (a b : jsstring) : bool :=
  match a, b with
  | [], [] => true
  | x :: a', y :: b' => (x =? y) && str_eqb a' b'
  | _, _ => false
  end.

(** [s.split(sep)] for a one-unit separator: never an empty array. *)
Fixpoint split (sep : Z) (s : jsstring) : list jsstring :=
  match s with
  | [] => [[]]
  | c :: r =>
      if c =? sep then [] :: split sep r
      else match split sep r with
           | seg :: segs => (c :: seg) :: segs
           | [] => [[c]]
           end
  end.

Fixpoint startsWith (p s : jsstring) : bool :=
  match p, s with
  | [], _ => true
  | x :: p', y :: s' => (x =? y) && startsWith p' s'
  | _ :: _, [] => false
  end.

(** Truthiness of a possibly [undefined] string: [!v] is [negb (truthy v)]. *)
Definition truthy (v : option jsstring) : bool :=
  match v with
  | Some (_ :: _) => true
  | _ => false
  end.

Definition is_hex_digit (c : Z) : bool :=
  ((48 <=? c) && (c <=? 57)) || ((97 <=? c) && (c <=? 102)) || ((65 <=? c) && (c <=? 70)).

Definition hex_value (c : Z) : Z :=
  if (48 <=? c) && (c <=? 57) then c - 48
  else if (97 <=? c) && (c <=? 102) then c - 87
  else c - 55.

(** The white space and line terminators [parseInt] skips. *)
Definition is_space (c : Z) : bool :=
  ((9 <=? c) && (c <=? 13)) || (c =? 32) || (c =? 0xA0) || (c =? 0x1680)
  || ((0x2000 <=? c) && (c <=? 0x200A)) || (c =? 0x2028) || (c =? 0x2029)
  || (c =? 0x202F) || (c =? 0x205F) || (c =? 0x3000) || (c =? 0xFEFF).

Fixpoint skip_spaces (s : jsstring) : jsstring :=
  match s with
  | c :: r => if is_space c then skip_spaces r else s
  | [] => []
  end.

Fixpoint hex_digits (acc : option Z) (s : jsstring) : option Z :=
  match s with
  | c :: r =>
      if is_hex_digit c
      then hex_digits (Some (16 * match acc with Some a => a | None => 0 end + hex_value c)) r
      else acc
  | [] => acc
  end.

(** [Number.parseInt(s, 16)]; [None] is NaN. *)
Definition parseInt16 (s : jsstring) : option Z :=
  let s1 := skip_spaces s in
  let '(sign, s2) :=
    match s1 with
    | 45 :: r => (-1, r)
    | 43 :: r => (1, r)
    | _ => (1, s1)
    end in
  let s3 :=
    match s2 with
    | 48 :: 120 :: r => r
    | 48 :: 88 :: r => r
    | _ => s2
    end in
  match hex_digits None s3 with
  | Some v => Some (sign * v)
  | None => None
  end.

(** Storing a number into a [Uint8Array] slot: NaN becomes 0, an integer
    wraps modulo 256. *)
Definition to_uint8 (v : option Z) : Z :=
  match v with
  | Some n => n mod 256
  | None => 0
  end.

(** [s.slice(i, j)] for 0 <= i <= j. *)
Definition slice (i j : nat) (s : jsstring) : jsstring :=
  firstn (j - i) (skipn i s).

End Js.

(** ** Bytes *)

Definition bytes := list Z.

Definition byte (b : Z) : Prop := 0 <= b < 256.

Fixpoint bytes_eqb (a b : bytes) : bool :=
  match a, b with
  | [], [] => true
  | x :: a', y :: b' => (x =? y) && bytes_eqb a' b'
  | _, _ => false
  end.

(** Byte-wise exclusive or of [data] with a key stream; the result has the
    length of [data]. *)
Fixpoint xor_bytes (data ks : bytes) : bytes :=
  match data with
  | [] => []
  | d :: ds => Z.lxor d (hd 0 ks) :: xor_bytes ds (tl ks)
  end.

(** Big-endian integer of a byte string and back, on [n] bytes. *)
Definition be_of_bytes (bs : bytes) : Z :=
  fold_left (fun acc b => Z.lor (Z.shiftl acc 8) b) bs 0.

Definition bytes_of_be (n : nat) (z : Z) : bytes :=
  List.map (fun i => Z.land (Z.shiftr z (8 * Z.of_nat (n - 1 - i))) 255) (seq 0 n).

(** The 256 bytes, for checks by enumeration. *)
Definition all_bytes : bytes := List.map Z.of_nat (seq 0 256).

(** ** SHA-256 (FIPS 180-4), the digest behind [crypto.subtle.digest] *)
Module Sha256.

Definition w32 (x : Z) : Z := Z.land x 0xffffffff.
Definition add32 (x y : Z) : Z := w32 (x + y).
Definition rotr (n x : Z) : Z := Z.lor (Z.shiftr x n) (w32 (Z.shiftl x (32 - n))).
Definition shr (n x : Z) : Z := Z.shiftr x n.
Definition not32 (x : Z) : Z := Z.lxor x 0xffffffff.

Definition Ch (x y z : Z) : Z := Z.lxor (Z.land x y) (Z.land (not32 x) z).
Definition Maj (x y z : Z) : Z :=
  Z.lxor (Z.lxor (Z.land x y) (Z.land x z)) (Z.land y z).
Definition Sigma0 (x : Z) : Z := Z.lxor (Z.lxor (rotr 2 x) (rotr 13 x)) (rotr 22 x).
Definition Sigma1 (x : Z) : Z := Z.lxor (Z.lxor (rotr 6 x) (rotr 11 x)) (rotr 25 x).
Definition sigma0 (x : Z) : Z := Z.lxor (Z.lxor (rotr 7 x) (rotr 18 x)) (shr 3 x).
Definition sigma1 (x : Z) : Z := Z.lxor (Z.lxor (rotr 17 x) (rotr 19 x)) (shr 10 x).

(** The first primes, by trial division. *)
Definition is_prime (n : Z) : bool :=
  (2 <=? n) && forallb (fun d => negb (n mod (Z.of_nat d) =? 0)) (seq 2 (Z.to_nat n - 2)).

Definition primes (count : nat) : list Z :=
  firstn count (List.filter is_prime (List.map Z.of_nat (seq 0 320))).

(** The integer [k]-th root, bit by bit from bit [n - 1] down. *)
Fixpoint iroot (n : nat) (k x acc : Z) : Z :=
  match n with
  | O => acc
  | S n' =>
      let cand := acc + Z.shiftl 1 (Z.of_nat n') in
      iroot n' k x (if cand ^ k <=? x then cand else acc)
  end.

(** The round constants: the first 32 bits of the fractional parts of the
    cube roots of the first 64 primes. *)
Definition K : list Z :=
  Eval vm_compute in List.map (fun p => w32 (iroot 48 3 (Z.shiftl p 96) 0)) (primes 64).

(** The initial hash value: the same of the square roots of the first 8
    primes. *)
Definition H0 : list Z :=
  Eval vm_compute in List.map (fun p => w32 (iroot 48 2 (Z.shiftl p 64) 0)) (primes 8).

(** Padding: a 1 bit, zeros up to 56 mod 64 bytes, the bit length on 8 bytes. *)
Definition pad (msg : bytes) : bytes :=
  let len := Z.of_nat (length msg) in
  let zeros := Z.to_nat ((55 - len) mod 64) in
  msg ++ [0x80] ++ repeat 0 zeros ++ bytes_of_be 8 (8 * len).

(** The first sixteen words of the schedule: the block, big-endian. *)
Fixpoint words (n : nat) (block : bytes) : list Z :=
  match n with
  | O => []
  | S n' => be_of_bytes (firstn 4 block) :: words n' (skipn 4 block)
  end.

(** Extend the schedule by [n] words; [w] holds W(t-1), W(t-2), ... first. *)
Fixpoint schedule (n : nat) (w : list Z) : list Z :=
  match n with
  | O => w
  | S n' =>
      let wt := add32 (add32 (sigma1 (nth 1 w 0)) (nth 6 w 0))
                      (add32 (sigma0 (nth 14 w 0)) (nth 15 w 0)) in
      schedule n' (wt :: w)
  end.

Definition round (st : list Z) (kw : Z * Z) : list Z :=
  match st with
  | [a; b; c; d; e; f; g; h] =>
      let t1 := add32 (add32 (add32 h (Sigma1 e)) (add32 (Ch e f g) (fst kw))) (snd kw) in
      let t2 := add32 (Sigma0 a) (Maj a b c) in
      [add32 t1 t2; a; b; c; add32 d t1; e; f; g]
  | _ => st
  end.

Fixpoint add_words (a b : list Z) : list Z :=
  match a, b with
  | x :: a', y :: b' => add32 x y :: add_words a' b'
  | _, _ => []
  end.

Definition compress (h : list Z) (block : bytes) : list Z :=
  let w := rev (schedule 48 (rev (words 16 block))) in
  add_words h (fold_left round (combine K w) h).

Fixpoint blocks (n : nat) (h : list Z) (data : bytes) : list Z :=
  match n with
  | O => h
  | S n' => blocks n' (compress h (firstn 64 data)) (skipn 64 data)
  end.

Definition digest (msg : bytes) : bytes :=
  let p := pad msg in
  concat (List.map (bytes_of_be 4) (blocks (length p / 64) H0 p)).

End Sha256.

Definition hex (s : string) : bytes :=
  (fix go (l : list Z) : bytes :=
     match l with
     | a :: b :: r => (16 * Js.hex_value a + Js.hex_value b) :: go r
     | _ => []
     end) (Js.lit s).


(** ** AES-256 (FIPS 197), the block cipher behind the AES-GCM key *)
Module Aes.

(** Multiplication by x in GF(2^8) modulo x^8 + x^4 + x^3 + x + 1. *)
Definition xtime (a : Z) : Z :=
  Z.land (Z.lxor (Z.shiftl a 1) (if Z.testbit a 7 then 0x1b else 0)) 255.

Fixpoint gmul_aux (n : nat) (a b : Z) : Z :=
  match n with
  | O => 0
  | S n' => Z.lxor (if Z.testbit b 0 then a else 0) (gmul_aux n' (xtime a) (Z.shiftr b 1))
  end.

Definition gmul (a b : Z) : Z := gmul_aux 8 a b.

Fixpoint gpow (n : nat) (a : Z) : Z :=
  match n with
  | O => 1
  | S n' => gmul a (gpow n' a)
  end.

Definition rotl8 (n x : Z) : Z :=
  Z.land (Z.lor (Z.shiftl x n) (Z.shiftr x (8 - n))) 255.

(** The S-box: the multiplicative inverse followed by the affine map. *)
Definition sbox_of (x : Z) : Z :=
  let i := gpow 254 x in
  Z.lxor (Z.lxor (Z.lxor (Z.lxor (Z.lxor i (rotl8 1 i)) (rotl8 2 i)) (rotl8 3 i)) (rotl8 4 i)) 0x63.

Definition sbox_table : list Z :=
  Eval vm_compute in List.map (fun i => sbox_of (Z.of_nat i)) (seq 0 256).

Definition sbox (x : Z) : Z := nth (Z.to_nat x) sbox_table 0.

Definition sub_bytes (st : bytes) : bytes := List.map sbox st.

(** The state is column-major: byte [r + 4c] is row [r] of column [c]. *)
Definition shift_rows (st : bytes) : bytes :=
  List.map (fun i => nth (i mod 4 + 4 * ((i / 4 + i mod 4) mod 4))%nat st 0) (seq 0 16).

Definition mix_column (c : bytes) : bytes :=
  match c with
  | [a0; a1; a2; a3] =>
      [ Z.lxor (Z.lxor (Z.lxor (xtime a0) (Z.lxor (xtime a1) a1)) a2) a3;
        Z.lxor (Z.lxor (Z.lxor a0 (xtime a1)) (Z.lxor (xtime a2) a2)) a3;
        Z.lxor (Z.lxor (Z.lxor a0 a1) (xtime a2)) (Z.lxor (xtime a3) a3);
        Z.lxor (Z.lxor (Z.lxor (Z.lxor (xtime a0) a0) a1) a2) (xtime a3) ]
  | _ => c
  end.

Definition mix_columns (st : bytes) : bytes :=
  concat (List.map (fun c => mix_column (firstn 4 (skipn (4 * c) st))) (seq 0 4)).

Definition add_round_key (st rk : bytes) : bytes := xor_bytes st rk.

Definition rcon (i : nat) : Z := gpow (i - 1) 2.

(** Key expansion for Nk = 8: [w] holds the words so far, newest first. *)
Fixpoint expand (n : nat) (i : nat) (w : list bytes) : list bytes :=
  match n with
  | O => w
  | S n' =>
      let prev := nth 0 w [] in
      let temp :=
        if (i mod 8 =? 0)%nat then
          match prev with
          | [b0; b1; b2; b3] => [Z.lxor (sbox b1) (rcon (i / 8)); sbox b2; sbox b3; sbox b0]
          | _ => prev
          end
        else if (i mod 8 =? 4)%nat then List.map sbox prev
        else prev in
      expand n' (S i) (xor_bytes (nth 7 w []) temp :: w)
  end.

Definition key_words (key : bytes) : list bytes :=
  List.map (fun i => firstn 4 (skipn (4 * i) key)) (seq 0 8).

(** The fifteen round keys of a 32-byte key. *)
Definition key_expansion (key : bytes) : list bytes :=
  let w := rev (expand 52 8 (rev (key_words key))) in
  List.map (fun r => concat (firstn 4 (skipn (4 * r) w))) (seq 0 15).

Definition full_round (st rk : bytes) : bytes :=
  add_round_key (mix_columns (shift_rows (sub_bytes st))) rk.

Definition encrypt_block (rks : list bytes) (block : bytes) : bytes :=
  let st := add_round_key block (nth 0 rks []) in
  let st := fold_left full_round (firstn 13 (skipn 1 rks)) st in
  add_round_key (shift_rows (sub_bytes st)) (nth 14 rks []).

(** *** The inverse cipher (FIPS 197, 5.3) *)

Fixpoint index_of (y : Z) (l : list Z) : nat :=
  match l with
  | [] => O
  | x :: r => if x =? y then O else S (index_of y r)
  end.

Definition inv_sbox (y : Z) : Z := Z.of_nat (index_of y sbox_table).

Definition inv_sub_bytes (st : bytes) : bytes := List.map inv_sbox st.

Definition inv_shift_rows (st : bytes) : bytes :=
  List.map (fun i => nth (i mod 4 + 4 * ((i / 4 + 4 - i mod 4) mod 4))%nat st 0) (seq 0 16).

Definition inv_mix_column (c : bytes) : bytes :=
  match c with
  | [a0; a1; a2; a3] =>
      [ Z.lxor (Z.lxor (Z.lxor (gmul a0 14) (gmul a1 11)) (gmul a2 13)) (gmul a3 9);
        Z.lxor (Z.lxor (Z.lxor (gmul a0 9) (gmul a1 14)) (gmul a2 11)) (gmul a3 13);
        Z.lxor (Z.lxor (Z.lxor (gmul a0 13) (gmul a1 9)) (gmul a2 14)) (gmul a3 11);
        Z.lxor (Z.lxor (Z.lxor (gmul a0 11) (gmul a1 13)) (gmul a2 9)) (gmul a3 14) ]
  | _ => c
  end.

Definition inv_mix_columns (st : bytes) : bytes :=
  concat (List.map (fun c => inv_mix_column (firstn 4 (skipn (4 * c) st))) (seq 0 4)).

Definition inv_round (st rk : bytes) : bytes :=
  inv_sub_bytes (inv_shift_rows (inv_mix_columns (add_round_key st rk))).

Definition decrypt_block (rks : list bytes) (block : bytes) : bytes :=
  let st := inv_sub_bytes (inv_shift_rows (add_round_key block (nth 14 rks []))) in
  let st := fold_left inv_round (rev (firstn 13 (skipn 1 rks))) st in
  add_round_key st (nth 0 rks []).

Definition state (st : bytes) : Prop := length st = 16%nat /\ Forall byte st.

End Aes.


(** ** AES-GCM (NIST SP 800-38D) with a 128-bit tag and no additional data,
    as [crypto.subtle.encrypt] and [crypto.subtle.decrypt] run it

    The size limits of the standard (a plaintext of 2^39 - 256 bytes, a nonce
    of 2^64 - 1 bytes) are beyond any buffer an engine allocates and are
    left out. *)
Module Gcm.

(** A block is a 128-bit integer whose most significant byte comes first. *)
Definition block_of (bs : bytes) : Z := be_of_bytes (firstn 16 (bs ++ repeat 0 16)).
Definition of_block (z : Z) : bytes := bytes_of_be 16 z.

Definition R : Z := Z.shiftl 0xe1 120.

(** Multiplication in GF(2^128), bit 0 being the leftmost bit. *)
Fixpoint mul_aux (n : nat) (x v z : Z) : Z :=
  match n with
  | O => z
  | S n' =>
      let z' := if Z.testbit x (Z.of_nat n') then Z.lxor z v else z in
      let v' := if Z.testbit v 0 then Z.lxor (Z.shiftr v 1) R else Z.shiftr v 1 in
      mul_aux n' x v' z'
  end.

Definition mul (x y : Z) : Z := mul_aux 128 x y 0.

Fixpoint ghash_blocks (n : nat) (h y : Z) (data : bytes) : Z :=
  match n with
  | O => y
  | S n' => ghash_blocks n' h (mul (Z.lxor y (block_of data)) h) (skipn 16 data)
  end.

Definition nblocks (data : bytes) : nat := ((length data + 15) / 16)%nat.

(** GHASH over the zero-padded [data] followed by one closing block. *)
Definition ghash (h : Z) (data : bytes) (closing : Z) : Z :=
  mul (Z.lxor (ghash_blocks (nblocks data) h 0 data) closing) h.

Definition bitlen (data : bytes) : Z := 8 * Z.of_nat (length data).

Definition cipher (rks : list bytes) (x : Z) : Z :=
  block_of (Aes.encrypt_block rks (of_block x)).

(** The pre-counter block J0. *)
Definition j0 (rks : list bytes) (iv : bytes) : Z :=
  if (length iv =? 12)%nat then Z.lor (Z.shiftl (be_of_bytes iv) 32) 1
  else ghash (cipher rks 0) iv (bitlen iv).

Definition inc32 (x : Z) : Z :=
  Z.lor (Z.shiftl (Z.shiftr x 32) 32) (Z.land (x + 1) 0xffffffff).

Fixpoint keystream (n : nat) (rks : list bytes) (cb : Z) : bytes :=
  match n with
  | O => []
  | S n' => of_block (cipher rks cb) ++ keystream n' rks (inc32 cb)
  end.

Definition gctr (rks : list bytes) (icb : Z) (data : bytes) : bytes :=
  xor_bytes data (keystream (nblocks data) rks icb).

Definition tag (rks : list bytes) (iv c : bytes) : bytes :=
  let s := ghash (cipher rks 0) c (bitlen c) in
  gctr rks (j0 rks iv) (of_block s).

(** Authenticated encryption: the ciphertext followed by the 16-byte tag. *)
Definition encrypt (key iv plain : bytes) : bytes :=
  let rks := Aes.key_expansion key in
  let c := gctr rks (inc32 (j0 rks iv)) plain in
  c ++ tag rks iv c.

(** Authenticated decryption: [None] is the OperationError of a short input
    or of a tag that does not verify. *)
Definition decrypt (key iv data : bytes) : option bytes :=
  let rks := Aes.key_expansion key in
  if (length data <? 16)%nat then None
  else
    let n := (length data - 16)%nat in
    let c := firstn n data in
    let t := skipn n data in
    if bytes_eqb t (tag rks iv c) then Some (gctr rks (inc32 (j0 rks iv)) c)
    else None.

End Gcm.



(** ** UTF-8: [TextEncoder.encode] and [TextDecoder.decode] (WHATWG Encoding) *)
Module Utf8.

Definition is_high_surrogate (c : Z) : bool := (0xD800 <=? c) && (c <=? 0xDBFF).
Definition is_low_surrogate (c : Z) : bool := (0xDC00 <=? c) && (c <=? 0xDFFF).

(** Conversion of a string to scalar values: a surrogate pair is one scalar
    value, a lone surrogate becomes U+FFFD. *)
Fixpoint scalar_values (s : Js.jsstring) : list Z :=
  match s with
  | [] => []
  | c :: r =>
      if is_high_surrogate c then
        match r with
        | d :: r' =>
            if is_low_surrogate d
            then (0x10000 + Z.shiftl (c - 0xD800) 10 + (d - 0xDC00)) :: scalar_values r'
            else 0xFFFD :: scalar_values r
        | [] => [0xFFFD]
        end
      else if is_low_surrogate c then 0xFFFD :: scalar_values r
      else c :: scalar_values r
  end.

Definition scalar_value (cp : Z) : Prop :=
  0 <= cp < 0xD800 \/ 0xE000 <= cp < 0x110000.

(** [s.isWellFormed()]: no lone surrogate. *)
Fixpoint well_formed (s : Js.jsstring) : bool :=
  match s with
  | [] => true
  | c :: r =>
      if is_high_surrogate c then
        match r with
        | d :: r' => is_low_surrogate d && well_formed r'
        | [] => false
        end
      else negb (is_low_surrogate c) && well_formed r
  end.

Definition continuation (cp shift : Z) : Z :=
  Z.lor 0x80 (Z.land (Z.shiftr cp shift) 0x3F).

Definition encode_scalar (cp : Z) : bytes :=
  if cp <=? 0x7F then [cp]
  else if cp <=? 0x7FF then [Z.shiftr cp 6 + 0xC0; continuation cp 0]
  else if cp <=? 0xFFFF then [Z.shiftr cp 12 + 0xE0; continuation cp 6; continuation cp 0]
  else [Z.shiftr cp 18 + 0xF0; continuation cp 12; continuation cp 6; continuation cp 0].

(** [new TextEncoder().encode(s)] *)
Definition encode (s : Js.jsstring) : bytes :=
  concat (List.map encode_scalar (scalar_values s)).

(** The state of the UTF-8 decoder. *)
Record decoder := {
  code_point : Z;
  bytes_seen : Z;
  bytes_needed : Z;
  lower_boundary : Z;
  upper_boundary : Z
}.

Definition initial : decoder :=
  {| code_point := 0; bytes_seen := 0; bytes_needed := 0;
     lower_boundary := 0x80; upper_boundary := 0xBF |}.

(** A byte read while no sequence is open. *)
Definition lead (b : Z) : decoder * list Z :=
  if b <=? 0x7F then (initial, [b])
  else if (0xC2 <=? b) && (b <=? 0xDF) then
    ({| code_point := Z.land b 0x1F; bytes_seen := 0; bytes_needed := 1;
        lower_boundary := 0x80; upper_boundary := 0xBF |}, [])
  else if (0xE0 <=? b) && (b <=? 0xEF) then
    ({| code_point := Z.land b 0xF; bytes_seen := 0; bytes_needed := 2;
        lower_boundary := if b =? 0xE0 then 0xA0 else 0x80;
        upper_boundary := if b =? 0xED then 0x9F else 0xBF |}, [])
  else if (0xF0 <=? b) && (b <=? 0xF4) then
    ({| code_point := Z.land b 0x7; bytes_seen := 0; bytes_needed := 3;
        lower_boundary := if b =? 0xF0 then 0x90 else 0x80;
        upper_boundary := if b =? 0xF4 then 0x8F else 0xBF |}, [])
  else (initial, [0xFFFD]).

(** One byte through the decoder: the new state and the scalar values
    emitted. A byte that cannot continue the open sequence emits U+FFFD and is
    read again as a lead byte. *)
Definition step (st : decoder) (b : Z) : decoder * list Z :=
  if bytes_needed st =? 0 then lead b
  else if negb ((lower_boundary st <=? b) && (b <=? upper_boundary st)) then
    let '(st', out) := lead b in (st', 0xFFFD :: out)
  else
    let cp := Z.lor (Z.shiftl (code_point st) 6) (Z.land b 0x3F) in
    if bytes_seen st + 1 =? bytes_needed st then (initial, [cp])
    else ({| code_point := cp; bytes_seen := bytes_seen st + 1;
             bytes_needed := bytes_needed st;
             lower_boundary := 0x80; upper_boundary := 0xBF |}, []).

Fixpoint run (st : decoder) (bs : bytes) : list Z :=
  match bs with
  | [] => if bytes_needed st =? 0 then [] else [0xFFFD]
  | b :: r => let '(st', out) := step st b in out ++ run st' r
  end.

(** Serialisation with [ignoreBOM] false: a leading U+FEFF is dropped. *)
Definition strip_bom (cps : list Z) : list Z :=
  match cps with
  | cp :: r => if cp =? 0xFEFF then r else cps
  | [] => []
  end.

Definition units_of_scalar (cp : Z) : Js.jsstring :=
  if cp <=? 0xFFFF then [cp]
  else [0xD800 + Z.shiftr (cp - 0x10000) 10; 0xDC00 + Z.land (cp - 0x10000) 0x3FF].

(** [new TextDecoder().decode(bs)]: UTF-8, not fatal, BOM not ignored. *)
Definition decode (bs : bytes) : Js.jsstring :=
  concat (List.map units_of_scalar (strip_bom (run initial bs))).

End Utf8.

(** ** Base64: [btoa] and [atob] (WHATWG Infra forgiving-base64) *)
Module Base64.

Definition char_of (v : Z) : Z :=
  if v <? 26 then 65 + v
  else if v <? 52 then 71 + v
  else if v <? 62 then v - 4
  else if v =? 62 then 43
  else 47.

Definition value_of (c : Z) : option Z :=
  if (65 <=? c) && (c <=? 90) then Some (c - 65)
  else if (97 <=? c) && (c <=? 122) then Some (c - 71)
  else if (48 <=? c) && (c <=? 57) then Some (c + 4)
  else if c =? 43 then Some 62
  else if c =? 47 then Some 63
  else None.

Fixpoint encode (bs : bytes) : Js.jsstring :=
  match bs with
  | [] => []
  | [a] =>
      [char_of (Z.shiftr a 2); char_of (Z.shiftl (Z.land a 3) 4); 61; 61]
  | [a; b] =>
      [char_of (Z.shiftr a 2);
       char_of (Z.lor (Z.shiftl (Z.land a 3) 4) (Z.shiftr b 4));
       char_of (Z.shiftl (Z.land b 15) 2); 61]
  | a :: b :: c :: r =>
      char_of (Z.shiftr a 2)
      :: char_of (Z.lor (Z.shiftl (Z.land a 3) 4) (Z.shiftr b 4))
      :: char_of (Z.lor (Z.shiftl (Z.land b 15) 2) (Z.shiftr c 6))
      :: char_of (Z.land c 63)
      :: encode r
  end.

(** The 6-bit values behind [encode], and its padding. *)
Fixpoint sextets (bs : bytes) : list Z :=
  match bs with
  | [] => []
  | [a] => [Z.shiftr a 2; Z.shiftl (Z.land a 3) 4]
  | [a; b] =>
      [Z.shiftr a 2;
       Z.lor (Z.shiftl (Z.land a 3) 4) (Z.shiftr b 4);
       Z.shiftl (Z.land b 15) 2]
  | a :: b :: c :: r =>
      Z.shiftr a 2
      :: Z.lor (Z.shiftl (Z.land a 3) 4) (Z.shiftr b 4)
      :: Z.lor (Z.shiftl (Z.land b 15) 2) (Z.shiftr c 6)
      :: Z.land c 63
      :: sextets r
  end.

Fixpoint padding (bs : bytes) : Js.jsstring :=
  match bs with
  | [] => []
  | [_] => [61; 61]
  | [_; _] => [61]
  | _ :: _ :: _ :: r => padding r
  end.

Definition sextet (v : Z) : Prop := 0 <= v < 64.

(** The characters [encode] writes: the alphabet and [=]. *)
Definition written (c : Z) : Prop :=
  65 <= c <= 90 \/ 97 <= c <= 122 \/ 48 <= c <= 57 \/ c = 43 \/ c = 47 \/ c = 61.

(** [btoa(s)]: [None] is the InvalidCharacterError of a unit above 0xFF. *)
Definition btoa (s : Js.jsstring) : option Js.jsstring :=
  if forallb (fun c => (0 <=? c) && (c <=? 255)) s then Some (encode s) else None.

Definition is_ascii_whitespace (c : Z) : bool :=
  (c =? 9) || (c =? 10) || (c =? 12) || (c =? 13) || (c =? 32).

Definition remove_whitespace (d : Js.jsstring) : Js.jsstring :=
  List.filter (fun c => negb (is_ascii_whitespace c)) d.

(** One or two closing [=] are removed when the length is a multiple of 4. *)
Definition strip_padding (d : Js.jsstring) : Js.jsstring :=
  if (length d mod 4 =? 0)%nat then
    if List.last d 0 =? 61 then
      let d' := List.removelast d in
      if List.last d' 0 =? 61 then List.removelast d' else d'
    else d
  else d.

Fixpoint values (d : Js.jsstring) : option (list Z) :=
  match d with
  | [] => Some []
  | c :: r =>
      match value_of c, values r with
      | Some v, Some vs => Some (v :: vs)
      | _, _ => None
      end
  end.

(** Four values give three bytes; a rest of three gives two bytes and a rest
    of two gives one, the bits left over being discarded unread. *)
Fixpoint decode_values (vs : list Z) : bytes :=
  match vs with
  | a :: b :: c :: d :: r =>
      let n := Z.lor (Z.lor (Z.lor (Z.shiftl a 18) (Z.shiftl b 12)) (Z.shiftl c 6)) d in
      Z.land (Z.shiftr n 16) 255 :: Z.land (Z.shiftr n 8) 255 :: Z.land n 255
      :: decode_values r
  | [a; b; c] =>
      let n := Z.shiftr (Z.lor (Z.lor (Z.shiftl a 12) (Z.shiftl b 6)) c) 2 in
      [Z.land (Z.shiftr n 8) 255; Z.land n 255]
  | [a; b] =>
      let n := Z.shiftr (Z.lor (Z.shiftl a 6) b) 4 in
      [Z.land n 255]
  | _ => []
  end.

(** [atob(data)]: [None] is the InvalidCharacterError. *)
Definition atob (data : Js.jsstring) : option Js.jsstring :=
  let d := strip_padding (remove_whitespace data) in
  if (length d mod 4 =? 1)%nat then None
  else match values d with
       | Some vs => Some (decode_values vs)
       | None => None
       end.

End Base64.






(** ** [home/src/lib/ledgerCrypto.ts] *)
Module LedgerCrypto.

(** What an [async] function of this file can reject with. *)
Inductive error : Type :=
  | InvalidAddressKey (address : Js.jsstring)  (* Error(`Invalid address key: ${address}`) *)
  | UnsupportedCiphertextFormat                (* Error('Unsupported ciphertext format') *)
  | InvalidCharacterError                      (* DOMException of atob *)
  | OperationError.                            (* DOMException of crypto.subtle.decrypt *)

(** The calls made on [crypto] and [crypto.subtle], in order. *)
Inductive call : Type :=
  | Digest (data : bytes)
  | ImportKey (raw : bytes)
  | GetRandomValues (n : nat)
  | Encrypt (key iv plain : bytes)
  | Decrypt (key iv data : bytes).

(** A computation logs its crypto calls and ends in a value or an error. *)
Definition io (A : Type) : Type := list call * (error + A).

Definition ret {A} (a : A) : io A := ([], inr a).
Definition throw {A} (e : error) : io A := ([], inl e).
Definition bind {A B} (m : io A) (k : A -> io B) : io B :=
  match m with
  | (log, inl e) => (log, inl e)
  | (log, inr a) => let '(log', r) := k a in (log ++ log', r)
  end.

Notation "x <- m ;; k" := (bind m (fun x => k))
  (at level 100, m at next level, right associativity).
Notation "m ;;; k" := (bind m (fun _ => k))
  (at level 100, right associativity).

Definition calls {A} (m : io A) : list call := fst m.
Definition outcome {A} (m : io A) : error + A := snd m.

(** The platform calls. A [CryptoKey] is modelled by its raw bytes. *)
Definition subtle_digest (data : bytes) : io bytes :=
  ([Digest data], inr (Sha256.digest data)).

Definition subtle_importKey (raw : bytes) : io bytes :=
  ([ImportKey raw], inr raw).

(** [crypto.getRandomValues(new Uint8Array(n))]: [rng] is the entropy the
    platform draws from; each slot holds a byte. *)
Definition getRandomValues (rng : nat -> Z) (n : nat) : io bytes :=
  ([GetRandomValues n], inr (List.map (fun i => rng i mod 256) (seq 0 n))).

Definition subtle_encrypt (iv key plain : bytes) : io bytes :=
  ([Encrypt key iv plain], inr (Gcm.encrypt key iv plain)).

Definition subtle_decrypt (iv key data : bytes) : io bytes :=
  ([Decrypt key iv data],
   match Gcm.decrypt key iv data with
   | Some p => inr p
   | None => inl OperationError
   end).

(** [const ADDRESS_RE = /^0x[a-fA-F0-9]{40}$/] and [ADDRESS_RE.test] *)
Definition ADDRESS_RE (s : Js.jsstring) : bool :=
  Js.startsWith (Js.lit "0x") s
  && (length (skipn 2 s) =? 40)%nat
  && forallb Js.is_hex_digit (skipn 2 s).

Definition assertAddress (address : Js.jsstring) : io unit :=
  if negb (ADDRESS_RE address) then throw (InvalidAddressKey address)
  else ret tt.

Definition hexToBytes (hex : Js.jsstring) : bytes :=
  let normalized := if Js.startsWith (Js.lit "0x") hex then skipn 2 hex else hex in
  List.map
    (fun i => Js.to_uint8 (Js.parseInt16 (Js.slice (i * 2) (i * 2 + 2) normalized)))
    (seq 0 (length normalized / 2)).

(** The loop of [bytesToBase64]: [binary] grows by one chunk of
    [String.fromCharCode] units per turn; [fuel] bounds the turns. *)
Fixpoint binary_loop (fuel : nat) (chunk i : nat) (bs : bytes) (binary : Js.jsstring)
  : Js.jsstring :=
  match fuel with
  | O => binary
  | S fuel' =>
      if (i <? length bs)%nat
      then binary_loop fuel' chunk (i + chunk) bs
             (binary ++ firstn chunk (skipn i bs))
      else binary
  end.

Definition chunk : nat := Z.to_nat 0x8000.

Definition bytesToBase64 (bs : bytes) : Js.jsstring :=
  let binary := binary_loop (length bs) chunk 0 bs [] in
  match Base64.btoa binary with
  | Some s => s
  | None => []     (* not reached: the units of [binary] are bytes *)
  end.

Definition base64ToBytes (base64 : Js.jsstring) : io bytes :=
  match Base64.atob base64 with
  | Some binary => ret binary     (* bytes[i] = binary.charCodeAt(i) *)
  | None => throw InvalidCharacterError
  end.

Definition deriveAesKeyFromAddress (addressKey : Js.jsstring) : io bytes :=
  assertAddress addressKey ;;;
  let addressBytes := hexToBytes addressKey in
  digest <- subtle_digest addressBytes ;;
  subtle_importKey digest.

Definition encryptWithAddressKey (rng : nat -> Z) (plaintext addressKey : Js.jsstring)
  : io Js.jsstring :=
  key <- deriveAesKeyFromAddress addressKey ;;
  iv <- getRandomValues rng 12 ;;
  let encoded := Utf8.encode plaintext in
  cipherBytes <- subtle_encrypt iv key encoded ;;
  ret (Js.lit "sl1:" ++ bytesToBase64 iv ++ Js.lit ":" ++ bytesToBase64 cipherBytes).

Definition is_sl1 (prefix : option Js.jsstring) : bool :=
  match prefix with
  | Some p => Js.str_eqb p (Js.lit "sl1")
  | None => false
  end.

Definition decryptWithAddressKey (payload addressKey : Js.jsstring) : io Js.jsstring :=
  let parts := Js.split 58 payload in
  let prefix := nth_error parts 0 in
  let ivB64 := nth_error parts 1 in
  let cipherB64 := nth_error parts 2 in
  if negb (is_sl1 prefix) || negb (Js.truthy ivB64) || negb (Js.truthy cipherB64)
  then throw UnsupportedCiphertextFormat
  else
    key <- deriveAesKeyFromAddress addressKey ;;
    iv <- base64ToBytes (default [] ivB64) ;;
    cipherBytes <- base64ToBytes (default [] cipherB64) ;;
    plainBuffer <- subtle_decrypt iv key cipherBytes ;;
    ret (Utf8.decode plainBuffer).

(** *** Views of a payload used in the statements *)

(** The nonce and ciphertext segments of a payload that passes the format
    check. *)
Definition segments (payload : Js.jsstring) : option (Js.jsstring * Js.jsstring) :=
  let parts := Js.split 58 payload in
  if negb (is_sl1 (nth_error parts 0))
     || negb (Js.truthy (nth_error parts 1))
     || negb (Js.truthy (nth_error parts 2))
  then None
  else Some (default [] (nth_error parts 1), default [] (nth_error parts 2)).

(** The nonce and ciphertext bytes a payload carries. *)
Definition wire_bytes (payload : Js.jsstring) : option (bytes * bytes) :=
  match segments payload with
  | Some (ivB64, cipherB64) =>
      match Base64.atob ivB64, Base64.atob cipherB64 with
      | Some iv, Some cipherBytes => Some (iv, cipherBytes)
      | _, _ => None
      end
  | None => None
  end.

(** The shape [ADDRESS_RE] describes: [0x] and forty hexadecimal digits. *)
Definition address_shape (s : Js.jsstring) : Prop :=
  exists digits,
    s = Js.lit "0x" ++ digits
    /\ length digits = 40%nat
    /\ Forall (fun c => Js.is_hex_digit c = true) digits.

(** The AES key of a well-formed address key. *)
Definition aes_key (addressKey : Js.jsstring) : bytes :=
  Sha256.digest (hexToBytes addressKey).

(** The nonce drawn from [rng]. *)
Definition nonce (rng : nat -> Z) : bytes :=
  List.map (fun i => rng i mod 256) (seq 0 12).

End LedgerCrypto.

(** ** [contracts/SilentLedger.sol] *)
Module SilentLedger.

Definition address := Z.
(** An [eaddress] is the bytes32 handle of an encrypted address. *)
Definition eaddress := Z.
Definition externalEaddress := Z.

Record PouchEntry := {
  createdAt : Z;
  ciphertext : bytes
}.

(** Contract storage, and the access list the FHE library keeps for the
    handles ([FHE.allowThis], [FHE.allow]). A mapping reads its default
    where nothing was written. *)
Record storage := {
  _hasLedger : gmap address bool;
  _ledgerKey : gmap address eaddress;
  _pouch : gmap address (list PouchEntry);
  allowed : gset (eaddress * address)
}.

Definition genesis : storage :=
  {| _hasLedger := ∅; _ledgerKey := ∅; _pouch := ∅; allowed := ∅ |}.

Inductive error : Type :=
  | LedgerAlreadyExists (owner : address)
  | LedgerNotFound (owner : address)
  | EntryIndexOutOfBounds (owner : address) (index : Z)
  | InvalidInputProof.     (* the revert inside FHE.fromExternal *)

Inductive event : Type :=
  | LedgerCreated (owner : address)
  | LedgerKeyRotated (owner : address)
  | EntryStored (owner : address) (index : Z).

Record env := {
  msg_sender : address;
  block_timestamp : Z
}.

Definition has (s : storage) (owner : address) : bool :=
  default false (_hasLedger s !! owner).
Definition key (s : storage) (owner : address) : eaddress :=
  default 0 (_ledgerKey s !! owner).
Definition pouch (s : storage) (owner : address) : list PouchEntry :=
  default [] (_pouch s !! owner).

Section Contract.

(** The address of the deployed contract, and the input verification of the
    FHE library: the handle behind an external ciphertext when the proof is
    valid for this contract and sender. *)
Variable this : address.
Variable fromExternal : externalEaddress -> bytes -> address -> option eaddress.

Definition hasLedger (s : storage) (owner : address) : bool := has s owner.

Definition createLedger (e : env) (encryptedKey : externalEaddress) (inputProof : bytes)
    (s : storage) : error + storage * list event :=
  let owner := msg_sender e in
  if has s owner then inl (LedgerAlreadyExists owner)
  else
    match fromExternal encryptedKey inputProof owner with
    | None => inl InvalidInputProof
    | Some k =>
        inr ({| _hasLedger := <[owner := true]> (_hasLedger s);
                _ledgerKey := <[owner := k]> (_ledgerKey s);
                _pouch := _pouch s;
                allowed := {[ (k, owner) ]} ∪ ({[ (k, this) ]} ∪ allowed s) |},
             [LedgerCreated owner])
    end.

Definition rotateLedgerKey (e : env) (encryptedKey : externalEaddress) (inputProof : bytes)
    (s : storage) : error + storage * list event :=
  let owner := msg_sender e in
  if negb (has s owner) then inl (LedgerNotFound owner)
  else
    match fromExternal encryptedKey inputProof owner with
    | None => inl InvalidInputProof
    | Some k =>
        inr ({| _hasLedger := _hasLedger s;
                _ledgerKey := <[owner := k]> (_ledgerKey s);
                _pouch := _pouch s;
                allowed := {[ (k, owner) ]} ∪ ({[ (k, this) ]} ∪ allowed s) |},
             [LedgerKeyRotated owner])
    end.

Definition getLedgerKey (s : storage) (owner : address) : error + eaddress :=
  if negb (has s owner) then inl (LedgerNotFound owner)
  else inr (key s owner).

Definition storeEntry (e : env) (ciphertext : bytes) (s : storage)
    : error + storage * list event :=
  let owner := msg_sender e in
  if negb (has s owner) then inl (LedgerNotFound owner)
  else
    let entries :=
      pouch s owner ++ [{| createdAt := block_timestamp e; ciphertext := ciphertext |}] in
    inr ({| _hasLedger := _hasLedger s;
            _ledgerKey := _ledgerKey s;
            _pouch := <[owner := entries]> (_pouch s);
            allowed := allowed s |},
         [EntryStored owner (Z.of_nat (length entries) - 1)]).

Definition getEntryCount (s : storage) (owner : address) : Z :=
  Z.of_nat (length (pouch s owner)).

Definition getEntry (s : storage) (owner : address) (index : Z) : error + Z * bytes :=
  if index >=? Z.of_nat (length (pouch s owner)) then inl (EntryIndexOutOfBounds owner index)
  else
    match nth_error (pouch s owner) (Z.to_nat index) with
    | Some entry => inr (createdAt entry, ciphertext entry)
    | None => inl (EntryIndexOutOfBounds owner index)
    end.

(** *** Transactions *)

Inductive call : Type :=
  | CreateLedger (encryptedKey : externalEaddress) (inputProof : bytes)
  | RotateLedgerKey (encryptedKey : externalEaddress) (inputProof : bytes)
  | StoreEntry (ciphertext : bytes).

Record tx := {
  tx_env : env;
  tx_call : call
}.

Definition invoke (t : tx) (s : storage) : error + storage * list event :=
  match tx_call t with
  | CreateLedger k p => createLedger (tx_env t) k p s
  | RotateLedgerKey k p => rotateLedgerKey (tx_env t) k p s
  | StoreEntry c => storeEntry (tx_env t) c s
  end.

(** A transaction that reverts leaves the storage as it was. *)
Definition execute (t : tx) (s : storage) : storage :=
  match invoke t s with
  | inr (s', _) => s'
  | inl _ => s
  end.

Definition succeeds (t : tx) (s : storage) : bool :=
  match invoke t s with
  | inr _ => true
  | inl _ => false
  end.

Definition run (txs : list tx) (s : storage) : storage :=
  fold_left (fun s t => execute t s) txs s.

(** The entries of the successful [storeEntry] calls of [owner] in a
    transaction sequence started in [s], in call order. *)
Fixpoint stored_by (owner : address) (txs : list tx) (s : storage) : list PouchEntry :=
  match txs with
  | [] => []
  | t :: rest =>
      let here :=
        match tx_call t with
        | StoreEntry c =>
            if succeeds t s && (msg_sender (tx_env t) =? owner)
            then [{| createdAt := block_timestamp (tx_env t); ciphertext := c |}]
            else []
        | _ => []
        end in
      here ++ stored_by owner rest (execute t s)
  end.

End Contract.

End SilentLedger.

(** ** [Promise.all]

    Task [k] settles with [results !! k]; [order] lists the tasks in the
    order in which they settle. A fulfilment writes slot [k] of the values; the
    first rejection rejects the whole; the values are handed over once every
    slot is written. *)
Module Promise.

Section All.
Context {E A : Type}.

Fixpoint settle (order : list nat) (results : list (E + A)) (values : list (option A))
  : E + list (option A) :=
  match order with
  | [] => inr values
  | k :: rest =>
      match results !! k with
      | Some (inr v) => settle rest results (<[k := Some v]> values)
      | Some (inl e) => inl e
      | None => settle rest results values
      end
  end.

Fixpoint filled (values : list (option A)) : option (list A) :=
  match values with
  | [] => Some []
  | Some v :: r => match filled r with Some vs => Some (v :: vs) | None => None end
  | None :: _ => None
  end.

(** [None]: still pending. *)
Definition all (order : list nat) (results : list (E + A)) : option (E + list A) :=
  match settle order results (repeat None (length results)) with
  | inl e => Some (inl e)
  | inr values =>
      match filled values with
      | Some vs => Some (inr vs)
      | None => None
      end
  end.

End All.

End Promise.

(** ** [home/src/components/LedgerApp.tsx] *)
Module LedgerApp.

Record Entry := {
  index : Z;
  createdAt : Z;
  ciphertext : Js.jsstring;
  plaintext : option Js.jsstring;
  decryptError : option Js.jsstring
}.

(** The [message] of the two DOMExceptions, which the platform words. *)
Record platform := {
  invalidCharacterMessage : Js.jsstring;
  operationErrorMessage : Js.jsstring
}.

(** [err instanceof Error ? err.message : 'Decryption failed']: every error
    of [decryptWithAddressKey] is an [Error]. *)
Definition message (pf : platform) (err : LedgerCrypto.error) : Js.jsstring :=
  match err with
  | LedgerCrypto.InvalidAddressKey a => Js.lit "Invalid address key: " ++ a
  | LedgerCrypto.UnsupportedCiphertextFormat => Js.lit "Unsupported ciphertext format"
  | LedgerCrypto.InvalidCharacterError => invalidCharacterMessage pf
  | LedgerCrypto.OperationError => operationErrorMessage pf
  end.

(** *** refresh: which entries are fetched *)

Definition max : Z := 25.

(** [Array.from({ length: safeCount - start }, (_, i) => start + i)] *)
Definition indices (safeCount : Z) : list Z :=
  let start := Z.max 0 (safeCount - max) in
  List.map (fun i => start + Z.of_nat i) (seq 0 (Z.to_nat (safeCount - start))).

(** One fetch: [readContract getEntry] answers [read index]. *)
Definition fetchEntry {E} (read : Z -> E + Z * Js.jsstring) (i : Z) : E + Entry :=
  match read i with
  | inr (t, c) =>
      inr {| index := i; createdAt := t; ciphertext := c;
             plaintext := None; decryptError := None |}
  | inl e => inl e
  end.

(** The [pouch] of [refresh]; the fetches settle in [order]. *)
Definition fetchPouch {E} (read : Z -> E + Z * Js.jsstring) (safeCount : Z)
    (order : list nat) : option (E + list Entry) :=
  Promise.all order (List.map (fetchEntry read) (indices safeCount)).

(** *** The decrypt effect *)

Definition is_defined {A} (v : option A) : bool :=
  match v with Some _ => true | None => false end.

(** The callback of [entries.map] in [decryptAll]; its [try]/[catch] turns a
    rejection into a recorded reason. *)
Definition decryptEntry (pf : platform) (ledgerKeyAddress : Js.jsstring) (entry : Entry)
    : Entry :=
  if is_defined (plaintext entry) || is_defined (decryptError entry) then entry
  else
    match LedgerCrypto.outcome
            (LedgerCrypto.decryptWithAddressKey (ciphertext entry) ledgerKeyAddress) with
    | inr p =>
        {| index := index entry; createdAt := createdAt entry;
           ciphertext := ciphertext entry;
           plaintext := Some p; decryptError := None |}
    | inl err =>
        {| index := index entry; createdAt := createdAt entry;
           ciphertext := ciphertext entry;
           plaintext := None; decryptError := Some (message pf err) |}
    end.

(** [updated] of [decryptAll]; the decryptions settle in [order]. *)
Definition decryptAll (pf : platform) (ledgerKeyAddress : Js.jsstring)
    (entries : list Entry) (order : list nat) : option (Empty_set + list Entry) :=
  Promise.all order (List.map (fun e => inr (decryptEntry pf ledgerKeyAddress e)) entries).

Definition forget (e : Entry) : Entry :=
  {| index := index e; createdAt := createdAt e; ciphertext := ciphertext e;
     plaintext := None; decryptError := None |}.

(** *** Component state *)

Record state := {
  hasLedger : bool;
  encryptedLedgerKey : option Z;
  ledgerKeyAddress : option Js.jsstring;
  entries : list Entry;
  entryCount : Z;
  status : Js.jsstring;
  error : Js.jsstring;
  isUnlocking : bool
}.

(** The values the [useState] calls start from. *)
Definition mount : state :=
  {| hasLedger := false; encryptedLedgerKey := None; ledgerKeyAddress := None;
     entries := []; entryCount := 0; status := []; error := [];
     isUnlocking := false |}.

Definition set_ledgerKeyAddress (k : option Js.jsstring) (a : state) : state :=
  {| hasLedger := hasLedger a; encryptedLedgerKey := encryptedLedgerKey a;
     ledgerKeyAddress := k; entries := entries a; entryCount := entryCount a;
     status := status a; error := error a; isUnlocking := isUnlocking a |}.

Definition set_entries (es : list Entry) (a : state) : state :=
  {| hasLedger := hasLedger a; encryptedLedgerKey := encryptedLedgerKey a;
     ledgerKeyAddress := ledgerKeyAddress a; entries := es; entryCount := entryCount a;
     status := status a; error := error a; isUnlocking := isUnlocking a |}.

Definition set_status (m : Js.jsstring) (a : state) : state :=
  {| hasLedger := hasLedger a; encryptedLedgerKey := encryptedLedgerKey a;
     ledgerKeyAddress := ledgerKeyAddress a; entries := entries a;
     entryCount := entryCount a;
     status := m; error := error a; isUnlocking := isUnlocking a |}.

Definition set_error (m : Js.jsstring) (a : state) : state :=
  {| hasLedger := hasLedger a; encryptedLedgerKey := encryptedLedgerKey a;
     ledgerKeyAddress := ledgerKeyAddress a; entries := entries a;
     entryCount := entryCount a;
     status := status a; error := m; isUnlocking := isUnlocking a |}.

Definition set_isUnlocking (b : bool) (a : state) : state :=
  {| hasLedger := hasLedger a; encryptedLedgerKey := encryptedLedgerKey a;
     ledgerKeyAddress := ledgerKeyAddress a; entries := entries a;
     entryCount := entryCount a;
     status := status a; error := error a; isUnlocking := b |}.

Definition set_hasLedger (b : bool) (a : state) : state :=
  {| hasLedger := b; encryptedLedgerKey := encryptedLedgerKey a;
     ledgerKeyAddress := ledgerKeyAddress a; entries := entries a;
     entryCount := entryCount a;
     status := status a; error := error a; isUnlocking := isUnlocking a |}.

Definition set_encryptedLedgerKey (k : option Z) (a : state) : state :=
  {| hasLedger := hasLedger a; encryptedLedgerKey := k;
     ledgerKeyAddress := ledgerKeyAddress a; entries := entries a;
     entryCount := entryCount a;
     status := status a; error := error a; isUnlocking := isUnlocking a |}.

Definition set_entryCount (n : Z) (a : state) : state :=
  {| hasLedger := hasLedger a; encryptedLedgerKey := encryptedLedgerKey a;
     ledgerKeyAddress := ledgerKeyAddress a; entries := entries a;
     entryCount := n;
     status := status a; error := error a; isUnlocking := isUnlocking a |}.

Definition clearMessages (a : state) : state := set_error [] (set_status [] a).

(** [refresh] with a connected wallet and a valid contract address. The
    reads answer [has], [encryptedKey], [count] and, per index, [read]; [count]
    is below 2^53, where [Number(count)] is exact; [text] is the message of a
    failed read. *)
Definition refresh {E} (text : E -> Js.jsstring) (has : bool) (encryptedKey count : Z)
    (read : Z -> E + Z * Js.jsstring) (order : list nat) (a : state) : state :=
  let a := set_hasLedger has (clearMessages a) in
  if negb has then
    set_entries [] (set_entryCount 0 (set_ledgerKeyAddress None (set_encryptedLedgerKey None a)))
  else
    let a := set_entryCount count (set_encryptedLedgerKey (Some encryptedKey) a) in
    match fetchPouch read count order with
    | Some (inr pouch) => set_entries pouch a
    | Some (inl e) => set_error (text e) a
    | None => a
    end.

Definition isAddress (value : Js.jsstring) : bool := LedgerCrypto.ADDRESS_RE value.

Definition lockLedger (a : state) : state :=
  set_status (Js.lit "Ledger locked.") (set_ledgerKeyAddress None (clearMessages a)).

(** What [unlockLedger] reads besides the component state: whether the
    encryption instance, the wallet address and the signer are there, the
    network, and the contract address field. *)
Record wallet := {
  ready : bool;
  isOnSepolia : bool;
  contractAddressSet : bool
}.

Definition unlock_guard (w : wallet) (a : state) : option Js.jsstring :=
  if negb (ready w)
  then Some (Js.lit "Connect a wallet and wait for the encryption service to be ready.")
  else if negb (is_defined (encryptedLedgerKey a))
  then Some (Js.lit "Ledger key not found. Create a ledger first.")
  else if negb (isOnSepolia w)
  then Some (Js.lit "Switch your wallet network to Sepolia.")
  else if negb (contractAddressSet w)
  then Some (Js.lit "Set a valid deployed contract address first.")
  else None.

(** [unlockLedger] up to its first [await]. *)
Definition unlockLedger_begin (w : wallet) (a : state) : state :=
  let a := clearMessages a in
  match unlock_guard w a with
  | Some m => set_error m a
  | None => set_isUnlocking true a
  end.

(** [unlockLedger] from the answer on: the signature or the reveal rejected
    with a message, or [userDecrypt] answered the value [clearKey] ([None]: not
    a string). *)
Definition unlockLedger_end (answer : Js.jsstring + option Js.jsstring) (a : state) : state :=
  let a :=
    match answer with
    | inr (Some clearKey) =>
        if isAddress clearKey
        then set_status (Js.lit "Ledger unlocked.") (set_ledgerKeyAddress (Some clearKey) a)
        else set_error (Js.lit "Unexpected decrypted key type.") a
    | inr None => set_error (Js.lit "Unexpected decrypted key type.") a
    | inl m => set_error m a
    end in
  set_isUnlocking false a.

(** The effect on [entryCount] and [ledgerKeyAddress], run to its end
    without being cancelled. *)
Definition decryptEffect (pf : platform) (order : list nat) (a : state) : state :=
  match ledgerKeyAddress a with
  | None | Some [] =>
      if existsb (fun e => is_defined (plaintext e) || is_defined (decryptError e))
           (entries a)
      then set_entries (List.map forget (entries a)) a
      else a
  | Some k =>
      if existsb (fun e => negb (is_defined (plaintext e))
                           && negb (is_defined (decryptError e))) (entries a)
      then match decryptAll pf k (entries a) order with
           | Some (inr updated) => set_entries updated a
           | _ => a
           end
      else a
  end.

(** The order of the rendered entries: [entries.slice().reverse()]. *)
Definition rendered (a : state) : list Entry := reverse (entries a).

(** *** The unlock session

    A page holds the component state while it is mounted, the wall clock, and
    the start of the validity window of the last authorization that was signed
    ([startTimeStamp], for [durationDays] days). *)
Record page := {
  now : Z;
  validFrom : option Z;
  component : option state
}.

Definition durationDays : Z := 10.

Definition expired (p : page) : bool :=
  match validFrom p with
  | Some t0 => t0 + durationDays * 86400 <=? now p
  | None => false
  end.

Inductive event : Type :=
  | LockClicked                                   (* the Lock button *)
  | UnlockClicked (w : wallet)                    (* the Unlock Ledger button *)
  | UnlockSettled (answer : Js.jsstring + option Js.jsstring)
  | TimePassed (seconds : Z)                      (* nothing is scheduled on the clock *)
  | PageClosed.                                   (* session end: the state is gone *)

Definition step (ev : event) (p : page) : page :=
  match ev with
  | LockClicked =>
      {| now := now p; validFrom := validFrom p;
         component := option_map lockLedger (component p) |}
  | UnlockClicked w =>
      {| now := now p;
         validFrom :=
           match component p with
           | Some a =>
               if is_defined (unlock_guard w (clearMessages a)) then validFrom p
               else Some (now p)
           | None => validFrom p
           end;
         component := option_map (unlockLedger_begin w) (component p) |}
  | UnlockSettled answer =>
      {| now := now p; validFrom := validFrom p;
         component := option_map (unlockLedger_end answer) (component p) |}
  | TimePassed d =>
      {| now := now p + d; validFrom := validFrom p; component := component p |}
  | PageClosed =>
      {| now := now p; validFrom := validFrom p; component := None |}
  end.

Definition steps (evs : list event) (p : page) : page :=
  fold_left (fun p ev => step ev p) evs p.

(** The clear key the page holds. *)
Definition held_key (p : page) : option Js.jsstring :=
  match component p with
  | Some a => ledgerKeyAddress a
  | None => None
  end.

Inductive session : Type :=
  | Locked
  | Unlocking
  | Unlocked (clearKey : Js.jsstring).

Definition session_of (p : page) : session :=
  match component p with
  | Some a =>
      match ledgerKeyAddress a with
      | Some (c :: k) => Unlocked (c :: k)
      | _ => if isUnlocking a then Unlocking else Locked
      end
  | None => Locked
  end.

End LedgerApp.

(** ** Sample values *)

Definition zero_key : Js.jsstring := Js.lit "0x0000000000000000000000000000000000000000".
Definition zero_rng : nat -> Z := fun _ => 0.

(** A platform whose OperationError carries no message. *)
Definition terse : LedgerApp.platform :=
  {| LedgerApp.invalidCharacterMessage := Js.lit "The string to be decoded is not correctly encoded.";
     LedgerApp.operationErrorMessage := [] |}.

Definition sample_entries : list LedgerApp.Entry :=
  [ {| LedgerApp.index := 0; LedgerApp.createdAt := 1700000000;
       LedgerApp.ciphertext := Js.lit "ciphertext:one";
       LedgerApp.plaintext := None; LedgerApp.decryptError := None |};
    {| LedgerApp.index := 1; LedgerApp.createdAt := 1700000012;
       LedgerApp.ciphertext := Js.lit "sl1:AAAAAAAAAAAAAAAA:fS/ZroE+SNuc1lPovyvJBx+ti6ko";
       LedgerApp.plaintext := None; LedgerApp.decryptError := None |} ].

Definition connected : LedgerApp.wallet :=
  {| LedgerApp.ready := true; LedgerApp.isOnSepolia := true;
     LedgerApp.contractAddressSet := true |}.

(** A page on which the ledger was found by [refresh] and then unlocked. *)
Definition unlocked_page : LedgerApp.page :=
  LedgerApp.steps
    [LedgerApp.UnlockClicked connected; LedgerApp.UnlockSettled (inr (Some zero_key))]
    {| LedgerApp.now := 1700000000; LedgerApp.validFrom := None;
       LedgerApp.component :=
         Some (LedgerApp.refresh (E := Empty_set) (fun _ => []) true 5 0
                 (fun _ => inr (0, [])) [] LedgerApp.mount) |}.
(** ** The UTF-8 decoder between two bytes *)
Module Utf8State.

Import Utf8.


End Utf8State.

(** ** Histories of the ledger contract *)
Module LedgerHistory.

Import SilentLedger.

Section History.

Variable this : address.
Variable fromExternal : externalEaddress -> bytes -> address -> option eaddress.

(** The key handles set by the successful [createLedger] and
    [rotateLedgerKey] calls of [owner] in a transaction sequence started in
    [s], in call order. *)
Fixpoint keys_by (owner : address) (txs : list tx) (s : storage) : list eaddress :=
  match txs with
  | [] => []
  | t :: rest =>
      let here :=
        match tx_call t with
        | CreateLedger k p | RotateLedgerKey k p =>
            if succeeds this fromExternal t s && (msg_sender (tx_env t) =? owner)
            then match fromExternal k p owner with
                 | Some h => [h]
                 | None => []
                 end
            else []
        | StoreEntry _ => []
        end in
      here ++ keys_by owner rest (execute this fromExternal t s)
  end.

End History.

End LedgerHistory.

(** ** [tasks/SilentLedger.ts]: the task [task:silent-ledger:list-entries] *)
Module Tasks.

Import SilentLedger.

(** A line written by [console.log]. *)
Inductive line : Type :=
  | EntryCount (count : Z)                          (* `Entry count: ${count}` *)
  | EntryLine (i : Z) (stamp : Z) (text : bytes).   (* `${i}: createdAt=... ciphertext=...` *)

(** The loop [for (let i = 0; i < limit; i++)] over [getEntry]: the lines
    written, and the revert that ends the task, if any. *)
Fixpoint list_loop (fuel : nat) (s : storage) (owner : address) (i limit : Z)
  : list line * option error :=
  match fuel with
  | O => ([], None)
  | S fuel' =>
      if i <? limit then
        match getEntry s owner i with
        | inr (t, c) =>
            let '(ls, r) := list_loop fuel' s owner (i + 1) limit in
            (EntryLine i t c :: ls, r)
        | inl e => ([], Some e)
        end
      else ([], None)
  end.

(** The task from the read of the count on, the contract being in state [s];
    the count is below 2^53, where [Number(count)] is exact. *)
Definition listEntries (s : storage) (owner : address) : list line * option error :=
  let count := getEntryCount s owner in
  let limit := count in
  let '(ls, r) := list_loop (Z.to_nat limit) s owner 0 limit in
  (EntryCount count :: ls, r).

End Tasks.

(** ** [home/src/config/wagmi.ts]: the storage handed to wagmi *)
Module WagmiStorage.

(** [const memory = new Map<string, string>()] *)
Definition memory := gmap (list Z) Js.jsstring.

Definition empty : memory := ∅.

(** [getItem: (key) => memory.get(key) ?? null]; [None] is [null]. *)
Definition getItem (k : Js.jsstring) (m : memory) : option Js.jsstring := m !! k.

Definition setItem (k v : Js.jsstring) (m : memory) : memory := <[k := v]> m.

Definition removeItem (k : Js.jsstring) (m : memory) : memory := delete k m.

Inductive op : Type :=
  | SetItem (k v : Js.jsstring)
  | RemoveItem (k : Js.jsstring).

Definition apply (o : op) (m : memory) : memory :=
  match o with
  | SetItem k v => setItem k v m
  | RemoveItem k => removeItem k m
  end.

Definition run (ops : list op) (m : memory) : memory :=
  fold_left (fun m o => apply o m) ops m.

(** An operation that is not on the key [k]. *)
Definition leaves (k : Js.jsstring) (o : op) : Prop :=
  match o with
  | SetItem k' _ | RemoveItem k' => k' <> k
  end.

End WagmiStorage.

(** ** [LedgerApp.tsx]: the rest of the component *)
Module LedgerView.

Import LedgerApp.

(** A relative index of [slice]: a negative one counts from the end. *)
Definition relative (len k : Z) : Z :=
  if k <? 0 then Z.max (len + k) 0 else Z.min k len.

(** [s.slice(start)] and [s.slice(start, end)]. *)
Definition slice (s : Js.jsstring) (start : Z) (stop : option Z) : Js.jsstring :=
  let len := Z.of_nat (length s) in
  let from := relative len start in
  let to := match stop with Some e => relative len e | None => len end in
  firstn (Z.to_nat (to - from)) (skipn (Z.to_nat from) s).

(** [shortHex(value, size = 6)]; the ellipsis is U+2026. *)
Definition shortHex (value : Js.jsstring) (size : Z) : Js.jsstring :=
  if Z.of_nat (length value) <=? size * 2 + 2 then value
  else slice value 0 (Some (size + 2)) ++ [0x2026] ++ slice value (- size) None.

(** [s.trim()]: white space and line terminators off both ends. *)
Definition trim (s : Js.jsstring) : Js.jsstring :=
  rev (Js.skip_spaces (rev (Js.skip_spaces s))).

(** The cell under "Plaintext" of a rendered entry. *)
Inductive cell : Type :=
  | UnlockHint                          (* Unlock the ledger key to decrypt. *)
  | ErrorCallout (text : Js.jsstring)   (* entry.decryptError *)
  | PlaintextCell (text : Js.jsstring)  (* entry.plaintext *)
  | DecryptingHint.                     (* Decrypting... *)

Definition plaintextCell (key : option Js.jsstring) (entry : Entry) : cell :=
  if negb (Js.truthy key) then UnlockHint
  else if Js.truthy (decryptError entry) then ErrorCallout (default [] (decryptError entry))
  else if Js.truthy (plaintext entry) then PlaintextCell (default [] (plaintext entry))
  else DecryptingHint.

(** *** When the decrypt effect runs

    Its dependencies are [entryCount] and [ledgerKeyAddress]: after a commit
    React runs the effect, on the state of that commit, only when one of the
    two differs ([Object.is]) from the commit before. *)
Definition same_key (a b : option Js.jsstring) : bool :=
  match a, b with
  | None, None => true
  | Some x, Some y => Js.str_eqb x y
  | _, _ => false
  end.

Definition depsChanged (prev next : state) : bool :=
  negb (entryCount prev =? entryCount next)
  || negb (same_key (ledgerKeyAddress prev) (ledgerKeyAddress next)).

(** One commit of the state [next] after [prev], with the effect run to its
    end when it runs. *)
Definition commit (pf : platform) (order : list nat) (prev next : state) : state :=
  if depsChanged prev next then decryptEffect pf order next else next.

(** [refresh] on an account with a ledger, up to [setEntryCount]: the
    setters before the entries are fetched. None but [setEntryCount] touches a
    dependency of the effect or the entries. *)
Definition refresh_counted (encryptedKey count : Z) (a : state) : state :=
  set_entryCount count
    (set_encryptedLedgerKey (Some encryptedKey) (set_hasLedger true (clearMessages a))).

(** [refresh] on an account with a ledger as the component goes through it:
    one commit when the count has been read, one when the fetches have
    settled. *)
Definition refresh_commits {E} (pf : platform) (text : E -> Js.jsstring)
    (encryptedKey count : Z) (read : Z -> E + Z * Js.jsstring)
    (order effect1 effect2 : list nat) (a : state) : state :=
  let a1 := commit pf effect1 a (refresh_counted encryptedKey count a) in
  match fetchPouch read count order with
  | Some (inr pouch) => commit pf effect2 a1 (set_entries pouch a1)
  | Some (inl e) => commit pf effect2 a1 (set_error (text e) a1)
  | None => a1
  end.

(** *** [refresh] against the contract

    The reads of one [refresh] answered by the contract in state [s] for the
    connected account [owner]; [abiString] is the decoding of a returned
    string and [text] the message of a revert. *)
Definition readEntry (abiString : bytes -> Js.jsstring) (s : SilentLedger.storage)
    (owner : SilentLedger.address) (i : Z) : SilentLedger.error + Z * Js.jsstring :=
  match SilentLedger.getEntry s owner i with
  | inr (t, c) => inr (t, abiString c)
  | inl e => inl e
  end.

Definition refreshOnChain (text : SilentLedger.error -> Js.jsstring)
    (abiString : bytes -> Js.jsstring) (s : SilentLedger.storage)
    (owner : SilentLedger.address) (order : list nat) (a : state) : state :=
  refresh text (SilentLedger.hasLedger s owner)
    (match SilentLedger.getLedgerKey s owner with inr k => k | inl _ => 0 end)
    (SilentLedger.getEntryCount s owner) (readEntry abiString s owner) order a.

(** *** [refresh] in all its ways

    Before any read it returns when no wallet is connected and stops with a
    message when the contract address is not valid; a read that rejects is
    caught and shown. [LedgerApp.refresh] is the case in which the first three
    reads answer. *)
Inductive refreshing : Type :=
  | NotConnected
  | NoValidAddress
  | HasLedgerFailed (m : Js.jsstring)
  | LedgerKeyFailed (m : Js.jsstring)
  | EntryCountFailed (encryptedKey : Z) (m : Js.jsstring)
  | Reads (has : bool) (encryptedKey count : Z)
      (read : Z -> Js.jsstring + Z * Js.jsstring) (order : list nat).

Definition refreshWith (r : refreshing) (a : state) : state :=
  match r with
  | NotConnected => clearMessages a
  | NoValidAddress => set_error (Js.lit "Enter a valid contract address.") (clearMessages a)
  | HasLedgerFailed m => set_error m (clearMessages a)
  | LedgerKeyFailed m => set_error m (set_hasLedger true (clearMessages a))
  | EntryCountFailed k m =>
      set_error m (set_encryptedLedgerKey (Some k) (set_hasLedger true (clearMessages a)))
  | Reads has k count read order => refresh (fun m => m) has k count read order a
  end.

(** *** The handlers that send a transaction

    The component state of [LedgerApp.state] with the message field and the
    two busy flags. *)
Record form := {
  inner : state;
  message : Js.jsstring;
  isCreating : bool;
  isStoring : bool
}.


Definition on_inner (f : state -> state) (x : form) : form :=
  {| inner := f (inner x); message := message x;
     isCreating := isCreating x; isStoring := isStoring x |}.

Definition set_message (m : Js.jsstring) (x : form) : form :=
  {| inner := inner x; message := m; isCreating := isCreating x; isStoring := isStoring x |}.

Definition set_isCreating (b : bool) (x : form) : form :=
  {| inner := inner x; message := message x; isCreating := b; isStoring := isStoring x |}.

Definition set_isStoring (b : bool) (x : form) : form :=
  {| inner := inner x; message := message x; isCreating := isCreating x; isStoring := b |}.


(** How a transaction went: rejected before it had a hash (the signer, the
    encryption of the input, the submission), rejected while waiting for the
    receipt, or mined. [m] is the text shown: the message of the error, or the
    fallback of the handler. *)
Inductive sent : Type :=
  | NotSent (m : Js.jsstring)
  | Dropped (hash m : Js.jsstring)
  | Mined (hash : Js.jsstring).



(** What a handler does once its transaction has settled; [done] is its
    word of success and [r] the [refresh] it awaits then. *)
Definition settled (done : Js.jsstring) (answer : sent) (r : refreshing) (a : state)
  : state :=
  match answer with
  | NotSent m => set_error m a
  | Dropped hash m =>
      set_error m (set_status (Js.lit "Transaction submitted: " ++ hash) a)
  | Mined hash =>
      refreshWith r (set_status done (set_status (Js.lit "Transaction submitted: " ++ hash) a))
  end.

(** [createLedger] from its first [await] on. *)
Definition createLedger_end (answer : sent) (r : refreshing) (x : form) : form :=
  set_isCreating false (on_inner (settled (Js.lit "Ledger created.") answer r) x).

Definition storeMessage_guard (w : wallet) (x : form) : option Js.jsstring :=
  if negb (Js.truthy (ledgerKeyAddress (inner x)))
  then Some (Js.lit "Unlock your ledger key first.")
  else if negb (ready w)
  then Some (Js.lit "Connect a wallet and wait for the encryption service to be ready.")
  else if negb (isOnSepolia w)
  then Some (Js.lit "Switch your wallet network to Sepolia.")
  else if negb (contractAddressSet w)
  then Some (Js.lit "Set a valid deployed contract address first.")
  else if negb (Js.truthy (Some (trim (message x))))
  then Some (Js.lit "Enter a message.")
  else None.


(** The ciphertext [storeMessage] hands to [contract.storeEntry]: the
    message and the key are those of the render in which the button was
    clicked, [click]. *)
Definition storeMessage_ciphertext (rng : nat -> Z) (click : form)
  : LedgerCrypto.io Js.jsstring :=
  LedgerCrypto.encryptWithAddressKey rng (trim (message click))
    (default [] (ledgerKeyAddress (inner click))).

(** [storeMessage] from its first [await] on. [signer] answers
    [await signerPromise] ([inl m]: rejected, shown as [m]); [chain] is how the
    transaction goes for the ciphertext. *)
Definition storeMessage_end (pf : platform) (rng : nat -> Z) (click : form)
    (signer : Js.jsstring + unit) (chain : Js.jsstring -> sent) (r : refreshing)
    (x : form) : form :=
  let x :=
    match signer with
    | inl m => on_inner (set_error m) x
    | inr _ =>
        match LedgerCrypto.outcome (storeMessage_ciphertext rng click) with
        | inl err => on_inner (set_error (LedgerApp.message pf err)) x
        | inr ciphertext =>
            match chain ciphertext with
            | NotSent m => on_inner (set_error m) x
            | Dropped hash m =>
                on_inner (set_error m)
                  (on_inner (set_status (Js.lit "Transaction submitted: " ++ hash)) x)
            | Mined hash =>
                on_inner (refreshWith r)
                  (on_inner (set_status (Js.lit "Entry stored."))
                     (set_message []
                        (on_inner (set_status (Js.lit "Transaction submitted: " ++ hash)) x)))
            end
        end
    end in
  set_isStoring false x.





End LedgerView.

(** * Properties *)

(** ** Test vectors of the platform functions *)

Example sha256_abc :
  Sha256.digest (Js.lit "abc")
  = hex "ba7816bf8f01cfea414140de5dae2223b00361a396177a9cb410ff61f20015ad".
Proof. vm_compute. reflexivity. Qed.

Example aes256_fips197 :
  Aes.encrypt_block
    (Aes.key_expansion (hex "000102030405060708090a0b0c0d0e0f101112131415161718191a1b1c1d1e1f"))
    (hex "00112233445566778899aabbccddeeff")
  = hex "8ea2b7ca516745bfeafc49904b496089".
Proof. vm_compute. reflexivity. Qed.

Example aes256_fips197_inverse :
  Aes.decrypt_block
    (Aes.key_expansion (hex "000102030405060708090a0b0c0d0e0f101112131415161718191a1b1c1d1e1f"))
    (hex "8ea2b7ca516745bfeafc49904b496089")
  = hex "00112233445566778899aabbccddeeff".
Proof. vm_compute. reflexivity. Qed.

Example gcm_test_case_13 :
  Gcm.encrypt (repeat 0 32) (repeat 0 12) [] = hex "530f8afbc74536b9a963b4f1c4cb738b".
Proof. vm_compute. reflexivity. Qed.

Example gcm_test_case_14 :
  Gcm.encrypt (repeat 0 32) (repeat 0 12) (repeat 0 16)
  = hex "cea7403d4d606b6e074ec5d3baf39d18d0d1c8a799996bf0265b98b5d48ab919".
Proof. vm_compute. reflexivity. Qed.

Example btoa_hello : Base64.btoa (Js.lit "hello") = Some (Js.lit "aGVsbG8=").
Proof. reflexivity. Qed.

Example atob_hello : Base64.atob (Js.lit "aGVsbG8=") = Some (Js.lit "hello").
Proof. reflexivity. Qed.

Example atob_forgiving : Base64.atob (Js.lit " aGVs bG9=") = Some (Js.lit "hello").
Proof. reflexivity. Qed.

Example utf8_euro : Utf8.encode [0x20AC; 0xD83D; 0xDE00] = hex "e282acf09f9880".
Proof. reflexivity. Qed.

Example utf8_decode_euro : Utf8.decode (hex "e282acf09f9880") = [0x20AC; 0xD83D; 0xDE00].
Proof. reflexivity. Qed.

Example sha256_constants :
  nth 0 Sha256.K 0 = 0x428a2f98 /\ nth 63 Sha256.K 0 = 0xc67178f2
  /\ nth 0 Sha256.H0 0 = 0x6a09e667 /\ nth 7 Sha256.H0 0 = 0x5be0cd19.
Proof. repeat split; reflexivity. Qed.


Example utf8_decode_replacement :
  Utf8.decode (hex "c080") = [0xFFFD; 0xFFFD]
  /\ Utf8.decode (hex "e28241") = [0xFFFD; 65]
  /\ Utf8.decode (hex "eda080") = [0xFFFD; 0xFFFD; 0xFFFD]
  /\ Utf8.decode (hex "f09f98") = [0xFFFD].
Proof. repeat split; reflexivity. Qed.

Example utf8_decode_bom : Utf8.decode (hex "efbbbf6869") = Js.lit "hi".
Proof. reflexivity. Qed.

Example hexToBytes_mixed_case :
  LedgerCrypto.hexToBytes (Js.lit "0x0123456789abcdefABCDEF000000000000000000")
  = hex "0123456789abcdefabcdef000000000000000000".
Proof. reflexivity. Qed.

Example aes_key_zero :
  LedgerCrypto.aes_key zero_key
  = hex "de47c9b27eb8d300dbb5f2c353e632c393262cf06340c4fa7f1b40c4cbd36f90".
Proof. vm_compute. reflexivity. Qed.

Example split_examples :
  Js.split 58 (Js.lit "sl1:a:b") = [Js.lit "sl1"; Js.lit "a"; Js.lit "b"]
  /\ Js.split 58 (Js.lit "a:") = [Js.lit "a"; []]
  /\ Js.split 58 [] = [[]].
Proof. repeat split; reflexivity. Qed.

Example encrypt_hello :
  LedgerCrypto.outcome
    (LedgerCrypto.encryptWithAddressKey zero_rng (Js.lit "hello") zero_key)
  = inr (Js.lit "sl1:AAAAAAAAAAAAAAAA:fS/ZroE+SNuc1lPovyvJBx+ti6ko").
Proof. vm_compute. reflexivity. Qed.

(** ** Bit arithmetic *)

Lemma land_ones_mod a n : 0 <= n -> Z.land a (2 ^ n - 1) = a mod 2 ^ n.
Proof. intros. rewrite <- Z.land_ones by lia. f_equal. rewrite Z.ones_equiv. lia. Qed.

Lemma lor_disjoint x b n :
  0 <= n -> x mod 2 ^ n = 0 -> 0 <= b < 2 ^ n -> Z.lor x b = x + b.
Proof.
  intros Hn Hx Hb.
  rewrite Z.add_nocarry_lxor, Z.lxor_lor; try reflexivity.
  all: apply Z.bits_inj'; intros i Hi; rewrite Z.land_spec, Z.bits_0.
  all: destruct (Z.lt_ge_cases i n).
  all: try (rewrite <- (Z.mod_small b (2 ^ n)) by lia;
            rewrite (Z.mod_pow2_bits_high b n i) by lia; apply Bool.andb_false_r).
  all: rewrite (Z.div_mod x (2 ^ n)) by lia; rewrite Hx, Z.add_0_r, Z.mul_comm;
       rewrite Z.mul_pow2_bits_low by lia; reflexivity.
Qed.

Lemma land_3 a : Z.land a 3 = a mod 4.
Proof. apply (land_ones_mod a 2). lia. Qed.
Lemma land_7 a : Z.land a 7 = a mod 8.
Proof. apply (land_ones_mod a 3). lia. Qed.
Lemma land_15 a : Z.land a 15 = a mod 16.
Proof. apply (land_ones_mod a 4). lia. Qed.
Lemma land_31 a : Z.land a 31 = a mod 32.
Proof. apply (land_ones_mod a 5). lia. Qed.
Lemma land_63 a : Z.land a 63 = a mod 64.
Proof. apply (land_ones_mod a 6). lia. Qed.
Lemma land_255 a : Z.land a 255 = a mod 256.
Proof. apply (land_ones_mod a 8). lia. Qed.
Lemma land_1023 a : Z.land a 1023 = a mod 1024.
Proof. apply (land_ones_mod a 10). lia. Qed.

Ltac pow_norm :=
  repeat match goal with
         | |- context [2 ^ ?n] =>
             let v := eval vm_compute in (2 ^ n) in change (2 ^ n) with v
         end.

Ltac arith :=
  rewrite ?land_3, ?land_7, ?land_15, ?land_31, ?land_63, ?land_255, ?land_1023;
  rewrite ?Z.shiftr_div_pow2, ?Z.shiftl_mul_pow2 by lia;
  pow_norm.

Ltac euclid := pow_norm; Z.div_mod_to_equations; lia.

Lemma sextets_3 a b c :
  byte a -> byte b -> byte c ->
  Base64.decode_values (Base64.sextets [a; b; c]) = [a; b; c].
Proof.
  unfold byte. intros Ha Hb Hc. simpl. arith.
  rewrite (lor_disjoint _ (b / 16) 4) by euclid.
  rewrite (lor_disjoint _ (c / 64) 2) by euclid.
  arith.
  rewrite (lor_disjoint _ (_ * 4096) 18) by euclid.
  rewrite (lor_disjoint _ (_ * 64) 12) by euclid.
  rewrite (lor_disjoint _ (c mod 64) 6) by euclid.
  arith.
  repeat f_equal; euclid.
Qed.


Lemma list_ind3 {A} (P : list A -> Prop) :
  P [] -> (forall a, P [a]) -> (forall a b, P [a; b]) ->
  (forall a b c r, P r -> P (a :: b :: c :: r)) ->
  forall l, P l.
Proof.
  intros H0 H1 H2 H3.
  assert (H : forall l, P l /\ (forall a, P (a :: l)) /\ (forall a b, P (a :: b :: l))).
  { induction l as [| x l (IH0 & IH1 & IH2)]; [by auto |].
    split; [apply IH1 | split; [intros; apply IH2 | intros; by apply H3]]. }
  intros l. apply H.
Qed.

Ltac forall_inv :=
  repeat match goal with
         | H : Forall _ (_ :: _) |- _ => apply Forall_cons in H as [? H]
         end.


Lemma sextets_range bs : Forall byte bs -> Forall Base64.sextet (Base64.sextets bs).
Proof.
  induction bs as [| a | a b | a b c r IH] using list_ind3; intros H;
    forall_inv; unfold byte, Base64.sextet in *; simpl.
  - constructor.
  - repeat constructor; arith; euclid.
  - rewrite (lor_disjoint _ (Z.shiftr b 4) 4) by (arith; euclid).
    repeat constructor; arith; euclid.
  - rewrite (lor_disjoint _ (Z.shiftr b 4) 4) by (arith; euclid).
    rewrite (lor_disjoint _ (Z.shiftr c 6) 2) by (arith; euclid).
    repeat (constructor; [arith; euclid |]). by apply IH.
Qed.

Lemma encode_sextets bs :
  Base64.encode bs = List.map Base64.char_of (Base64.sextets bs) ++ Base64.padding bs.
Proof.
  induction bs as [| a | a b | a b c r IH] using list_ind3; try reflexivity.
  simpl. by rewrite IH.
Qed.

Lemma value_of_char_of v : Base64.sextet v -> Base64.value_of (Base64.char_of v) = Some v.
Proof.
  unfold Base64.sextet, Base64.value_of, Base64.char_of. intros H.
  repeat match goal with
         | |- context [?a <? ?b] => destruct (Z.ltb_spec a b)
         | |- context [?a <=? ?b] => destruct (Z.leb_spec a b)
         | |- context [?a =? ?b] => destruct (Z.eqb_spec a b)
         | _ => progress simpl
         end; try lia; f_equal; lia.
Qed.

Lemma value_of_alphabet c v :
  Base64.value_of c = Some v ->
  65 <= c <= 90 \/ 97 <= c <= 122 \/ 48 <= c <= 57 \/ c = 43 \/ c = 47.
Proof.
  unfold Base64.value_of.
  repeat match goal with
         | |- context [?a <=? ?b] => destruct (Z.leb_spec a b)
         | |- context [?a =? ?b] => destruct (Z.eqb_spec a b)
         | _ => progress simpl
         end; intros; try discriminate; lia.
Qed.

Lemma char_of_alphabet v :
  Base64.sextet v ->
  let c := Base64.char_of v in
  65 <= c <= 90 \/ 97 <= c <= 122 \/ 48 <= c <= 57 \/ c = 43 \/ c = 47.
Proof. intros H. by apply (value_of_alphabet _ v), value_of_char_of. Qed.

Lemma values_chars vs :
  Forall Base64.sextet vs -> Base64.values (List.map Base64.char_of vs) = Some vs.
Proof.
  induction 1 as [| v vs Hv _ IH]; simpl; [done |].
  by rewrite value_of_char_of, IH.
Qed.

Lemma decode_sextets bs : Forall byte bs -> Base64.decode_values (Base64.sextets bs) = bs.
Proof.
  induction bs as [| a | a b | a b c r IH] using list_ind3; intros H;
    forall_inv; unfold byte in *.
  - done.
  - simpl. arith.
    rewrite (lor_disjoint _ (_ * 16) 6) by euclid. arith.
    f_equal. euclid.
  - simpl. arith.
    rewrite (lor_disjoint _ (b / 16) 4) by euclid.
    rewrite (lor_disjoint _ (_ * 64) 12) by euclid.
    rewrite (lor_disjoint _ (_ * 4) 6) by euclid. arith.
    repeat f_equal; euclid.
  - change (Base64.decode_values (Base64.sextets (a :: b :: c :: r)))
      with (Base64.decode_values (Base64.sextets [a; b; c]) ++ Base64.decode_values (Base64.sextets r)).
    rewrite sextets_3, IH by done. done.
Qed.

Lemma padding_cases bs :
  Base64.padding bs = [] \/ Base64.padding bs = [61; 61] \/ Base64.padding bs = [61].
Proof. induction bs using list_ind3; simpl; auto. Qed.

Lemma encode_length bs : (length (Base64.encode bs) mod 4 = 0)%nat.
Proof.
  induction bs as [| a | a b | a b c r IH] using list_ind3; try reflexivity.
  change (Base64.encode (a :: b :: c :: r)) with
    ([Base64.char_of (Z.shiftr a 2);
      Base64.char_of (Z.lor (Z.shiftl (Z.land a 3) 4) (Z.shiftr b 4));
      Base64.char_of (Z.lor (Z.shiftl (Z.land b 15) 2) (Z.shiftr c 6));
      Base64.char_of (Z.land c 63)] ++ Base64.encode r).
  rewrite length_app. change (length [_; _; _; _]) with 4%nat.
  rewrite <- Nat.Div0.add_mod_idemp_l. simpl. exact IH.
Qed.

Lemma encode_length_exact bs :
  length (Base64.encode bs) = (4 * ((length bs + 2) / 3))%nat.
Proof.
  induction bs as [| a | a b | a b c r IH] using list_ind3; try reflexivity.
  change (length (Base64.encode (a :: b :: c :: r)))
    with (4 + length (Base64.encode r))%nat.
  rewrite IH. change (length (a :: b :: c :: r)) with (3 + length r)%nat.
  replace (3 + length r + 2)%nat with ((length r + 2) + 1 * 3)%nat by lia.
  rewrite Nat.div_add by lia. lia.
Qed.

Lemma sextets_length bs : (length (Base64.sextets bs) mod 4 <> 1)%nat.
Proof.
  induction bs as [| a | a b | a b c r IH] using list_ind3; try (simpl; lia).
  change (Base64.sextets (a :: b :: c :: r)) with
    ([Z.shiftr a 2; Z.lor (Z.shiftl (Z.land a 3) 4) (Z.shiftr b 4);
      Z.lor (Z.shiftl (Z.land b 15) 2) (Z.shiftr c 6); Z.land c 63] ++ Base64.sextets r).
  rewrite length_app. change (length [_; _; _; _]) with 4%nat.
  rewrite <- Nat.Div0.add_mod_idemp_l. simpl. exact IH.
Qed.

Lemma last_not_pad (l : list Z) : Forall (fun c => c <> 61) l -> List.last l 0 <> 61.
Proof.
  induction 1 as [| c l Hc Hl IH]; simpl; [lia |].
  destruct l; [done | exact IH].
Qed.

(** The padding added by [encode] is what [atob] strips. *)
Lemma strip_padding_encode (body pad : Js.jsstring) :
  Forall (fun c => c <> 61) body ->
  pad = [] \/ pad = [61; 61] \/ pad = [61] ->
  (length (body ++ pad) mod 4 = 0)%nat ->
  Base64.strip_padding (body ++ pad) = body.
Proof.
  intros Hbody Hpad Hlen. unfold Base64.strip_padding. rewrite Hlen. simpl.
  pose proof (last_not_pad body Hbody) as Hlast.
  destruct Hpad as [-> | [-> | ->]].
  - rewrite app_nil_r. by destruct (Z.eqb_spec (List.last body 0) 61).
  - change (body ++ [61; 61]) with (body ++ [61] ++ [61]). rewrite app_assoc.
    rewrite List.last_last, List.removelast_last. simpl.
    by rewrite List.last_last, List.removelast_last.
  - rewrite List.last_last, List.removelast_last. simpl.
    by destruct (Z.eqb_spec (List.last body 0) 61).
Qed.

Lemma chars_alphabet vs :
  Forall Base64.sextet vs ->
  Forall (fun c => 65 <= c <= 90 \/ 97 <= c <= 122 \/ 48 <= c <= 57 \/ c = 43 \/ c = 47)
         (List.map Base64.char_of vs).
Proof.
  induction 1; simpl; constructor; [by apply char_of_alphabet | done].
Qed.


Lemma encode_chars bs : Forall byte bs -> Forall Base64.written (Base64.encode bs).
Proof.
  intros H. rewrite encode_sextets. apply Forall_app. split.
  - eapply Forall_impl; [apply chars_alphabet, sextets_range, H |].
    unfold Base64.written. intros c Hc. simpl in Hc. lia.
  - destruct (padding_cases bs) as [-> | [-> | ->]]; repeat constructor;
      unfold Base64.written; lia.
Qed.

Lemma remove_whitespace_id (s : Js.jsstring) :
  Forall Base64.written s -> Base64.remove_whitespace s = s.
Proof.
  induction 1 as [| c s Hc _ IH]; [done |].
  unfold Base64.remove_whitespace in *. simpl. rewrite IH.
  assert (Base64.is_ascii_whitespace c = false) as ->; [| done].
  unfold Base64.written in Hc. unfold Base64.is_ascii_whitespace.
  repeat match goal with
         | |- context [?a =? ?b] => destruct (Z.eqb_spec a b); [lia |]
         end. done.
Qed.

(** Decoding what [btoa] wrote gives the bytes back. *)
Lemma atob_encode bs : Forall byte bs -> Base64.atob (Base64.encode bs) = Some bs.
Proof.
  intros H. unfold Base64.atob.
  rewrite remove_whitespace_id by by apply encode_chars.
  pose proof (encode_length bs) as Hlen. rewrite encode_sextets in *.
  rewrite strip_padding_encode; [| | apply padding_cases | done].
  - rewrite length_map.
    destruct (Nat.eqb_spec (length (Base64.sextets bs) mod 4) 1) as [Heq | _];
      [by apply sextets_length in Heq |].
    by rewrite values_chars, decode_sextets by by try apply sextets_range.
  - eapply Forall_impl; [apply chars_alphabet, sextets_range, H |].
    intros c Hc. simpl in Hc. lia.
Qed.





Lemma btoa_bytes bs : Forall byte bs -> Base64.btoa bs = Some (Base64.encode bs).
Proof.
  intros H. unfold Base64.btoa.
  assert (forallb (fun c => (0 <=? c) && (c <=? 255)) bs = true) as ->; [| done].
  apply forallb_forall. intros c Hc.
  apply (proj1 (List.Forall_forall _ _) H) in Hc. unfold byte in Hc.
  apply andb_true_iff; split; apply Z.leb_le; lia.
Qed.

Lemma binary_loop_skipn chunk bs : (0 < chunk)%nat ->
  forall fuel i acc, (length bs <= i + fuel)%nat ->
  LedgerCrypto.binary_loop fuel chunk i bs acc = acc ++ skipn i bs.
Proof.
  intros Hc. induction fuel as [| fuel IH]; intros i acc Hlen; simpl.
  - rewrite skipn_all2 by lia. by rewrite app_nil_r.
  - destruct (Nat.ltb_spec i (length bs)).
    + rewrite IH by lia. rewrite <- app_assoc. f_equal.
      rewrite (Nat.add_comm i chunk), <- skipn_skipn. apply firstn_skipn.
    + rewrite skipn_all2 by lia. by rewrite app_nil_r.
Qed.

Lemma bytesToBase64_encode bs :
  Forall byte bs -> LedgerCrypto.bytesToBase64 bs = Base64.encode bs.
Proof.
  intros H. unfold LedgerCrypto.bytesToBase64.
  rewrite binary_loop_skipn by (unfold LedgerCrypto.chunk; lia).
  simpl. by rewrite btoa_bytes.
Qed.

(** ** UTF-8 *)

Lemma continuation_arith cp s :
  0 <= s -> Utf8.continuation cp s = 128 + (cp / 2 ^ s) mod 64.
Proof.
  intros Hs. unfold Utf8.continuation.
  rewrite Z.shiftr_div_pow2, land_63 by lia.
  apply (lor_disjoint 128 _ 6); [lia | done | euclid].
Qed.

Lemma step_continue st b :
  Utf8.bytes_needed st <> 0 ->
  Utf8.lower_boundary st <= b <= Utf8.upper_boundary st ->
  Utf8.step st b =
    let cp := Utf8.code_point st * 64 + b mod 64 in
    if Utf8.bytes_seen st + 1 =? Utf8.bytes_needed st then (Utf8.initial, [cp])
    else ({| Utf8.code_point := cp; Utf8.bytes_seen := Utf8.bytes_seen st + 1;
             Utf8.bytes_needed := Utf8.bytes_needed st;
             Utf8.lower_boundary := 0x80; Utf8.upper_boundary := 0xBF |}, []).
Proof.
  intros Hn Hb. unfold Utf8.step.
  destruct (Z.eqb_spec (Utf8.bytes_needed st) 0) as [| _]; [done |].
  destruct (Z.leb_spec (Utf8.lower_boundary st) b); [| lia].
  destruct (Z.leb_spec b (Utf8.upper_boundary st)); [| lia].
  simpl. rewrite land_63, Z.shiftl_mul_pow2 by lia.
  rewrite (lor_disjoint _ (b mod 64) 6) by euclid. done.
Qed.

Ltac cmp :=
  repeat match goal with
         | |- context [?a <=? ?b] =>
             destruct (Z.leb_spec a b); try (exfalso; euclid); simpl
         | |- context [?a =? ?b] =>
             destruct (Z.eqb_spec a b); try (exfalso; euclid); simpl
         end.

Lemma run_encode_scalar cp rest :
  Utf8.scalar_value cp ->
  Utf8.run Utf8.initial (Utf8.encode_scalar cp ++ rest) = cp :: Utf8.run Utf8.initial rest.
Proof.
  unfold Utf8.scalar_value. intros Hcp. unfold Utf8.encode_scalar.
  rewrite !continuation_arith by lia. rewrite !Z.shiftr_div_pow2 by lia. pow_norm.
  rewrite Z.div_1_r.
  destruct (Z.leb_spec cp 0x7F); [| destruct (Z.leb_spec cp 0x7FF); [| destruct (Z.leb_spec cp 0xFFFF)]].
  - simpl. unfold Utf8.step, Utf8.lead; simpl. cmp. done.
  - cbn [app Utf8.run]. 
    assert (Utf8.step Utf8.initial (cp / 64 + 192) =
      ({| Utf8.code_point := cp / 64; Utf8.bytes_seen := 0; Utf8.bytes_needed := 1;
          Utf8.lower_boundary := 0x80; Utf8.upper_boundary := 0xBF |}, [])) as ->.
    { unfold Utf8.step, Utf8.lead; simpl. cmp. rewrite land_31. do 2 f_equal. euclid. }
    rewrite step_continue by (simpl; euclid). simpl. do 2 f_equal. euclid.
  - cbn [app Utf8.run].
    assert (exists lo hi, Utf8.step Utf8.initial (cp / 4096 + 224) =
      ({| Utf8.code_point := cp / 4096; Utf8.bytes_seen := 0; Utf8.bytes_needed := 2;
          Utf8.lower_boundary := lo; Utf8.upper_boundary := hi |}, [])
      /\ lo <= 128 + (cp / 64) mod 64 <= hi) as (lo & hi & -> & Hb).
    { unfold Utf8.step, Utf8.lead; simpl. cmp; rewrite land_15;
        eexists _, _; (split; [do 2 f_equal; euclid | euclid]). }
    rewrite step_continue by (simpl; lia). simpl.
    rewrite step_continue by (simpl; euclid). simpl. do 2 f_equal. euclid.
  - cbn [app Utf8.run].
    assert (exists lo hi, Utf8.step Utf8.initial (cp / 262144 + 240) =
      ({| Utf8.code_point := cp / 262144; Utf8.bytes_seen := 0; Utf8.bytes_needed := 3;
          Utf8.lower_boundary := lo; Utf8.upper_boundary := hi |}, [])
      /\ lo <= 128 + (cp / 4096) mod 64 <= hi) as (lo & hi & -> & Hb).
    { unfold Utf8.step, Utf8.lead; simpl. cmp; rewrite land_7;
        eexists _, _; (split; [do 2 f_equal; euclid | euclid]). }
    rewrite step_continue by (simpl; lia). simpl.
    rewrite step_continue by (simpl; euclid). simpl.
    rewrite step_continue by (simpl; euclid). simpl. do 2 f_equal. euclid.
Qed.

Lemma run_encode cps :
  Forall Utf8.scalar_value cps ->
  Utf8.run Utf8.initial (concat (List.map Utf8.encode_scalar cps)) = cps.
Proof.
  induction 1 as [| cp cps Hcp _ IH]; [done |].
  simpl. by rewrite run_encode_scalar, IH.
Qed.

Lemma encode_scalar_bytes cp : Utf8.scalar_value cp -> Forall byte (Utf8.encode_scalar cp).
Proof.
  unfold Utf8.scalar_value, byte. intros Hcp. unfold Utf8.encode_scalar.
  rewrite !continuation_arith by lia. rewrite !Z.shiftr_div_pow2 by lia. pow_norm.
  destruct (Z.leb_spec cp 0x7F); [| destruct (Z.leb_spec cp 0x7FF); [| destruct (Z.leb_spec cp 0xFFFF)]];
    repeat constructor; euclid.
Qed.

Ltac surrogates :=
  unfold Utf8.is_high_surrogate, Utf8.is_low_surrogate in *;
  repeat match goal with
         | H : (_ && _) = true |- _ => apply andb_true_iff in H as [? ?]
         | H : (_ && _) = false |- _ => apply andb_false_iff in H
         | H : negb _ = true |- _ => apply negb_true_iff in H
         | H : (_ <=? _) = true |- _ => apply Z.leb_le in H
         | H : (_ <=? _) = false |- _ => apply Z.leb_gt in H
         end.

(** Induction along the recursion of [scalar_values]. *)
Lemma units_ind {A} (P : list A -> Prop) :
  P [] ->
  (forall c, P [c]) ->
  (forall c d r, P r -> P (d :: r) -> P (c :: d :: r)) ->
  forall s, P s.
Proof.
  intros H0 H1 H2 s.
  assert (H : P s /\ forall c, P (c :: s)); [| apply H].
  induction s as [| d s [IH IH']]; [by auto |].
  split; [apply IH' | intros c; by apply H2].
Qed.

Lemma scalar_values_cons c r :
  Utf8.scalar_values (c :: r) =
    if Utf8.is_high_surrogate c then
      match r with
      | d :: r' =>
          if Utf8.is_low_surrogate d
          then (0x10000 + Z.shiftl (c - 0xD800) 10 + (d - 0xDC00)) :: Utf8.scalar_values r'
          else 0xFFFD :: Utf8.scalar_values r
      | [] => [0xFFFD]
      end
    else if Utf8.is_low_surrogate c then 0xFFFD :: Utf8.scalar_values r
    else c :: Utf8.scalar_values r.
Proof. reflexivity. Qed.

Lemma well_formed_cons c r :
  Utf8.well_formed (c :: r) =
    if Utf8.is_high_surrogate c then
      match r with
      | d :: r' => Utf8.is_low_surrogate d && Utf8.well_formed r'
      | [] => false
      end
    else negb (Utf8.is_low_surrogate c) && Utf8.well_formed r.
Proof. reflexivity. Qed.

Lemma scalar_values_scalar s :
  Forall Js.code_unit s -> Forall Utf8.scalar_value (Utf8.scalar_values s).
Proof.
  unfold Js.code_unit, Utf8.scalar_value.
  induction s as [| c | c d r IHr IHd] using units_ind; intros H; forall_inv.
  - constructor.
  - simpl. destruct (Utf8.is_high_surrogate c) eqn:Hh.
    + constructor; [lia | constructor].
    + destruct (Utf8.is_low_surrogate c) eqn:Hl;
        (constructor; [surrogates; lia | constructor]).
  - pose proof (IHd ltac:(by constructor)) as IHd'.
    rewrite scalar_values_cons.
    destruct (Utf8.is_high_surrogate c) eqn:Hh.
    + destruct (Utf8.is_low_surrogate d) eqn:Hl.
      * constructor; [| by apply IHr].
        surrogates. rewrite Z.shiftl_mul_pow2 by lia. lia.
      * constructor; [lia | done].
    + destruct (Utf8.is_low_surrogate c) eqn:Hl;
        (constructor; [surrogates; lia | done]).
Qed.

Lemma encode_bytes s : Forall Js.code_unit s -> Forall byte (Utf8.encode s).
Proof.
  intros H. unfold Utf8.encode.
  apply scalar_values_scalar in H.
  induction H as [| cp cps Hcp _ IH]; simpl; [constructor |].
  apply Forall_app. split; [by apply encode_scalar_bytes | done].
Qed.

(** A well-formed string is the UTF-16 form of its scalar values. *)
Lemma units_scalar_values s :
  Forall Js.code_unit s -> Utf8.well_formed s = true ->
  concat (List.map Utf8.units_of_scalar (Utf8.scalar_values s)) = s.
Proof.
  unfold Js.code_unit.
  induction s as [| c | c d r IHr IHd] using units_ind; intros H Hwf; forall_inv.
  - done.
  - rewrite scalar_values_cons. rewrite well_formed_cons in Hwf.
    destruct (Utf8.is_high_surrogate c) eqn:Hh; [done |].
    destruct (Utf8.is_low_surrogate c) eqn:Hl; [done |].
    cbn [Utf8.scalar_values List.map concat]. unfold Utf8.units_of_scalar.
    destruct (Z.leb_spec c 0xFFFF); [done | lia].
  - rewrite scalar_values_cons. rewrite well_formed_cons in Hwf.
    destruct (Utf8.is_high_surrogate c) eqn:Hh.
    + apply andb_true_iff in Hwf as [Hl Hwf]. rewrite Hl.
      cbn [List.map concat]. rewrite IHr by done.
      unfold Utf8.units_of_scalar. surrogates.
      rewrite Z.shiftl_mul_pow2, Z.shiftr_div_pow2, land_1023 by lia. pow_norm.
      destruct (Z.leb_spec (65536 + (c - 55296) * 1024 + (d - 56320)) 65535); [lia |].
      simpl. do 2 f_equal; [euclid | f_equal; euclid].
    + apply andb_true_iff in Hwf as [Hl Hwf]. apply negb_true_iff in Hl. rewrite Hl.
      cbn [List.map concat]. rewrite IHd by (try constructor; done).
      unfold Utf8.units_of_scalar. destruct (Z.leb_spec c 0xFFFF); [done | lia].
Qed.

Lemma strip_bom_scalar_values s :
  Forall Js.code_unit s -> (forall r, s <> 0xFEFF :: r) ->
  Utf8.strip_bom (Utf8.scalar_values s) = Utf8.scalar_values s.
Proof.
  unfold Js.code_unit. intros H Hbom.
  destruct s as [| c r]; [done |]. forall_inv.
  assert (c <> 0xFEFF) by (intros ->; by apply (Hbom r)).
  cbn [Utf8.scalar_values].
  destruct (Utf8.is_high_surrogate c) eqn:Hh.
  - destruct r as [| d r]; [done |]. forall_inv.
    destruct (Utf8.is_low_surrogate d) eqn:Hl; [| done].
    unfold Utf8.strip_bom. surrogates. rewrite Z.shiftl_mul_pow2 by lia.
    by destruct (Z.eqb_spec (65536 + (c - 55296) * 2 ^ 10 + (d - 56320)) 65279); [lia |].
  - destruct (Utf8.is_low_surrogate c); [done |].
    unfold Utf8.strip_bom. by destruct (Z.eqb_spec c 65279).
Qed.

(** What [TextDecoder] makes of what [TextEncoder] wrote. *)
Lemma utf8_decode_encode_scalars s :
  Forall Js.code_unit s ->
  Utf8.decode (Utf8.encode s)
  = concat (List.map Utf8.units_of_scalar (Utf8.strip_bom (Utf8.scalar_values s))).
Proof.
  intros H. unfold Utf8.decode, Utf8.encode.
  by rewrite run_encode by by apply scalar_values_scalar.
Qed.

Lemma utf8_decode_encode s :
  Forall Js.code_unit s -> Utf8.well_formed s = true -> (forall r, s <> 0xFEFF :: r) ->
  Utf8.decode (Utf8.encode s) = s.
Proof.
  intros H Hwf Hbom.
  by rewrite utf8_decode_encode_scalars, strip_bom_scalar_values, units_scalar_values.
Qed.

(** ** AES-GCM *)
Lemma xor_bytes_length data ks : length (xor_bytes data ks) = length data.
Proof. revert ks. induction data as [| d data IH]; intros ks; simpl; [done |]. by rewrite IH. Qed.

Lemma xor_bytes_involutive data ks : xor_bytes (xor_bytes data ks) ks = data.
Proof.
  revert ks. induction data as [| d data IH]; intros ks; simpl; [done |].
  rewrite IH. f_equal.
  by rewrite Z.lxor_assoc, Z.lxor_nilpotent, Z.lxor_0_r.
Qed.

Lemma lxor_byte a b : byte a -> byte b -> byte (Z.lxor a b).
Proof.
  unfold byte. intros Ha Hb.
  assert (Z.lxor a b = Z.lxor a b mod 2 ^ 8) as ->; [| apply Z.mod_pos_bound; lia].
  apply Z.bits_inj'. intros i Hi.
  destruct (Z.lt_ge_cases i 8).
  - by rewrite Z.mod_pow2_bits_low.
  - rewrite Z.mod_pow2_bits_high, Z.lxor_spec by lia.
    rewrite <- (Z.mod_small a (2 ^ 8)), <- (Z.mod_small b (2 ^ 8)) by lia.
    by rewrite !Z.mod_pow2_bits_high by lia.
Qed.

Lemma xor_bytes_bytes data ks :
  Forall byte data -> Forall byte ks -> Forall byte (xor_bytes data ks).
Proof.
  intros Hd. revert ks. induction Hd as [| d data Hd _ IH]; intros ks Hks; simpl.
  - constructor.
  - constructor.
    + apply lxor_byte; [done |]. destruct Hks; simpl; [unfold byte; lia | done].
    + apply IH. destruct Hks; simpl; [constructor | done].
Qed.

Lemma bytes_of_be_bytes n z : Forall byte (bytes_of_be n z).
Proof.
  unfold bytes_of_be. apply Forall_forall. intros b Hb.
  apply list_elem_of_In, in_map_iff in Hb as (i & <- & _).
  unfold byte. rewrite land_255. apply Z.mod_pos_bound. lia.
Qed.

Lemma of_block_length z : length (Gcm.of_block z) = 16%nat.
Proof. reflexivity. Qed.

Lemma keystream_bytes n rks cb : Forall byte (Gcm.keystream n rks cb).
Proof.
  revert cb. induction n as [| n IH]; intros cb; cbn [Gcm.keystream]; [constructor |].
  apply Forall_app. split; [apply bytes_of_be_bytes | apply IH].
Qed.

Lemma gctr_length rks icb data : length (Gcm.gctr rks icb data) = length data.
Proof. apply xor_bytes_length. Qed.

Lemma gctr_involutive rks icb data : Gcm.gctr rks icb (Gcm.gctr rks icb data) = data.
Proof.
  unfold Gcm.gctr at 1. unfold Gcm.nblocks. rewrite gctr_length.
  apply xor_bytes_involutive.
Qed.

Lemma gctr_bytes rks icb data : Forall byte data -> Forall byte (Gcm.gctr rks icb data).
Proof. intros H. apply xor_bytes_bytes; [done | apply keystream_bytes]. Qed.

Lemma tag_length rks iv c : length (Gcm.tag rks iv c) = 16%nat.
Proof. unfold Gcm.tag. by rewrite gctr_length. Qed.

Lemma tag_bytes rks iv c : Forall byte (Gcm.tag rks iv c).
Proof. apply gctr_bytes, bytes_of_be_bytes. Qed.

Lemma bytes_eqb_refl a : bytes_eqb a a = true.
Proof. induction a as [| x a IH]; simpl; [done |]. by rewrite Z.eqb_refl, IH. Qed.


(** Authenticated decryption undoes authenticated encryption. *)
Lemma gcm_decrypt_encrypt key iv plain :
  Gcm.decrypt key iv (Gcm.encrypt key iv plain) = Some plain.
Proof.
  unfold Gcm.decrypt, Gcm.encrypt.
  set (rks := Aes.key_expansion key).
  set (c := Gcm.gctr rks (Gcm.inc32 (Gcm.j0 rks iv)) plain).
  rewrite length_app, tag_length.
  destruct (Nat.ltb_spec (length c + 16) 16); [lia |].
  replace (length c + 16 - 16)%nat with (length c) by lia.
  rewrite firstn_app, Nat.sub_diag, firstn_all, firstn_0, app_nil_r.
  rewrite skipn_app, Nat.sub_diag, skipn_all, skipn_0.
  rewrite (app_nil_l (Gcm.tag rks iv c)), bytes_eqb_refl.
  unfold c. rewrite gctr_involutive. reflexivity.
Qed.

Lemma gcm_encrypt_bytes key iv plain :
  Forall byte plain -> Forall byte (Gcm.encrypt key iv plain).
Proof.
  intros H. unfold Gcm.encrypt. apply Forall_app. split.
  - by apply gctr_bytes.
  - apply tag_bytes.
Qed.

Lemma gcm_encrypt_length key iv plain :
  length (Gcm.encrypt key iv plain) = (length plain + 16)%nat.
Proof. unfold Gcm.encrypt. by rewrite length_app, tag_length, gctr_length. Qed.




(** ** AES: the inverse cipher undoes the cipher *)

Lemma byte_in_all x : byte x -> In x all_bytes.
Proof.
  unfold byte, all_bytes. intros H. apply in_map_iff.
  exists (Z.to_nat x). split; [lia |]. apply in_seq. lia.
Qed.

Lemma forall_bytes (P : Z -> bool) :
  forallb P all_bytes = true -> forall x, byte x -> P x = true.
Proof. intros H x Hx. by apply (proj1 (forallb_forall P all_bytes) H), byte_in_all. Qed.

Lemma forall_bytes2 (P : Z -> Z -> bool) :
  forallb (fun x => forallb (P x) all_bytes) all_bytes = true ->
  forall x y, byte x -> byte y -> P x y = true.
Proof.
  intros H x y Hx Hy.
  apply (forall_bytes (P x)); [| done].
  by apply (forall_bytes (fun x => forallb (P x) all_bytes)).
Qed.




































(** ** The round keys are bytes *)







(** ** Big-endian integers and their bytes *)










Section Nonce.

Local Opaque Aes.encrypt_block Aes.decrypt_block Aes.key_expansion Gcm.ghash.


End Nonce.


(** ** [atob] yields bytes *)




(** ** [ledgerCrypto.ts]: the wire format *)

Lemma str_eqb_eq a b : Js.str_eqb a b = true <-> a = b.
Proof.
  split.
  - revert b. induction a as [| x a IH]; intros [| y b]; simpl; try done.
    intros [Hx Hab]%andb_true_iff. apply Z.eqb_eq in Hx as ->. by rewrite (IH b).
  - intros ->. induction b as [| y b IH]; simpl; [done |]. by rewrite Z.eqb_refl.
Qed.

Lemma split_no_sep sep s : Forall (fun c => c <> sep) s -> Js.split sep s = [s].
Proof.
  induction 1 as [| c s Hc _ IH]; simpl; [done |].
  destruct (Z.eqb_spec c sep); [done |]. by rewrite IH.
Qed.

Lemma split_app sep a b :
  Forall (fun c => c <> sep) a -> Js.split sep (a ++ sep :: b) = a :: Js.split sep b.
Proof.
  induction 1 as [| c s Hc _ IH]; simpl.
  - by rewrite Z.eqb_refl.
  - destruct (Z.eqb_spec c sep); [done |]. by rewrite IH.
Qed.

Lemma encode_no_colon bs : Forall byte bs -> Forall (fun c => c <> 58) (Base64.encode bs).
Proof.
  intros H. eapply Forall_impl; [by apply encode_chars |].
  unfold Base64.written. intros c Hc. simpl in Hc. lia.
Qed.

Lemma encode_nonempty bs : bs <> [] -> Js.truthy (Some (Base64.encode bs)) = true.
Proof. destruct bs as [| a [| b [| c r]]]; done. Qed.

Lemma nonce_bytes rng : Forall byte (LedgerCrypto.nonce rng).
Proof.
  unfold LedgerCrypto.nonce. apply Forall_forall. intros b Hb.
  apply list_elem_of_In, in_map_iff in Hb as (i & <- & _).
  unfold byte. apply Z.mod_pos_bound. lia.
Qed.


Section Cipher.

Import LedgerCrypto.

Local Opaque Sha256.digest Gcm.encrypt Gcm.decrypt Utf8.encode Utf8.decode Base64.atob
  Base64.encode hexToBytes.

Lemma derive_ok K :
  ADDRESS_RE K = true ->
  deriveAesKeyFromAddress K
  = ([Digest (hexToBytes K); ImportKey (aes_key K)], inr (aes_key K)).
Proof.
  intros H. unfold deriveAesKeyFromAddress, assertAddress. rewrite H. reflexivity.
Qed.

Lemma derive_bad K :
  ADDRESS_RE K = false ->
  deriveAesKeyFromAddress K = ([], inl (InvalidAddressKey K)).
Proof.
  intros H. unfold deriveAesKeyFromAddress, assertAddress. rewrite H. reflexivity.
Qed.

(** [encryptWithAddressKey] under a well-formed key: its calls and its wire
    string. *)
Lemma encrypt_ok rng m K :
  ADDRESS_RE K = true ->
  encryptWithAddressKey rng m K
  = ([Digest (hexToBytes K); ImportKey (aes_key K); GetRandomValues 12;
      Encrypt (aes_key K) (nonce rng) (Utf8.encode m)],
     inr (Js.lit "sl1:" ++ bytesToBase64 (nonce rng) ++ Js.lit ":"
          ++ bytesToBase64 (Gcm.encrypt (aes_key K) (nonce rng) (Utf8.encode m)))).
Proof.
  intros H. unfold encryptWithAddressKey. rewrite derive_ok by done. reflexivity.
Qed.

(** [decryptWithAddressKey] in terms of the segments of the payload. *)
Lemma decrypt_segments payload K :
  decryptWithAddressKey payload K
  = match segments payload with
    | None => ([], inl UnsupportedCiphertextFormat)
    | Some (ivB64, cipherB64) =>
        bind (deriveAesKeyFromAddress K) (fun key =>
        bind (base64ToBytes ivB64) (fun iv =>
        bind (base64ToBytes cipherB64) (fun cipherBytes =>
        bind (subtle_decrypt iv key cipherBytes) (fun plainBuffer =>
        ret (Utf8.decode plainBuffer)))))
    end.
Proof.
  unfold decryptWithAddressKey, segments.
  destruct (negb _ || negb _ || negb _); reflexivity.
Qed.

(** [decryptWithAddressKey] in terms of the bytes the payload carries. *)
Lemma decrypt_wire_bytes payload K iv cipherBytes :
  wire_bytes payload = Some (iv, cipherBytes) ->
  ADDRESS_RE K = true ->
  decryptWithAddressKey payload K
  = ([Digest (hexToBytes K); ImportKey (aes_key K); Decrypt (aes_key K) iv cipherBytes],
     match Gcm.decrypt (aes_key K) iv cipherBytes with
     | Some p => inr (Utf8.decode p)
     | None => inl OperationError
     end).
Proof.
  intros Hw HK. rewrite decrypt_segments. unfold wire_bytes in Hw.
  destruct (segments payload) as [[ivB64 cipherB64] |]; [| done].
  rewrite derive_ok by done. unfold base64ToBytes, bind.
  destruct (Base64.atob ivB64) as [iv' |]; [| done].
  destruct (Base64.atob cipherB64) as [c' |]; [| done].
  injection Hw as -> ->. unfold ret, subtle_decrypt.
  destruct (Gcm.decrypt (aes_key K) iv cipherBytes); reflexivity.
Qed.

(** The bytes carried by the wire string of [encryptWithAddressKey]. *)
Lemma wire_bytes_encrypt iv c :
  Forall byte iv -> Forall byte c -> iv <> [] -> c <> [] ->
  wire_bytes (Js.lit "sl1:" ++ bytesToBase64 iv ++ Js.lit ":" ++ bytesToBase64 c)
  = Some (iv, c).
Proof.
  intros Hiv Hc Hiv0 Hc0. unfold wire_bytes, segments.
  rewrite !bytesToBase64_encode by done.
  change (Js.lit "sl1:" ++ Base64.encode iv ++ Js.lit ":" ++ Base64.encode c)
    with (Js.lit "sl1" ++ 58 :: (Base64.encode iv ++ 58 :: Base64.encode c)).
  rewrite (split_app 58 (Js.lit "sl1")) by (repeat (constructor; [done |]); constructor).
  rewrite (split_app 58 (Base64.encode iv)) by by apply encode_no_colon.
  rewrite split_no_sep by by apply encode_no_colon.
  cbn [nth_error is_sl1 default]. 
  rewrite (proj2 (str_eqb_eq _ _) eq_refl).
  rewrite !encode_nonempty by done. cbn [negb orb]. unfold id.
  by rewrite !atob_encode.
Qed.

End Cipher.

Section CipherClaims.

Import LedgerCrypto.

Local Opaque Sha256.digest Gcm.encrypt Gcm.decrypt Utf8.encode Utf8.decode Base64.atob
  Base64.encode hexToBytes.

Lemma ADDRESS_RE_shape s : ADDRESS_RE s = true <-> address_shape s.
Proof.
  unfold ADDRESS_RE, address_shape. split.
  - intros [[Hp Hl]%andb_true_iff Hd]%andb_true_iff.
    change (Js.lit "0x") with [48; 120] in *.
    destruct s as [| c0 [| c1 r]]; cbn [Js.startsWith skipn] in *;
      rewrite ?drop_0 in *; try done; try (by rewrite andb_false_r in Hp).
    apply andb_true_iff in Hp as [H0 H1]. apply andb_true_iff in H1 as [H1 _].
    apply Z.eqb_eq in H0 as <-, H1 as <-.
    exists r. split; [done |]. split; [by apply Nat.eqb_eq |].
    apply Forall_forall. intros c Hc.
    apply (proj1 (forallb_forall _ _) Hd). by apply list_elem_of_In.
  - intros (digits & -> & Hl & Hd).
    change (Js.lit "0x" ++ digits) with (48 :: 120 :: digits).
    change (Js.lit "0x") with [48; 120]. cbn [Js.startsWith skipn].
    rewrite !drop_0, !Z.eqb_refl, Hl. cbn [andb Nat.eqb].
    apply forallb_forall. intros c Hc.
    by apply (proj1 (Forall_forall _ _) Hd), list_elem_of_In.
Qed.

Lemma gcm_encrypt_nonempty key iv plain : Gcm.encrypt key iv plain <> [].
Proof.
  intros H. pose proof (gcm_encrypt_length key iv plain) as Hl.
  rewrite H in Hl. simpl in Hl. lia.
Qed.

Lemma nonce_nonempty rng : nonce rng <> [].
Proof. done. Qed.

(** Decrypting the wire string of a plaintext returns the plaintext as
    [TextDecoder] reads what [TextEncoder] wrote. *)
Lemma decrypt_encrypt rng m K w :
  address_shape K -> Forall Js.code_unit m ->
  outcome (encryptWithAddressKey rng m K) = inr w ->
  wire_bytes w = Some (nonce rng, Gcm.encrypt (aes_key K) (nonce rng) (Utf8.encode m))
  /\ outcome (decryptWithAddressKey w K) = inr (Utf8.decode (Utf8.encode m)).
Proof.
  intros HK%ADDRESS_RE_shape Hm. rewrite encrypt_ok by done.
  unfold outcome at 1. cbn [snd]. intros Hwire.
  assert (w = Js.lit "sl1:" ++ bytesToBase64 (nonce rng) ++ Js.lit ":"
              ++ bytesToBase64 (Gcm.encrypt (aes_key K) (nonce rng) (Utf8.encode m))) as ->
    by (injection Hwire; intros <-; reflexivity).
  clear Hwire.
  assert (Hw : wire_bytes
                 (Js.lit "sl1:" ++ bytesToBase64 (nonce rng) ++ Js.lit ":"
                  ++ bytesToBase64 (Gcm.encrypt (aes_key K) (nonce rng) (Utf8.encode m)))
               = Some (nonce rng, Gcm.encrypt (aes_key K) (nonce rng) (Utf8.encode m))).
  { apply wire_bytes_encrypt.
    - apply nonce_bytes.
    - by apply gcm_encrypt_bytes, encode_bytes.
    - apply nonce_nonempty.
    - apply gcm_encrypt_nonempty. }
  split; [done |].
  rewrite (decrypt_wire_bytes _ _ _ _ Hw HK). unfold outcome. cbn [snd].
  by rewrite gcm_decrypt_encrypt.
Qed.

Lemma encrypt_succeeds rng m K :
  address_shape K -> exists w, outcome (encryptWithAddressKey rng m K) = inr w.
Proof. intros HK%ADDRESS_RE_shape. rewrite encrypt_ok by done. by eexists. Qed.

(** C1, as the code has it. Under a well-formed key, encryption succeeds and
    decrypting its wire string under the same key returns the plaintext,
    for every plaintext that is a well-formed UTF-16 string (no lone
    surrogate) and does not start with U+FEFF. *)
Theorem round_trip (rng : nat -> Z) (m K : Js.jsstring) :
  address_shape K ->
  Forall Js.code_unit m ->
  Utf8.well_formed m = true ->
  (forall r, m <> 0xFEFF :: r) ->
  exists w,
    outcome (encryptWithAddressKey rng m K) = inr w
    /\ outcome (decryptWithAddressKey w K) = inr m.
Proof.
  intros HK Hm Hwf Hbom.
  destruct (encrypt_succeeds rng m K HK) as [w Hw]. exists w. split; [done |].
  destruct (decrypt_encrypt rng m K w HK Hm Hw) as [_ ->].
  by rewrite utf8_decode_encode.
Qed.

End CipherClaims.

Section FormatClaims.

Import LedgerCrypto.

Local Opaque Sha256.digest Gcm.encrypt Gcm.decrypt Utf8.encode Utf8.decode Base64.atob
  Base64.encode hexToBytes.

Lemma truthy_false (v : option Js.jsstring) :
  Js.truthy v = false <-> v = None \/ v = Some [].
Proof.
  destruct v as [[| c s] |]; simpl; split; try done; auto.
  - intros [? | ?]; done.
Qed.

Lemma is_sl1_true (v : option Js.jsstring) : is_sl1 v = true <-> v = Some (Js.lit "sl1").
Proof.
  destruct v as [p |]; simpl; [| done].
  rewrite str_eqb_eq. split; [by intros -> | by intros [= ->]].
Qed.

Lemma segments_None payload :
  segments payload = None <->
  let parts := Js.split 58 payload in
  nth_error parts 0 <> Some (Js.lit "sl1")
  \/ (nth_error parts 1 = None \/ nth_error parts 1 = Some [])
  \/ (nth_error parts 2 = None \/ nth_error parts 2 = Some []).
Proof.
  unfold segments. cbv zeta.
  rewrite <- !truthy_false, <- is_sl1_true.
  destruct (is_sl1 _), (Js.truthy (nth_error _ 1)), (Js.truthy (nth_error _ 2));
    simpl; intuition congruence.
Qed.

(** C6. A payload whose first segment is not [sl1], or whose nonce segment
    or ciphertext segment is missing or empty, is rejected with 'Unsupported
    ciphertext format' and no call on [crypto] is made. *)
Theorem unsupported_format (payload K : Js.jsstring) :
  let parts := Js.split 58 payload in
  nth_error parts 0 <> Some (Js.lit "sl1")
  \/ (nth_error parts 1 = None \/ nth_error parts 1 = Some [])
  \/ (nth_error parts 2 = None \/ nth_error parts 2 = Some []) ->
  decryptWithAddressKey payload K = ([], inl UnsupportedCiphertextFormat)
  /\ calls (decryptWithAddressKey payload K) = [].
Proof.
  intros parts H. apply segments_None in H.
  rewrite decrypt_segments, H. done.
Qed.

(** Conversely a payload that is rejected as unsupported fails that check:
    only the version tag [sl1] is accepted. *)
Lemma rejected_as_unsupported (payload K : Js.jsstring) :
  outcome (decryptWithAddressKey payload K) = inl UnsupportedCiphertextFormat ->
  segments payload = None.
Proof.
  rewrite decrypt_segments.
  destruct (segments payload) as [[ivB64 cipherB64] |]; [| done].
  unfold deriveAesKeyFromAddress, assertAddress, base64ToBytes, subtle_decrypt.
  destruct (negb (ADDRESS_RE K)); [done |].
  destruct (Base64.atob ivB64); [| done].
  destruct (Base64.atob cipherB64) as [c |]; [| done].
  unfold outcome, bind, ret, throw, subtle_digest, subtle_importKey. cbn [snd].
  match goal with |- context [Gcm.decrypt ?k ?i ?d] => destruct (Gcm.decrypt k i d) end;
    done.
Qed.

(** C10, as the code has it. Under a key that is not [0x] and forty
    hexadecimal digits, [encryptWithAddressKey] rejects with 'Invalid address
    key' and [decryptWithAddressKey] rejects too, in both cases before any call
    on [crypto]: with 'Invalid address key' when the payload passes the
    format check, with 'Unsupported ciphertext format' when it does not. *)
Theorem malformed_key (K : Js.jsstring) :
  ~ address_shape K ->
  (forall rng m, encryptWithAddressKey rng m K = ([], inl (InvalidAddressKey K)))
  /\ (forall payload,
        decryptWithAddressKey payload K
        = ([], inl (match segments payload with
                    | Some _ => InvalidAddressKey K
                    | None => UnsupportedCiphertextFormat
                    end))).
Proof.
  intros HK.
  assert (HRE : ADDRESS_RE K = false).
  { destruct (ADDRESS_RE K) eqn:H; [| done]. by apply ADDRESS_RE_shape in H. }
  split.
  - intros rng m. unfold encryptWithAddressKey. by rewrite derive_bad.
  - intros payload. rewrite decrypt_segments.
    destruct (segments payload) as [[ivB64 cipherB64] |]; [| done].
    by rewrite derive_bad.
Qed.

End FormatClaims.

Lemma zero_key_shape : LedgerCrypto.address_shape zero_key.
Proof.
  exists (repeat 48 40). split; [reflexivity | split; [reflexivity |]].
  repeat constructor.
Defined.

Lemma hello_units : Forall Js.code_unit (Js.lit "hello").
Proof. repeat constructor; unfold Js.code_unit; simpl; lia. Defined.

Lemma round_trip_witness :
  exists w,
    LedgerCrypto.outcome (LedgerCrypto.encryptWithAddressKey zero_rng (Js.lit "hello") zero_key)
    = inr w
    /\ LedgerCrypto.outcome (LedgerCrypto.decryptWithAddressKey w zero_key)
       = inr (Js.lit "hello").
Proof.
  apply round_trip.
  - exact zero_key_shape.
  - exact hello_units.
  - reflexivity.
  - intros r H. discriminate H.
Defined.

(** The claim C1 as stated fails on a plaintext that starts with U+FEFF,
    which the decoder drops, and on a lone surrogate, which the encoder
    replaces by U+FFFD. *)
Lemma round_trip_counterexample :
  LedgerCrypto.address_shape zero_key
  /\ (exists w,
        LedgerCrypto.outcome
          (LedgerCrypto.encryptWithAddressKey zero_rng [0xFEFF; 104; 105] zero_key) = inr w
        /\ LedgerCrypto.outcome (LedgerCrypto.decryptWithAddressKey w zero_key)
           = inr [104; 105])
  /\ (exists w,
        LedgerCrypto.outcome
          (LedgerCrypto.encryptWithAddressKey zero_rng [0xD83D] zero_key) = inr w
        /\ LedgerCrypto.outcome (LedgerCrypto.decryptWithAddressKey w zero_key)
           = inr [0xFFFD]).
Proof.
  split; [exact zero_key_shape |].
  split; eexists; (split; [vm_compute; reflexivity | vm_compute; reflexivity]).
Qed.

Lemma unsupported_format_witness :
  LedgerCrypto.decryptWithAddressKey (Js.lit "sl2:AAAA:BBBB") zero_key
  = ([], inl LedgerCrypto.UnsupportedCiphertextFormat).
Proof.
  apply (unsupported_format (Js.lit "sl2:AAAA:BBBB") zero_key).
  left. discriminate.
Defined.

(** The claim C10 as stated fails for [decryptWithAddressKey] on a payload
    that does not pass the format check: the error is the format error. *)
Lemma malformed_key_counterexample :
  ~ LedgerCrypto.address_shape (Js.lit "nokey")
  /\ LedgerCrypto.decryptWithAddressKey (Js.lit "garbage") (Js.lit "nokey")
     = ([], inl LedgerCrypto.UnsupportedCiphertextFormat)
  /\ forall a, LedgerCrypto.outcome
                 (LedgerCrypto.decryptWithAddressKey (Js.lit "garbage") (Js.lit "nokey"))
               <> inl (LedgerCrypto.InvalidAddressKey a).
Proof.
  split; [| split].
  - intros H%ADDRESS_RE_shape. discriminate H.
  - reflexivity.
  - intros a. discriminate.
Qed.

Lemma malformed_key_witness :
  LedgerCrypto.encryptWithAddressKey zero_rng (Js.lit "hello") (Js.lit "nokey")
  = ([], inl (LedgerCrypto.InvalidAddressKey (Js.lit "nokey"))).
Proof.
  apply (malformed_key (Js.lit "nokey")).
  intros H%ADDRESS_RE_shape. discriminate H.
Defined.

Section TamperClaims.

Import LedgerCrypto.

Local Opaque Sha256.digest Gcm.encrypt Gcm.decrypt Utf8.encode Utf8.decode Base64.atob
  Base64.encode hexToBytes.







Lemma truthy_nonempty (s : Js.jsstring) : s <> [] -> Js.truthy (Some s) = true.
Proof. by destruct s. Qed.

(** The segments of a string of the wire format. *)
Lemma segments_wire (a b : Js.jsstring) :
  Forall (fun c => c <> 58) a -> Forall (fun c => c <> 58) b -> a <> [] -> b <> [] ->
  segments (Js.lit "sl1:" ++ a ++ Js.lit ":" ++ b) = Some (a, b).
Proof.
  intros Ha Hb Ha0 Hb0. unfold segments.
  change (Js.lit "sl1:" ++ a ++ Js.lit ":" ++ b) with (Js.lit "sl1" ++ 58 :: (a ++ 58 :: b)).
  rewrite (split_app 58 (Js.lit "sl1")) by (repeat (constructor; [done |]); constructor).
  rewrite (split_app 58 a) by done.
  rewrite split_no_sep by done.
  cbn [nth_error is_sl1 default].
  rewrite (proj2 (str_eqb_eq _ _) eq_refl).
  by rewrite !truthy_nonempty.
Qed.




End TamperClaims.

Section TamperTheorem.

Import LedgerCrypto.


End TamperTheorem.


(** A changed nonce: [A] into [B] in the first character of the nonce
    segment gives another 12-byte nonce, and the tag no longer verifies. *)
Example changed_nonce_rejected :
  LedgerCrypto.outcome
    (LedgerCrypto.decryptWithAddressKey
       (Js.lit "sl1:BAAAAAAAAAAAAAAA:6tN8t5RBM56Qv0uxIlYOiQ==") zero_key)
  = inl LedgerCrypto.OperationError.
Proof. vm_compute. reflexivity. Qed.

(** ** The ledger contract *)
Section ContractFacts.

Variable this : SilentLedger.address.
Variable fromExternal :
  SilentLedger.externalEaddress -> bytes -> SilentLedger.address -> option SilentLedger.eaddress.

Import SilentLedger.

Local Abbreviation createLedger := (SilentLedger.createLedger this fromExternal).
Local Abbreviation rotateLedgerKey := (SilentLedger.rotateLedgerKey this fromExternal).
Local Abbreviation invoke := (SilentLedger.invoke this fromExternal).
Local Abbreviation execute := (SilentLedger.execute this fromExternal).
Local Abbreviation succeeds := (SilentLedger.succeeds this fromExternal).
Local Abbreviation run := (SilentLedger.run this fromExternal).
Local Abbreviation stored_by := (SilentLedger.stored_by this fromExternal).

Lemma pouch_genesis owner : pouch genesis owner = [].
Proof. reflexivity. Qed.

Lemma has_genesis owner : has genesis owner = false.
Proof. reflexivity. Qed.

Lemma has_insert (m : gmap address bool) (o o' : address) b :
  default false (<[o := b]> m !! o') = if decide (o = o') then b else default false (m !! o').
Proof. rewrite lookup_insert. by case_decide. Qed.

(** What one transaction does to the pouch of [owner]: nothing, unless it is
    a successful [storeEntry] of that owner, which appends one entry. *)
Lemma pouch_execute t s owner :
  pouch (execute t s) owner = pouch s owner ++ stored_by owner [t] s.
Proof.
  unfold SilentLedger.execute, SilentLedger.succeeds; simpl.
  unfold SilentLedger.succeeds.
  destruct t as [e c]; destruct c as [k p | k p | c]; simpl.
  - rewrite app_nil_r. unfold SilentLedger.invoke, SilentLedger.createLedger; simpl.
    destruct (has s (msg_sender e)); [done |].
    by destruct (fromExternal k p (msg_sender e)).
  - rewrite app_nil_r. unfold SilentLedger.invoke, SilentLedger.rotateLedgerKey; simpl.
    destruct (has s (msg_sender e)); [| done].
    by destruct (fromExternal k p (msg_sender e)).
  - unfold SilentLedger.invoke, SilentLedger.storeEntry; simpl.
    destruct (has s (msg_sender e)); simpl; [| by rewrite ?app_nil_r].
    unfold pouch at 1; simpl. rewrite lookup_insert.
    destruct (Z.eqb_spec (msg_sender e) owner) as [-> | Hne].
    + by rewrite decide_True.
    + rewrite decide_False by done. simpl. by rewrite app_nil_r.
Qed.

Lemma pouch_run txs : forall s owner,
  pouch (run txs s) owner = pouch s owner ++ stored_by owner txs s.
Proof.
  induction txs as [| t txs IH]; intros s owner.
  - simpl. by rewrite app_nil_r.
  - change (run (t :: txs) s) with (run txs (execute t s)).
    rewrite IH, pouch_execute. simpl. by rewrite !app_nil_r, <- app_assoc.
Qed.

(** A ledger, once created, stays. *)
Lemma has_execute t s owner : has s owner = true -> has (execute t s) owner = true.
Proof.
  intros H. unfold SilentLedger.execute, SilentLedger.invoke.
  destruct t as [e c]; destruct c as [k p | k p | c]; simpl.
  - unfold SilentLedger.createLedger.
    destruct (has s (msg_sender e)) eqn:Hs; [done |].
    destruct (fromExternal k p (msg_sender e)); [| done].
    unfold has; simpl. rewrite has_insert. by case_decide.
  - unfold SilentLedger.rotateLedgerKey.
    destruct (has s (msg_sender e)); [| done].
    by destruct (fromExternal k p (msg_sender e)).
  - unfold SilentLedger.storeEntry.
    by destruct (has s (msg_sender e)).
Qed.

Lemma has_run txs : forall s owner, has s owner = true -> has (run txs s) owner = true.
Proof.
  induction txs as [| t txs IH]; intros s owner H; [done |].
  change (run (t :: txs) s) with (run txs (execute t s)).
  by apply IH, has_execute.
Qed.

Lemma getEntry_lookup s owner (i : nat) entry :
  nth_error (pouch s owner) i = Some entry ->
  getEntry s owner (Z.of_nat i) = inr (createdAt entry, ciphertext entry).
Proof.
  intros H. unfold getEntry.
  assert (i < length (pouch s owner))%nat by (apply nth_error_Some; congruence).
  destruct (Z.geb_spec (Z.of_nat i) (Z.of_nat (length (pouch s owner)))); [lia |].
  by rewrite Nat2Z.id, H.
Qed.

Lemma getEntry_all s owner :
  List.map (fun i => getEntry s owner (Z.of_nat i)) (seq 0 (length (pouch s owner)))
  = List.map (fun entry => inr (createdAt entry, ciphertext entry)) (pouch s owner).
Proof.
  apply nth_error_ext; intros i.
  rewrite !nth_error_map.
  destruct (nth_error (pouch s owner) i) as [entry |] eqn:Hi; simpl.
  - assert (i < length (pouch s owner))%nat by (apply nth_error_Some; congruence).
    rewrite nth_error_seq. destruct (Nat.ltb_spec i (length (pouch s owner))); [| lia].
    simpl. f_equal. by apply getEntry_lookup.
  - apply nth_error_None in Hi.
    rewrite nth_error_seq. destruct (Nat.ltb_spec i (length (pouch s owner))); [lia | done].
Qed.

(** C2. In the storage reached from the empty contract by any sequence of
    transactions, the entry count of an owner is the number [n] of that owner's
    successful [storeEntry] calls, reading the indices below [n] gives those
    entries in call order, each with the timestamp of its block, and reading
    index [n] reverts with [EntryIndexOutOfBounds]. *)
Theorem append_monotonicity (txs : list tx) (owner : address) :
  let s := run txs genesis in
  let stored := stored_by owner txs genesis in
  let n := length stored in
  getEntryCount s owner = Z.of_nat n
  /\ List.map (fun i => getEntry s owner (Z.of_nat i)) (seq 0 n)
     = List.map (fun entry => inr (createdAt entry, ciphertext entry)) stored
  /\ getEntry s owner (Z.of_nat n) = inl (EntryIndexOutOfBounds owner (Z.of_nat n)).
Proof.
  intros s stored n.
  assert (Hp : pouch s owner = stored).
  { unfold s. by rewrite pouch_run, pouch_genesis. }
  split; [| split].
  - unfold getEntryCount. by rewrite Hp.
  - unfold n. rewrite <- Hp. apply getEntry_all.
  - unfold getEntry. rewrite Hp. fold n.
    by destruct (Z.geb_spec (Z.of_nat n) (Z.of_nat n)); [| lia].
Qed.

(** C3. Once [createLedger] has succeeded for an owner, every later
    [createLedger] of that owner, whatever happened in between, reverts with
    [LedgerAlreadyExists] and leaves the storage as it was; called right after
    the first, it leaves the storage of the first call. *)
Theorem createLedger_again (e : env) k p s s' evs :
  createLedger e k p s = inr (s', evs) ->
  forall txs e' k' p',
    msg_sender e' = msg_sender e ->
    createLedger e' k' p' (run txs s') = inl (LedgerAlreadyExists (msg_sender e))
    /\ execute {| tx_env := e'; tx_call := CreateLedger k' p' |} (run txs s') = run txs s'
    /\ execute {| tx_env := e'; tx_call := CreateLedger k' p' |} s' = s'.
Proof.
  intros Hfirst txs e' k' p' Hsender.
  assert (Hhas : has s' (msg_sender e) = true).
  { unfold SilentLedger.createLedger in Hfirst.
    destruct (has s (msg_sender e)); [done |].
    destruct (fromExternal k p (msg_sender e)); [| done].
    injection Hfirst as <- _. unfold has; simpl.
    rewrite has_insert. by rewrite decide_True. }
  assert (Hagain : forall s2, has s2 (msg_sender e) = true ->
            createLedger e' k' p' s2 = inl (LedgerAlreadyExists (msg_sender e))).
  { intros s2 H2. unfold SilentLedger.createLedger. by rewrite Hsender, H2. }
  split; [| split].
  - by apply Hagain, has_run.
  - unfold SilentLedger.execute, SilentLedger.invoke; simpl.
    by rewrite Hagain by (by apply has_run).
  - unfold SilentLedger.execute, SilentLedger.invoke; simpl.
    by rewrite Hagain.
Qed.

(** C5. [rotateLedgerKey] reverts with [LedgerNotFound] for an owner without
    a ledger. For an owner with one, a valid input replaces the key handle of
    that owner and nothing else of the contract storage: every existence flag,
    every pouch and the key handles of the other owners are as before; an
    invalid input reverts. *)
Theorem rotateLedgerKey_frame (e : env) k p s :
  let owner := msg_sender e in
  (has s owner = false -> rotateLedgerKey e k p s = inl (LedgerNotFound owner))
  /\ (has s owner = true ->
      match fromExternal k p owner with
      | Some h =>
          exists s',
            rotateLedgerKey e k p s = inr (s', [LedgerKeyRotated owner])
            /\ key s' owner = h
            /\ has s' owner = true
            /\ _hasLedger s' = _hasLedger s
            /\ _pouch s' = _pouch s
            /\ (forall o, o <> owner -> key s' o = key s o)
      | None => rotateLedgerKey e k p s = inl InvalidInputProof
      end).
Proof.
  intros owner. unfold SilentLedger.rotateLedgerKey. fold owner. split; intros H; rewrite H; simpl.
  - done.
  - destruct (fromExternal k p owner) as [h |]; [| done].
    eexists; split; [done |]. unfold key, has; simpl.
    repeat split; try done.
    + by rewrite lookup_insert_eq.
    + intros o Ho. by rewrite lookup_insert_ne.
Qed.

End ContractFacts.

Lemma createLedger_again_witness :
  let accept := fun k (_ : bytes) (_ : SilentLedger.address) => Some k in
  let e := {| SilentLedger.msg_sender := 7; SilentLedger.block_timestamp := 100 |} in
  let s' := SilentLedger.execute 1 accept
              {| SilentLedger.tx_env := e; SilentLedger.tx_call := SilentLedger.CreateLedger 5 [] |}
              SilentLedger.genesis in
  SilentLedger.createLedger 1 accept e 6 [] s' = inl (SilentLedger.LedgerAlreadyExists 7).
Proof.
  intros accept e s'.
  refine (proj1 (createLedger_again 1 accept e 5 [] SilentLedger.genesis s' _ _ [] e 6 [] _));
    reflexivity.
Defined.

Lemma rotateLedgerKey_frame_witness :
  let accept := fun k (_ : bytes) (_ : SilentLedger.address) => Some k in
  let e := {| SilentLedger.msg_sender := 7; SilentLedger.block_timestamp := 100 |} in
  let s := SilentLedger.run 1 accept
             [ {| SilentLedger.tx_env := e; SilentLedger.tx_call := SilentLedger.CreateLedger 5 [] |};
               {| SilentLedger.tx_env := e;
                  SilentLedger.tx_call := SilentLedger.StoreEntry (Js.lit "ciphertext:one") |} ]
             SilentLedger.genesis in
  SilentLedger.rotateLedgerKey 1 accept e 6 [] SilentLedger.genesis
  = inl (SilentLedger.LedgerNotFound 7)
  /\ exists s',
       SilentLedger.rotateLedgerKey 1 accept e 6 [] s
       = inr (s', [SilentLedger.LedgerKeyRotated 7])
       /\ SilentLedger.key s' 7 = 6
       /\ SilentLedger._pouch s' = SilentLedger._pouch s.
Proof.
  intros accept e s. split.
  - apply (proj1 (rotateLedgerKey_frame 1 accept e 6 [] SilentLedger.genesis)).
    reflexivity.
  - destruct (proj2 (rotateLedgerKey_frame 1 accept e 6 [] s) eq_refl)
      as (s' & H1 & H2 & _ & _ & H3 & _).
    exists s'. split; [exact H1 | split; [exact H2 | exact H3]].
Defined.
(** ** [Promise.all] *)
Section PromiseFacts.
Context {E A : Type}.

Lemma filled_Some (vs : list A) : Promise.filled (List.map Some vs) = Some vs.
Proof. induction vs as [| v vs IH]; simpl; [done |]. by rewrite IH. Qed.

(** Settling fulfilled tasks writes their slots and nothing else. *)
Lemma settle_fulfilled (vs : list A) : forall order (values : list (option A)),
  length values = length vs ->
  exists values',
    Promise.settle (E := E) order (List.map inr vs) values = inr values'
    /\ length values' = length vs
    /\ forall k, (k < length vs)%nat ->
         values' !! k = if decide (k ∈ order) then Some (vs !! k) else values !! k.
Proof.
  induction order as [| j order IH]; intros values Hlen.
  - exists values. split; [done | split; [done |]]. intros k _.
    rewrite decide_False; [done | apply not_elem_of_nil].
  - simpl. rewrite list_lookup_fmap.
    destruct (vs !! j) as [v |] eqn:Hj; simpl.
    + destruct (IH (<[j := Some v]> values)) as (values' & Hs & Hl & Hk).
      { by rewrite length_insert. }
      exists values'. split; [done | split; [done |]].
      intros k Hlt. rewrite (Hk k Hlt).
      destruct (decide (k ∈ order)) as [Hin | Hnin].
      * rewrite decide_True; [done | by apply elem_of_cons; right].
      * destruct (decide (k = j)) as [-> | Hne].
        -- rewrite decide_True by (apply elem_of_cons; by left).
           rewrite list_lookup_insert_eq by lia. by rewrite Hj.
        -- rewrite decide_False by (rewrite elem_of_cons; tauto).
           by rewrite list_lookup_insert_ne.
    + destruct (IH values Hlen) as (values' & Hs & Hl & Hk).
      exists values'. split; [done | split; [done |]].
      intros k Hlt. rewrite (Hk k Hlt).
      apply lookup_ge_None in Hj.
      destruct (decide (k ∈ order)) as [Hin | Hnin].
      * rewrite decide_True; [done | by apply elem_of_cons; right].
      * rewrite decide_False; [done |]. rewrite elem_of_cons. intros [-> | ?]; [lia | done].
Qed.

(** When every task fulfils, [Promise.all] hands over the values in the
    order of the tasks, whatever the order in which they settled. *)
Lemma all_fulfilled (vs : list A) (order : list nat) :
  order ≡ₚ seq 0 (length vs) ->
  Promise.all (E := E) order (List.map inr vs) = Some (inr vs).
Proof.
  intros Hperm. unfold Promise.all. rewrite length_map.
  destruct (settle_fulfilled vs order (repeat None (length vs))) as (values' & Hs & Hl & Hk).
  { by rewrite repeat_length. }
  rewrite Hs.
  assert (values' = List.map Some vs) as ->.
  { apply list_eq. intros k. rewrite list_lookup_fmap.
    destruct (decide (k < length vs)%nat) as [Hlt | Hge].
    - rewrite (Hk k Hlt). rewrite decide_True.
      + destruct (vs !! k) eqn:Hv; [done |]. apply lookup_ge_None in Hv. lia.
      + rewrite Hperm. apply elem_of_seq. lia.
    - rewrite !(proj2 (lookup_ge_None _ _)); [done | lia | lia]. }
  by rewrite filled_Some.
Qed.

End PromiseFacts.

(** ** The client: decrypt-all, refresh and the unlock session *)
Section AppFacts.

Import LedgerApp.

Variable pf : platform.


Lemma decryptEntry_recorded key entry :
  let r := decryptEntry pf key entry in
  is_defined (plaintext r) || is_defined (decryptError r) = true.
Proof.
  unfold decryptEntry.
  destruct (is_defined (plaintext entry) || is_defined (decryptError entry)) eqn:H; [done |].
  by destruct (LedgerCrypto.outcome _).
Qed.



Section Refresh.
Context {E : Type}.
Variable text : E -> Js.jsstring.

Lemma indices_lookup count (i : nat) x :
  indices count !! i = Some x -> x = Z.max 0 (count - max) + Z.of_nat i.
Proof.
  unfold indices.
  change (List.map ?f ?l) with (f <$> l). rewrite list_lookup_fmap.
  destruct (seq 0 _ !! i) as [j |] eqn:Hj; simpl; [| done].
  apply lookup_seq in Hj as [-> _]. intros [= <-]. done.
Qed.

(** C8, as the code has it. After a [refresh] whose reads all answer, the
    entries held by the component carry exactly the fetched indices, in
    ascending order, whatever the order in which the reads settled; the
    rendered list is that list reversed, so an entry with a larger index is
    shown before one with a smaller index. *)
Theorem refresh_index_order (answer : Z -> Z * Js.jsstring) (encryptedKey count : Z)
    (order : list nat) (a : state) :
  order ≡ₚ seq 0 (length (indices count)) ->
  let a' := refresh text true encryptedKey count (fun i => inr (answer i)) order a in
  List.map index (entries a') = indices count
  /\ (forall i j x y, (i < j)%nat ->
        List.map index (entries a') !! i = Some x ->
        List.map index (entries a') !! j = Some y -> x < y)
  /\ List.map index (rendered a') = reverse (indices count)
  /\ (forall i j x y, (i < j)%nat ->
        List.map index (rendered a') !! i = Some x ->
        List.map index (rendered a') !! j = Some y -> y < x).
Proof.
  intros Hperm a'.
  set (mk := fun i : Z =>
    {| index := i; createdAt := fst (answer i); ciphertext := snd (answer i);
       plaintext := None; decryptError := None |}).
  assert (Hentries : entries a' = List.map mk (indices count)).
  { unfold a', refresh, fetchPouch; simpl.
    assert (Hmap : List.map (fetchEntry (E := E) (fun i => inr (answer i))) (indices count)
                   = List.map inr (List.map mk (indices count))).
    { rewrite map_map. apply map_ext. intros i. unfold fetchEntry, mk.
      destruct (answer i); reflexivity. }
    rewrite Hmap, all_fulfilled; [done |]. by rewrite length_map. }
  assert (Hidx : List.map index (entries a') = indices count).
  { rewrite Hentries, map_map. simpl. apply map_id. }
  assert (Hasc : forall i j x y, (i < j)%nat ->
            indices count !! i = Some x -> indices count !! j = Some y -> x < y).
  { intros i j x y Hlt Hx Hy.
    apply indices_lookup in Hx, Hy. lia. }
  assert (Hrev : List.map index (rendered a') = reverse (indices count)).
  { unfold rendered. rewrite <- Hidx.
    change (List.map index ?l) with (index <$> l). by rewrite fmap_reverse. }
  split; [done | split; [| split; [done |]]].
  - rewrite Hidx. apply Hasc.
  - rewrite Hrev. intros i j x y Hlt Hx Hy.
    apply reverse_lookup_Some in Hx as [Hx Hi], Hy as [Hy Hj].
    apply (Hasc (length (indices count) - S j)%nat (length (indices count) - S i)%nat y x);
      [lia | done | done].
Qed.

End Refresh.

(** *** The unlock session *)

Lemma held_key_lock p : held_key (step LockClicked p) = None.
Proof. unfold held_key; simpl. by destruct (component p). Qed.

Lemma forget_all (l : list Entry) :
  Forall (fun e => plaintext e = None /\ decryptError e = None) (List.map forget l).
Proof. induction l; simpl; by constructor. Qed.

Lemma nothing_decrypted (l : list Entry) :
  existsb (fun e => is_defined (plaintext e) || is_defined (decryptError e)) l = false ->
  Forall (fun e => plaintext e = None /\ decryptError e = None) l.
Proof.
  induction l as [| e l IH]; simpl; intros H; [by constructor |].
  apply orb_false_iff in H as [He Hl]. constructor; [| by apply IH].
  by destruct (plaintext e), (decryptError e).
Qed.

Lemma decryptEffect_locked order a :
  ledgerKeyAddress a = None ->
  Forall (fun e => plaintext e = None /\ decryptError e = None)
         (entries (decryptEffect pf order a)).
Proof.
  intros Hk. unfold decryptEffect. rewrite Hk.
  destruct (existsb _ (entries a)) eqn:Hex; simpl.
  - apply forget_all.
  - by apply nothing_decrypted.
Qed.

(** C9, as the code has it. The Lock button and the end of the page session
    each leave the page without a clear key, hence not unlocked, and once
    locked the decrypt effect leaves no plaintext on any entry. The passing of
    time changes neither the held key nor the session: nothing in the component
    acts on the end of the validity window. *)
Theorem session_lock_events (p : page) :
  held_key (step LockClicked p) = None
  /\ (forall k, session_of (step LockClicked p) <> Unlocked k)
  /\ (forall a, component p = Some a -> isUnlocking a = false ->
        session_of (step LockClicked p) = Locked)
  /\ (forall a order, component (step LockClicked p) = Some a ->
        Forall (fun e => plaintext e = None /\ decryptError e = None)
               (entries (decryptEffect pf order a)))
  /\ held_key (step PageClosed p) = None
  /\ session_of (step PageClosed p) = Locked
  /\ (forall d, held_key (step (TimePassed d) p) = held_key p
                /\ session_of (step (TimePassed d) p) = session_of p).
Proof.
  repeat split; try done.
  - apply held_key_lock.
  - intros k. unfold session_of; simpl.
    destruct (component p) as [a |]; simpl; [| done].
    by destruct (isUnlocking a).
  - intros a Ha Hu. unfold session_of; simpl. rewrite Ha; simpl. by rewrite Hu.
  - intros a order Ha. apply decryptEffect_locked.
    simpl in Ha. destruct (component p); simpl in Ha; [| done].
    by injection Ha as <-.
Qed.

End AppFacts.


Lemma refresh_index_order_witness :
  List.map LedgerApp.index
    (LedgerApp.entries
       (LedgerApp.refresh (E := Empty_set) (fun _ => []) true 0 2
          (fun i => inr (1700000000 + i, Js.lit "sl1:x:y")) [1; 0]%nat LedgerApp.mount))
  = LedgerApp.indices 2.
Proof.
  apply (refresh_index_order (E := Empty_set) (fun _ => [])
           (fun i => (1700000000 + i, Js.lit "sl1:x:y")) 0 2 [1; 0]%nat LedgerApp.mount).
  apply perm_swap.
Defined.

Lemma session_lock_events_witness :
  LedgerApp.session_of unlocked_page = LedgerApp.Unlocked zero_key
  /\ LedgerApp.session_of (LedgerApp.step LedgerApp.LockClicked unlocked_page)
     = LedgerApp.Locked.
Proof.
  split; [reflexivity |].
  destruct (session_lock_events terse unlocked_page) as (_ & _ & H & _).
  destruct (LedgerApp.component unlocked_page) as [a |] eqn:Ha; [| discriminate Ha].
  apply (H a); [reflexivity |].
  injection Ha as <-. reflexivity.
Defined.

(** The claim C8 as stated fails on the rendered list: of two loaded
    entries, the one with index 1 is shown before the one with index 0. *)
Lemma rendered_order_counterexample :
  let a' := LedgerApp.refresh (E := Empty_set) (fun _ => []) true 0 2
              (fun i => inr (1700000000 + i, Js.lit "sl1:x:y")) [0; 1]%nat LedgerApp.mount in
  List.map LedgerApp.index (LedgerApp.entries a') = [0; 1]
  /\ List.map LedgerApp.index (LedgerApp.rendered a') = [1; 0]
  /\ ~ (forall i j x y, (i < j)%nat ->
          List.map LedgerApp.index (LedgerApp.rendered a') !! i = Some x ->
          List.map LedgerApp.index (LedgerApp.rendered a') !! j = Some y -> x < y).
Proof.
  simpl. split; [done | split; [done |]].
  intros H. specialize (H 0%nat 1%nat 1 0 ltac:(lia) eq_refl eq_refl). lia.
Qed.

(** The claim C9 as stated fails on the expiry of the validity window: eleven
    days after an unlock that was valid for ten, the page still holds the clear
    key and the session is still unlocked. *)
Lemma expiry_counterexample :
  let p2 := LedgerApp.step (LedgerApp.TimePassed (11 * 86400)) unlocked_page in
  LedgerApp.session_of unlocked_page = LedgerApp.Unlocked zero_key
  /\ LedgerApp.expired p2 = true
  /\ LedgerApp.held_key p2 = Some zero_key
  /\ LedgerApp.session_of p2 = LedgerApp.Unlocked zero_key.
Proof. vm_compute. repeat split; reflexivity. Qed.
(** * Further properties of [ledgerCrypto.ts] *)

Section LedgerCryptoFacts.

Import LedgerCrypto.

Lemma hex_digit_byte c : Js.is_hex_digit c = true -> byte c.
Proof.
  unfold Js.is_hex_digit, byte. intros H.
  repeat match type of H with
         | (_ || _) = true => apply orb_true_iff in H as [H | H]
         | (_ && _) = true => apply andb_true_iff in H as [? H]
         end; lia.
Qed.

(** [parseInt] on two hexadecimal digits. *)
Lemma parse_pair a b :
  Js.is_hex_digit a = true -> Js.is_hex_digit b = true ->
  Js.to_uint8 (Js.parseInt16 [a; b]) = 16 * Js.hex_value a + Js.hex_value b.
Proof.
  intros Ha Hb.
  pose proof (forall_bytes2
    (fun a b => implb (Js.is_hex_digit a && Js.is_hex_digit b)
                  (Js.to_uint8 (Js.parseInt16 [a; b])
                   =? 16 * Js.hex_value a + Js.hex_value b))) as H.
  specialize (H ltac:(vm_compute; reflexivity) a b
                (hex_digit_byte a Ha) (hex_digit_byte b Hb)).
  cbv beta in H. rewrite Ha, Hb in H. by apply Z.eqb_eq in H.
Qed.

Lemma hex_value_range c : Js.is_hex_digit c = true -> 0 <= Js.hex_value c < 16.
Proof.
  unfold Js.is_hex_digit, Js.hex_value. intros H.
  destruct (Z.leb_spec 48 c), (Z.leb_spec c 57), (Z.leb_spec 97 c), (Z.leb_spec c 102),
    (Z.leb_spec 65 c), (Z.leb_spec c 70); simpl in *; try done; lia.
Qed.

Lemma startsWith_app p s : Js.startsWith p (p ++ s) = true.
Proof. induction p as [| x p IH]; simpl; [done |]. by rewrite Z.eqb_refl. Qed.

Lemma slice_pair (i : nat) (digits : Js.jsstring) :
  (2 * i + 1 < length digits)%nat ->
  Js.slice (i * 2) (i * 2 + 2) digits
  = [nth (2 * i) digits 0; nth (2 * i + 1) digits 0].
Proof.
  intros Hi. unfold Js.slice.
  replace (i * 2 + 2 - i * 2)%nat with 2%nat by lia.
  replace (i * 2)%nat with (2 * i)%nat by lia.
  revert digits Hi. generalize (2 * i)%nat as n. intros n.
  induction n as [| n IH]; intros digits Hi.
  - destruct digits as [| a [| b r]]; simpl in Hi; try lia. reflexivity.
  - destruct digits as [| a r]; simpl in Hi; [lia |].
    change (skipn (S n) (a :: r)) with (skipn n r).
    rewrite IH by lia. reflexivity.
Qed.

(** [hexToBytes] on [0x] and an even number of hexadecimal digits. *)
Lemma hexToBytes_digits digits :
  Forall (fun c => Js.is_hex_digit c = true) digits ->
  hexToBytes (Js.lit "0x" ++ digits)
  = List.map (fun i => 16 * Js.hex_value (nth (2 * i) digits 0)
                       + Js.hex_value (nth (2 * i + 1) digits 0))
      (seq 0 (length digits / 2)).
Proof.
  intros Hd. unfold hexToBytes. rewrite startsWith_app.
  change (skipn 2 (Js.lit "0x" ++ digits)) with digits.
  apply map_ext_in. intros i Hi%in_seq.
  assert (2 * i + 1 < length digits)%nat as Hlt.
  { pose proof (Nat.Div0.mul_div_le (length digits) 2). lia. }
  rewrite slice_pair by done.
  apply parse_pair; apply (proj1 (List.Forall_forall _ _) Hd), nth_In; lia.
Qed.

Lemma hexToBytes_bytes (hex : Js.jsstring) : Forall byte (hexToBytes hex).
Proof.
  unfold hexToBytes. apply Forall_forall. intros b Hb.
  apply list_elem_of_In, in_map_iff in Hb as (i & <- & _).
  unfold Js.to_uint8, byte. destruct (Js.parseInt16 _); [| lia].
  apply Z.mod_pos_bound. lia.
Qed.

Lemma hexToBytes_address_facts (K : Js.jsstring) :
  address_shape K ->
  length (hexToBytes K) = 20%nat
  /\ forall i, (i < 20)%nat ->
       nth i (hexToBytes K) 0
       = 16 * Js.hex_value (nth (2 + 2 * i) K 0) + Js.hex_value (nth (3 + 2 * i) K 0).
Proof.
  intros (digits & -> & Hl & Hd). rewrite hexToBytes_digits by done. rewrite Hl.
  change (40 / 2)%nat with 20%nat.
  split; [by rewrite length_map, length_seq |].
  intros i Hi.
  rewrite (nth_indep _ 0 (16 * Js.hex_value (nth (2 * 0) digits 0)
                          + Js.hex_value (nth (2 * 0 + 1) digits 0)))
    by (rewrite length_map, length_seq; lia).
  rewrite (map_nth (fun i => 16 * Js.hex_value (nth (2 * i) digits 0)
                             + Js.hex_value (nth (2 * i + 1) digits 0)) (seq 0 20) 0%nat i).
  rewrite seq_nth by lia. cbn [Nat.add].
  change (Js.lit "0x" ++ digits) with (48 :: 120 :: digits).
  replace (2 * i + 1)%nat with (S (2 * i)) by lia.
  replace (2 + 2 * i)%nat with (S (S (2 * i))) by lia.
  replace (3 + 2 * i)%nat with (S (S (S (2 * i)))) by lia.
  reflexivity.
Qed.

(** X1. For a key of the shape [ADDRESS_RE] accepts, [hexToBytes] returns
    the twenty bytes the forty digits spell, two digits a byte, the first
    digit being the high half; digits of either case count alike. *)
Theorem hexToBytes_address (K : Js.jsstring) :
  address_shape K ->
  length (hexToBytes K) = 20%nat
  /\ Forall byte (hexToBytes K)
  /\ forall i, (i < 20)%nat ->
       nth i (hexToBytes K) 0
       = 16 * Js.hex_value (nth (2 + 2 * i) K 0) + Js.hex_value (nth (3 + 2 * i) K 0).
Proof.
  intros HK. destruct (hexToBytes_address_facts K HK) as [Hl Hn].
  split; [exact Hl | split; [apply hexToBytes_bytes | exact Hn]].
Qed.

Lemma hexToBytes_same_values K K' :
  address_shape K -> address_shape K' ->
  List.map Js.hex_value K = List.map Js.hex_value K' ->
  hexToBytes K = hexToBytes K'.
Proof.
  intros HK HK' Hv.
  destruct (hexToBytes_address_facts K HK) as (Hl & Hn).
  destruct (hexToBytes_address_facts K' HK') as (Hl' & Hn').
  apply (nth_ext _ _ 0 0); [lia |].
  intros i Hi. rewrite Hl in Hi. rewrite Hn, Hn' by done.
  assert (Hnth : forall j, Js.hex_value (nth j K 0) = Js.hex_value (nth j K' 0)).
  { intros j. rewrite <- !(map_nth Js.hex_value). by rewrite Hv. }
  by rewrite !Hnth.
Qed.

(** X2. Two well-formed keys whose digits have the same values, that is,
    which differ at most in the case of the letters [a] to [f], are the same
    key: they derive the same AES key, encrypt alike and decrypt alike. *)
Theorem key_case_insensitive (K K' : Js.jsstring) :
  address_shape K -> address_shape K' ->
  List.map Js.hex_value K = List.map Js.hex_value K' ->
  aes_key K = aes_key K'
  /\ (forall rng m, encryptWithAddressKey rng m K = encryptWithAddressKey rng m K')
  /\ (forall payload, decryptWithAddressKey payload K = decryptWithAddressKey payload K').
Proof.
  intros HK HK' Hv.
  pose proof (hexToBytes_same_values K K' HK HK' Hv) as Hb.
  assert (Hkey : aes_key K = aes_key K') by (unfold aes_key; by rewrite Hb).
  apply ADDRESS_RE_shape in HK, HK'.
  split; [done | split].
  - intros rng m. rewrite !encrypt_ok by done. by rewrite Hb, Hkey.
  - intros payload. rewrite !decrypt_segments.
    destruct (segments payload) as [[a b] |]; [| done].
    rewrite !derive_ok by done. by rewrite Hb, Hkey.
Qed.

(** X3. [base64ToBytes] undoes [bytesToBase64] on every byte array, the
    empty one and those longer than one chunk of the loop included, and makes
    no call on [crypto]. *)
Theorem base64_round_trip (bs : bytes) :
  Forall byte bs -> base64ToBytes (bytesToBase64 bs) = ([], inr bs).
Proof.
  intros H. unfold base64ToBytes.
  by rewrite bytesToBase64_encode, atob_encode.
Qed.

(** X4. [bytesToBase64] writes four characters for every three bytes
    begun, all from the base64 alphabet or [=]; no colon, no white space. *)
Theorem bytesToBase64_shape (bs : bytes) :
  Forall byte bs ->
  length (bytesToBase64 bs) = (4 * ((length bs + 2) / 3))%nat
  /\ Forall Base64.written (bytesToBase64 bs)
  /\ Forall (fun c => c <> 58 /\ Base64.is_ascii_whitespace c = false) (bytesToBase64 bs).
Proof.
  intros H. rewrite bytesToBase64_encode by done.
  split; [apply encode_length_exact |].
  pose proof (encode_chars bs H) as Hw. split; [done |].
  eapply Forall_impl; [exact Hw |]. intros c Hc. unfold Base64.written in Hc.
  split; [lia |]. unfold Base64.is_ascii_whitespace.
  repeat match goal with
         | |- context [?a =? ?b] => destruct (Z.eqb_spec a b); [lia |]
         end. done.
Qed.

End LedgerCryptoFacts.

(** ** The derived key and the wire string *)








Lemma gcm_decrypt_short key iv c : (length c < 16)%nat -> Gcm.decrypt key iv c = None.
Proof.
  intros Hc. unfold Gcm.decrypt. by destruct (Nat.ltb_spec (length c) 16); [| lia].
Qed.

Lemma atob_whitespace (a b : Js.jsstring) (c : Z) :
  Base64.is_ascii_whitespace c = true ->
  Base64.atob (a ++ c :: b) = Base64.atob (a ++ b).
Proof.
  intros Hc. unfold Base64.atob, Base64.remove_whitespace.
  rewrite !List.filter_app. cbn [List.filter]. by rewrite Hc.
Qed.

Section WireFacts.

Import LedgerCrypto.

Local Opaque Sha256.digest Gcm.encrypt Gcm.decrypt Utf8.encode Utf8.decode Base64.atob
  Base64.encode hexToBytes.


Lemma split_nonempty sep s : Js.split sep s <> [].
Proof.
  destruct s as [| c s]; simpl; [done |].
  destruct (c =? sep); [done |]. by destruct (Js.split sep s).
Qed.

(** Splitting at a separator splits the parts before and after it. *)
Lemma split_sep_app sep a b :
  Js.split sep (a ++ sep :: b) = Js.split sep a ++ Js.split sep b.
Proof.
  induction a as [| c a IH]; simpl.
  - by rewrite Z.eqb_refl.
  - destruct (Z.eqb_spec c sep); [by rewrite IH |].
    rewrite IH. pose proof (split_nonempty sep a).
    by destruct (Js.split sep a).
Qed.

(** X6. Under a well-formed key encryption succeeds for every plaintext,
    and its wire string has exactly three segments between colons: the tag
    [sl1], sixteen base64 characters for the nonce, and the base64 of the
    ciphertext, which is sixteen bytes longer than the UTF-8 encoding of the
    plaintext. Its length follows from the plaintext. *)
Theorem wire_format (rng : nat -> Z) (m K : Js.jsstring) :
  address_shape K -> Forall Js.code_unit m ->
  exists w ivB64 cipherB64,
    outcome (encryptWithAddressKey rng m K) = inr w
    /\ Js.split 58 w = [Js.lit "sl1"; ivB64; cipherB64]
    /\ w = Js.lit "sl1:" ++ ivB64 ++ Js.lit ":" ++ cipherB64
    /\ length ivB64 = 16%nat
    /\ length cipherB64 = (4 * ((length (Utf8.encode m) + 18) / 3))%nat
    /\ Forall Base64.written ivB64
    /\ Forall Base64.written cipherB64
    /\ length w = (21 + 4 * ((length (Utf8.encode m) + 18) / 3))%nat.
Proof.
  intros HK Hm.
  pose proof HK as HK'%ADDRESS_RE_shape.
  rewrite encrypt_ok by done. unfold outcome. cbn [snd].
  set (ct := Gcm.encrypt (aes_key K) (nonce rng) (Utf8.encode m)) in *.
  assert (Hct : Forall byte ct) by (by apply gcm_encrypt_bytes, encode_bytes).
  pose proof (nonce_bytes rng) as Hiv.
  assert (Hshape : forall bs, Forall byte bs ->
            length (bytesToBase64 bs) = (4 * ((length bs + 2) / 3))%nat
            /\ Forall Base64.written (bytesToBase64 bs)
            /\ Forall (fun c => c <> 58) (bytesToBase64 bs)).
  { intros bs Hbs. rewrite bytesToBase64_encode by done.
    split; [apply encode_length_exact | split; [by apply encode_chars |]].
    by apply encode_no_colon. }
  destruct (Hshape (nonce rng) Hiv) as (Hl1 & Hw1 & Hc1).
  destruct (Hshape ct Hct) as (Hl2 & Hw2 & Hc2). clear Hshape.
  exists (Js.lit "sl1:" ++ bytesToBase64 (nonce rng) ++ Js.lit ":" ++ bytesToBase64 ct),
    (bytesToBase64 (nonce rng)), (bytesToBase64 ct).
  assert (Hlen : length ct = (length (Utf8.encode m) + 16)%nat)
    by apply gcm_encrypt_length.
  rewrite Hlen in Hl2.
  replace (length (Utf8.encode m) + 16 + 2)%nat
    with (length (Utf8.encode m) + 18)%nat in Hl2 by lia.
  split; [reflexivity |].
  split; [| split; [reflexivity | split; [exact Hl1 | split; [exact Hl2 |
    split; [exact Hw1 | split; [exact Hw2 |]]]]]].
  - change (Js.lit "sl1:" ++ bytesToBase64 (nonce rng) ++ Js.lit ":" ++ bytesToBase64 ct)
      with (Js.lit "sl1" ++ 58 :: (bytesToBase64 (nonce rng) ++ 58 :: bytesToBase64 ct)).
    rewrite (split_app 58 (Js.lit "sl1")) by (repeat (constructor; [done |]); constructor).
    rewrite (split_app 58 (bytesToBase64 (nonce rng))) by exact Hc1.
    rewrite split_no_sep by exact Hc2.
    reflexivity.
  - rewrite !length_app, Hl1, Hl2. change (length (Js.lit "sl1:")) with 4%nat.
    change (length (Js.lit ":")) with 1%nat. change (length (nonce rng)) with 12%nat.
    change ((12 + 2) / 3)%nat with 4%nat. lia.
Qed.

(** X7. Only the first three segments of a payload are read: whatever
    follows a third colon is ignored, so a payload with at least three
    segments and the same payload with [:] and any text appended are
    decrypted alike, calls and result. *)
Theorem trailing_segments_ignored (payload extra K : Js.jsstring) :
  (3 <= length (Js.split 58 payload))%nat ->
  decryptWithAddressKey (payload ++ Js.lit ":" ++ extra) K
  = decryptWithAddressKey payload K.
Proof.
  intros Hlen. unfold decryptWithAddressKey.
  change (payload ++ Js.lit ":" ++ extra) with (payload ++ 58 :: extra).
  rewrite split_sep_app.
  by rewrite !nth_error_app1 by lia.
Qed.

(** X8. A payload whose third segment decodes to fewer than the sixteen
    bytes of a tag is rejected with the OperationError of
    [crypto.subtle.decrypt], whatever the key and the nonce. *)
Theorem short_ciphertext (payload K : Js.jsstring) (iv c : bytes) :
  address_shape K ->
  wire_bytes payload = Some (iv, c) ->
  (length c < 16)%nat ->
  decryptWithAddressKey payload K
  = ([Digest (hexToBytes K); ImportKey (aes_key K); Decrypt (aes_key K) iv c],
     inl OperationError).
Proof.
  intros HK%ADDRESS_RE_shape Hw Hc.
  rewrite (decrypt_wire_bytes payload K iv c Hw HK).
  by rewrite gcm_decrypt_short.
Qed.

(** X9. ASCII white space inside the nonce segment or the ciphertext
    segment of a payload is not read: [atob] drops it, so a payload and the
    same payload with such a character put into one of the two segments are
    decrypted alike, calls and result. *)
Theorem whitespace_ignored (iv1 iv2 ct1 ct2 K : Js.jsstring) (c : Z) :
  Base64.is_ascii_whitespace c = true ->
  Forall (fun u => u <> 58) (iv1 ++ iv2) -> Forall (fun u => u <> 58) (ct1 ++ ct2) ->
  iv1 ++ iv2 <> [] -> ct1 ++ ct2 <> [] ->
  let payload := Js.lit "sl1:" ++ (iv1 ++ iv2) ++ Js.lit ":" ++ (ct1 ++ ct2) in
  decryptWithAddressKey (Js.lit "sl1:" ++ (iv1 ++ c :: iv2) ++ Js.lit ":" ++ (ct1 ++ ct2)) K
  = decryptWithAddressKey payload K
  /\ decryptWithAddressKey (Js.lit "sl1:" ++ (iv1 ++ iv2) ++ Js.lit ":" ++ (ct1 ++ c :: ct2)) K
     = decryptWithAddressKey payload K.
Proof.
  intros Hc Hiv Hct Hiv0 Hct0 payload.
  assert (Hc58 : c <> 58).
  { intros ->. done. }
  assert (Hins : forall a b : Js.jsstring,
            Forall (fun u => u <> 58) (a ++ b) -> Forall (fun u => u <> 58) (a ++ c :: b)).
  { intros a b [Ha Hb]%Forall_app. apply Forall_app. split; [done | by constructor]. }
  assert (Hne : forall a b : Js.jsstring, a ++ c :: b <> []) by (intros [| ? ?] b; done).
  unfold payload. rewrite !decrypt_segments.
  rewrite !segments_wire by (done || by apply Hins).
  unfold base64ToBytes. by rewrite !atob_whitespace.
Qed.

End WireFacts.

(** * What [TextDecoder] can return *)

Section DecoderFacts.

Import Utf8 Utf8State.









End DecoderFacts.

Section PlaintextFacts.

Import LedgerCrypto.


End PlaintextFacts.

(** * Further properties of [SilentLedger.sol] *)

Section LedgerFacts.

Variable this : SilentLedger.address.
Variable fromExternal :
  SilentLedger.externalEaddress -> bytes -> SilentLedger.address -> option SilentLedger.eaddress.

Import SilentLedger.

Local Abbreviation createLedger := (SilentLedger.createLedger this fromExternal).
Local Abbreviation rotateLedgerKey := (SilentLedger.rotateLedgerKey this fromExternal).
Local Abbreviation invoke := (SilentLedger.invoke this fromExternal).
Local Abbreviation execute := (SilentLedger.execute this fromExternal).
Local Abbreviation succeeds := (SilentLedger.succeeds this fromExternal).
Local Abbreviation run := (SilentLedger.run this fromExternal).
Local Abbreviation stored_by := (SilentLedger.stored_by this fromExternal).
Local Abbreviation keys_by := (LedgerHistory.keys_by this fromExternal).

Lemma run_cons t txs s : run (t :: txs) s = run txs (execute t s).
Proof. reflexivity. Qed.

Lemma run_app txs1 txs2 s : run (txs1 ++ txs2) s = run txs2 (run txs1 s).
Proof. unfold SilentLedger.run. by rewrite fold_left_app. Qed.

Lemma key_insert (m : gmap address eaddress) (o o' : address) k :
  default 0 (<[o := k]> m !! o') = if decide (o = o') then k else default 0 (m !! o').
Proof. rewrite lookup_insert. by case_decide. Qed.

(** What one transaction does to the existence flag of [owner]. *)
Lemma has_step t s owner :
  has (execute t s) owner
  = has s owner
    || match tx_call t with
       | CreateLedger _ _ => succeeds t s && (msg_sender (tx_env t) =? owner)
       | _ => false
       end.
Proof.
  unfold SilentLedger.execute, SilentLedger.succeeds, SilentLedger.invoke.
  destruct t as [e c]; destruct c as [k p | k p | c]; cbn [tx_call tx_env].
  - unfold SilentLedger.createLedger.
    destruct (has s (msg_sender e)) eqn:Hs; [by rewrite orb_false_r |].
    destruct (fromExternal k p (msg_sender e)); [| by rewrite orb_false_r].
    unfold has at 1; simpl. rewrite has_insert. fold (has s owner).
    destruct (Z.eqb_spec (msg_sender e) owner) as [-> | Hne].
    + rewrite decide_True by done. by rewrite orb_true_r.
    + rewrite decide_False by done. by rewrite orb_false_r.
  - rewrite orb_false_r. unfold SilentLedger.rotateLedgerKey.
    destruct (has s (msg_sender e)); [| done].
    by destruct (fromExternal k p (msg_sender e)).
  - rewrite orb_false_r. unfold SilentLedger.storeEntry.
    by destruct (has s (msg_sender e)).
Qed.

(** X11. An owner has a ledger exactly when one of that owner's
    [createLedger] calls has succeeded: nothing else sets the flag, and
    nothing clears it. *)
Theorem ledger_exists_iff_created (txs : list tx) (owner : address) :
  has (run txs genesis) owner = true
  <-> exists pre t post k p,
        txs = pre ++ t :: post
        /\ tx_call t = CreateLedger k p
        /\ msg_sender (tx_env t) = owner
        /\ succeeds t (run pre genesis) = true.
Proof.
  split.
  - induction txs as [| t txs IH] using rev_ind; [done |].
    rewrite run_app. change (run [t] ?s) with (execute t s).
    rewrite has_step. intros [H | H]%orb_true_iff.
    + destruct (IH H) as (pre & t0 & post & k & p & -> & Hc & Hs & Hok).
      exists pre, t0, (post ++ [t]), k, p. by rewrite <- app_assoc.
    + destruct (tx_call t) as [k p | |] eqn:Hc; try done.
      apply andb_true_iff in H as [Hok Hs%Z.eqb_eq].
      exists txs, t, [], k, p. done.
  - intros (pre & t & post & k & p & -> & Hc & Hs & Hok).
    rewrite run_app, run_cons. apply has_run.
    rewrite has_step, Hc, Hok, Hs, Z.eqb_refl. apply orb_true_r.
Qed.

(** X12. A transaction sent by another account changes nothing of what the
    contract holds for [owner]: the flag, the key handle, the pouch and hence
    every read for [owner] are as before. *)
Theorem owner_isolation (t : tx) (s : storage) (owner : address) :
  msg_sender (tx_env t) <> owner ->
  has (execute t s) owner = has s owner
  /\ key (execute t s) owner = key s owner
  /\ pouch (execute t s) owner = pouch s owner
  /\ getLedgerKey (execute t s) owner = getLedgerKey s owner
  /\ getEntryCount (execute t s) owner = getEntryCount s owner
  /\ (forall i, getEntry (execute t s) owner i = getEntry s owner i).
Proof.
  intros Hne.
  assert (Hh : has (execute t s) owner = has s owner).
  { rewrite has_step. destruct (tx_call t); try apply orb_false_r.
    destruct (Z.eqb_spec (msg_sender (tx_env t)) owner); [done |].
    by rewrite andb_false_r, orb_false_r. }
  assert (Hp : pouch (execute t s) owner = pouch s owner).
  { rewrite pouch_execute. cbn [SilentLedger.stored_by].
    destruct (tx_call t); rewrite ?app_nil_r; try done.
    destruct (Z.eqb_spec (msg_sender (tx_env t)) owner); [done |].
    by rewrite andb_false_r, !app_nil_r. }
  assert (Hk : key (execute t s) owner = key s owner).
  { unfold SilentLedger.execute, SilentLedger.invoke.
    destruct t as [e c]; destruct c as [k p | k p | c]; cbn [tx_call tx_env] in *.
    - unfold SilentLedger.createLedger.
      destruct (has s (msg_sender e)); [done |].
      destruct (fromExternal k p (msg_sender e)); [| done].
      unfold key; simpl. rewrite key_insert. by rewrite decide_False.
    - unfold SilentLedger.rotateLedgerKey.
      destruct (has s (msg_sender e)); [| done].
      destruct (fromExternal k p (msg_sender e)); [| done].
      unfold key; simpl. rewrite key_insert. by rewrite decide_False.
    - unfold SilentLedger.storeEntry. by destruct (has s (msg_sender e)). }
  split; [done | split; [done | split; [done |]]].
  unfold getLedgerKey, getEntryCount, getEntry. rewrite Hh, Hk, Hp. done.
Qed.

(** What one transaction does to the key handle of [owner]. *)
Lemma key_step t s owner :
  key (execute t s) owner = default (key s owner) (last (keys_by owner [t] s))
  /\ (has s owner = false -> keys_by owner [t] s = [] -> has (execute t s) owner = false).
Proof.
  cbn [LedgerHistory.keys_by]. rewrite app_nil_r.
  unfold SilentLedger.succeeds, SilentLedger.execute, SilentLedger.invoke.
  destruct t as [e c]; destruct c as [k p | k p | c]; cbn [tx_call tx_env].
  - unfold SilentLedger.createLedger.
    destruct (has s (msg_sender e)) eqn:Hs; [done |].
    destruct (Z.eqb_spec (msg_sender e) owner) as [-> | Hne].
    + destruct (fromExternal k p owner) as [h |]; [| done].
      cbn. unfold key; simpl. rewrite key_insert, decide_True by done. done.
    + destruct (fromExternal k p (msg_sender e)) as [h |]; [| done].
      cbn. unfold key, has; simpl.
      rewrite key_insert, has_insert, !decide_False by done. done.
  - unfold SilentLedger.rotateLedgerKey.
    destruct (has s (msg_sender e)) eqn:Hs; [| done]. cbn [negb].
    destruct (Z.eqb_spec (msg_sender e) owner) as [-> | Hne].
    + destruct (fromExternal k p owner) as [h |]; [| done].
      cbn. unfold key; simpl. rewrite key_insert, decide_True by done. done.
    + destruct (fromExternal k p (msg_sender e)) as [h |]; [| done].
      cbn. unfold key, has; simpl.
      rewrite key_insert, decide_False by done. done.
  - unfold SilentLedger.storeEntry.
    by destruct (has s (msg_sender e)).
Qed.

Lemma keys_by_app owner txs1 : forall txs2 s,
  keys_by owner (txs1 ++ txs2) s
  = keys_by owner txs1 s ++ keys_by owner txs2 (run txs1 s).
Proof.
  induction txs1 as [| t txs1 IH]; intros txs2 s; [done |].
  cbn [app LedgerHistory.keys_by]. rewrite IH, run_cons. by rewrite <- app_assoc.
Qed.

Lemma keys_by_single_length owner t s : (length (keys_by owner [t] s) <= 1)%nat.
Proof.
  cbn [LedgerHistory.keys_by]. rewrite app_nil_r.
  destruct (tx_call t) as [k p | k p |]; cbn [length]; try lia.
  all: destruct (_ && _); cbn [length]; try lia.
  all: destruct (fromExternal k p owner); cbn [length]; lia.
Qed.

(** The flag and the key handle of [owner] after a history. *)
Lemma history_state (txs : list tx) (owner : address) :
  has (run txs genesis) owner = negb (bool_decide (keys_by owner txs genesis = []))
  /\ key (run txs genesis) owner = default 0 (last (keys_by owner txs genesis)).
Proof.
  induction txs as [| t txs [IHh IHk]] using rev_ind; [done |].
  rewrite run_app, keys_by_app. change (run [t] ?s) with (execute t s).
  destruct (key_step t (run txs genesis) owner) as [Hk Hn].
  pose proof (keys_by_single_length owner t (run txs genesis)) as Hlen.
  destruct (keys_by owner [t] (run txs genesis)) as [| h [| ? ?]] eqn:Hone;
    [| | cbn [length] in Hlen; lia].
  - rewrite app_nil_r. cbn in Hk. rewrite Hk. split; [| done].
    destruct (has (run txs genesis) owner) eqn:Hh.
    + rewrite has_execute by done. done.
    + rewrite Hn by done. done.
  - rewrite last_snoc. cbn in Hk. split; [| done].
    rewrite bool_decide_eq_false_2 by (by destruct (keys_by owner txs genesis)).
    cbn [negb]. rewrite has_step.
    destruct (has (run txs genesis) owner) eqn:Hh; [done |]. cbn [orb].
    revert Hone. cbn [LedgerHistory.keys_by]. rewrite app_nil_r.
    destruct (tx_call t) as [k p | k p |] eqn:Hc; [| | done].
    + destruct (succeeds t (run txs genesis) && _); done.
    + unfold SilentLedger.succeeds, SilentLedger.invoke. rewrite Hc.
      unfold SilentLedger.rotateLedgerKey.
      destruct (Z.eqb_spec (msg_sender (tx_env t)) owner) as [-> | Hne];
        [| by rewrite andb_false_r].
      by rewrite Hh.
Qed.

(** X13. [getLedgerKey] answers the handle set by the last successful
    [createLedger] or [rotateLedgerKey] of the owner, and reverts with
    [LedgerNotFound] when there was none. *)
Theorem getLedgerKey_last (txs : list tx) (owner : address) :
  getLedgerKey (run txs genesis) owner
  = match last (keys_by owner txs genesis) with
    | Some k => inr k
    | None => inl (LedgerNotFound owner)
    end.
Proof.
  destruct (history_state txs owner) as [Hh Hk]. unfold getLedgerKey. rewrite Hh, Hk.
  destruct (keys_by owner txs genesis) as [| k0 ks] using rev_ind.
  - done.
  - rewrite last_snoc. rewrite bool_decide_eq_false_2 by (by destruct ks). done.
Qed.

End LedgerFacts.

Section LedgerInvariants.

Variable this : SilentLedger.address.
Variable fromExternal :
  SilentLedger.externalEaddress -> bytes -> SilentLedger.address -> option SilentLedger.eaddress.

Import SilentLedger.

Local Abbreviation createLedger := (SilentLedger.createLedger this fromExternal).
Local Abbreviation rotateLedgerKey := (SilentLedger.rotateLedgerKey this fromExternal).
Local Abbreviation invoke := (SilentLedger.invoke this fromExternal).
Local Abbreviation execute := (SilentLedger.execute this fromExternal).
Local Abbreviation succeeds := (SilentLedger.succeeds this fromExternal).
Local Abbreviation run := (SilentLedger.run this fromExternal).
Local Abbreviation stored_by := (SilentLedger.stored_by this fromExternal).
Local Abbreviation keys_by := (LedgerHistory.keys_by this fromExternal).

Lemma no_ledger_no_pouch txs owner :
  has (run txs genesis) owner = false -> pouch (run txs genesis) owner = [].
Proof.
  induction txs as [| t txs IH] using rev_ind; [done |].
  rewrite (run_app this fromExternal). change (run [t] ?s) with (execute t s).
  rewrite (has_step this fromExternal). intros [Hh Ht]%orb_false_iff.
  rewrite pouch_execute, IH by done. cbn [SilentLedger.stored_by app].
  rewrite app_nil_r.
  destruct (tx_call t) as [| | c] eqn:Hc; try done.
  destruct (Z.eqb_spec (msg_sender (tx_env t)) owner) as [Hs | Hne];
    [| by rewrite andb_false_r].
  unfold SilentLedger.succeeds, SilentLedger.invoke. rewrite Hc.
  unfold SilentLedger.storeEntry. by rewrite Hs, Hh.
Qed.

(** X14. An account that has not created a ledger has nothing in the
    contract: its pouch is empty whatever was sent, every read of an entry
    reverts with [EntryIndexOutOfBounds], the key read reverts with
    [LedgerNotFound], and its [storeEntry] and [rotateLedgerKey] revert with
    [LedgerNotFound]. *)
Theorem no_ledger_nothing_stored (txs : list tx) (owner : address) :
  let s := run txs genesis in
  has s owner = false ->
  getEntryCount s owner = 0
  /\ (forall i, getEntry s owner i = inl (EntryIndexOutOfBounds owner i))
  /\ getLedgerKey s owner = inl (LedgerNotFound owner)
  /\ (forall e c, msg_sender e = owner -> storeEntry e c s = inl (LedgerNotFound owner))
  /\ (forall e k p, msg_sender e = owner ->
        rotateLedgerKey e k p s = inl (LedgerNotFound owner)).
Proof.
  intros s Hh. pose proof (no_ledger_no_pouch txs owner Hh) as Hp. fold s in Hp.
  split; [| split; [| split; [| split]]].
  - unfold getEntryCount. by rewrite Hp.
  - intros i. unfold getEntry. rewrite Hp. cbn [length].
    destruct (i >=? Z.of_nat 0); [done |]. by destruct (Z.to_nat i).
  - unfold getLedgerKey. by rewrite Hh.
  - intros e c He. unfold storeEntry. by rewrite He, Hh.
  - intros e k p He. unfold SilentLedger.rotateLedgerKey. by rewrite He, Hh.
Qed.

(** What one transaction adds to the access list. *)
Lemma allowed_step t s k a :
  (k, a) ∈ allowed (execute t s)
  <-> (k, a) ∈ allowed s
      \/ exists owner, k ∈ keys_by owner [t] s /\ (a = owner \/ a = this).
Proof.
  cbn [LedgerHistory.keys_by].
  unfold SilentLedger.succeeds, SilentLedger.execute, SilentLedger.invoke.
  destruct t as [e c]; destruct c as [k0 p | k0 p | c]; cbn [tx_call tx_env].
  - unfold SilentLedger.createLedger.
    destruct (has s (msg_sender e)) eqn:Hs.
    { split; [by left |]. intros [H | (o & H & _)]; [done |].
      rewrite app_nil_r in H. cbn in H. by apply elem_of_nil in H. }
    destruct (fromExternal k0 p (msg_sender e)) as [h |] eqn:Hf.
    + simpl. rewrite !elem_of_union, !elem_of_singleton. split.
      * intros [[= -> ->] | [[= -> ->] | H]]; [right | right | by left].
        -- exists (msg_sender e). rewrite Z.eqb_refl, Hf. cbn. split; [| by left].
           apply list_elem_of_here.
        -- exists (msg_sender e). rewrite Z.eqb_refl, Hf. cbn. split; [| by right].
           apply list_elem_of_here.
      * intros [H | (o & H & Ha)]; [by right; right |].
        rewrite app_nil_r in H.
        destruct (Z.eqb_spec (msg_sender e) o) as [Heq | Hne]; [| by apply elem_of_nil in H].
        rewrite <- Heq in *. clear Heq. rewrite Hf in H. cbn in H. apply list_elem_of_singleton in H as ->.
        destruct Ha as [-> | ->]; [by left | by right; left].
    + split; [by left |]. intros [H | (o & H & _)]; [done |].
      rewrite app_nil_r in H. cbn in H. by apply elem_of_nil in H.
  - unfold SilentLedger.rotateLedgerKey.
    destruct (has s (msg_sender e)) eqn:Hs; cbn [negb].
    2:{ split; [by left |]. intros [H | (o & H & _)]; [done |].
        rewrite app_nil_r in H. cbn in H. by apply elem_of_nil in H. }
    destruct (fromExternal k0 p (msg_sender e)) as [h |] eqn:Hf.
    + simpl. rewrite !elem_of_union, !elem_of_singleton. split.
      * intros [[= -> ->] | [[= -> ->] | H]]; [right | right | by left].
        -- exists (msg_sender e). rewrite Z.eqb_refl, Hf. cbn. split; [| by left].
           apply list_elem_of_here.
        -- exists (msg_sender e). rewrite Z.eqb_refl, Hf. cbn. split; [| by right].
           apply list_elem_of_here.
      * intros [H | (o & H & Ha)]; [by right; right |].
        rewrite app_nil_r in H.
        destruct (Z.eqb_spec (msg_sender e) o) as [Heq | Hne]; [| by apply elem_of_nil in H].
        rewrite <- Heq in *. clear Heq. rewrite Hf in H. cbn in H. apply list_elem_of_singleton in H as ->.
        destruct Ha as [-> | ->]; [by left | by right; left].
    + split; [by left |]. intros [H | (o & H & _)]; [done |].
      rewrite app_nil_r in H. cbn in H. by apply elem_of_nil in H.
  - unfold SilentLedger.storeEntry.
    assert (Hsame : allowed (match (if negb (has s (msg_sender e))
                                    then inl (LedgerNotFound (msg_sender e))
                                    else inr ({| _hasLedger := _hasLedger s;
                                                 _ledgerKey := _ledgerKey s;
                                                 _pouch := <[msg_sender e :=
                                                   pouch s (msg_sender e)
                                                   ++ [{| createdAt := block_timestamp e;
                                                          ciphertext := c |}]]> (_pouch s);
                                                 allowed := allowed s |},
                                              [EntryStored (msg_sender e)
                                                 (Z.of_nat (length (pouch s (msg_sender e)
                                                   ++ [{| createdAt := block_timestamp e;
                                                          ciphertext := c |}])) - 1)]))
                            with
                            | inr (s', _) => s'
                            | inl _ => s
                            end) = allowed s)
      by (by destruct (has s (msg_sender e))).
    rewrite Hsame. split; [by left |]. intros [H | (o & H & _)]; [done |].
    by apply elem_of_nil in H.
Qed.


(** A handle an owner has set is allowed for the owner and the contract. *)
Lemma allowed_history (txs : list tx) (owner : address) (k : eaddress) :
  k ∈ keys_by owner txs genesis ->
  (k, owner) ∈ allowed (run txs genesis) /\ (k, this) ∈ allowed (run txs genesis).
Proof.
  induction txs as [| t txs IH] using rev_ind; [intros H; by apply elem_of_nil in H |].
  rewrite (run_app this fromExternal), (keys_by_app this fromExternal).
  change (run [t] ?s) with (execute t s). rewrite !allowed_step.
  intros [H | H]%elem_of_app.
  - destruct (IH H) as [H1 H2]. split; by left.
  - split; right; exists owner; (split; [exact H |]); [by left | by right].
Qed.

(** X15. The access list of the encrypted keys holds exactly, for every
    handle an owner has set by a successful [createLedger] or
    [rotateLedgerKey], that owner and the contract itself: no other account is
    ever allowed, and a permission, once given, stays (rotation does not revoke
    the handle it replaces). *)
Theorem access_list_exact (txs : list tx) (k : eaddress) (a : address) :
  (k, a) ∈ allowed (run txs genesis)
  <-> exists owner, k ∈ keys_by owner txs genesis /\ (a = owner \/ a = this).
Proof.
  split.
  - induction txs as [| t txs IH] using rev_ind;
      [intros H; by apply elem_of_empty in H |].
    rewrite (run_app this fromExternal). change (run [t] ?s) with (execute t s).
    rewrite allowed_step.
    intros [H | (o & H & Ha)].
    + destruct (IH H) as (o & Ho & Ha). exists o. split; [| done].
      rewrite (keys_by_app this fromExternal). apply elem_of_app. by left.
    + exists o. split; [| done].
      rewrite (keys_by_app this fromExternal). apply elem_of_app. by right.
  - intros (o & H & [-> | ->]); by apply (allowed_history txs o k).
Qed.

(** X16. Whatever was sent, the key handle the contract holds for an owner
    with a ledger is one the owner may decrypt and the contract may use. *)
Theorem current_key_allowed (txs : list tx) (owner : address) :
  let s := run txs genesis in
  has s owner = true ->
  (key s owner, owner) ∈ allowed s /\ (key s owner, this) ∈ allowed s.
Proof.
  intros s Hh.
  destruct (history_state this fromExternal txs owner) as [Hh' Hk].
  fold s in Hh', Hk. rewrite Hh in Hh'.
  assert (Hin : key s owner ∈ keys_by owner txs genesis).
  { rewrite Hk. destruct (keys_by owner txs genesis) as [| k0 ks] using rev_ind; [done |].
    rewrite last_snoc. cbn. apply elem_of_app. right. apply list_elem_of_here. }
  by apply allowed_history.
Qed.

(** X17. A successful [storeEntry] appends: the index in its [EntryStored]
    event is the count before the call, the entry read back at that index is
    the ciphertext with the timestamp of the block, the count grows by one,
    and the entries below are read as before. *)
Theorem storeEntry_read_back (e : env) (c : bytes) (s s' : storage) (evs : list event) :
  storeEntry e c s = inr (s', evs) ->
  let owner := msg_sender e in
  let n := getEntryCount s owner in
  evs = [EntryStored owner n]
  /\ getEntry s' owner n = inr (block_timestamp e, c)
  /\ getEntryCount s' owner = n + 1
  /\ (forall i, 0 <= i < n -> getEntry s' owner i = getEntry s owner i).
Proof.
  intros H owner n. unfold storeEntry in H. fold owner in H.
  destruct (has s owner); [| done]. cbn [negb] in H. injection H as <- <-.
  assert (Hp : pouch {| _hasLedger := _hasLedger s; _ledgerKey := _ledgerKey s;
                        _pouch := <[owner := pouch s owner
                                      ++ [{| createdAt := block_timestamp e;
                                             ciphertext := c |}]]> (_pouch s);
                        allowed := allowed s |} owner
               = pouch s owner ++ [{| createdAt := block_timestamp e; ciphertext := c |}]).
  { unfold pouch at 1. simpl. by rewrite lookup_insert_eq. }
  unfold n, getEntryCount, getEntry. fold owner. rewrite !Hp, !length_app. cbn [length].
  split; [f_equal; f_equal; lia | split; [| split; [lia |]]].
  - destruct (Z.geb_spec (Z.of_nat (length (pouch s owner)))
                (Z.of_nat (length (pouch s owner) + 1))); [lia |].
    rewrite Nat2Z.id, nth_error_app2 by lia. by rewrite Nat.sub_diag.
  - intros i Hi.
    destruct (Z.geb_spec i (Z.of_nat (length (pouch s owner) + 1))); [lia |].
    destruct (Z.geb_spec i (Z.of_nat (length (pouch s owner)))); [lia |].
    by rewrite nth_error_app1 by lia.
Qed.

(** X18. An entry, once stored, is never changed or removed: what
    [getEntry] answers at an index it keeps answering after every further
    transaction; and below zero aside, an index is answered exactly when it is
    below the entry count. *)
Theorem entries_immutable (s : storage) (owner : address) (i : Z) :
  0 <= i ->
  (forall v txs, getEntry s owner i = inr v -> getEntry (run txs s) owner i = inr v)
  /\ ((exists v, getEntry s owner i = inr v) <-> i < getEntryCount s owner)
  /\ (getEntryCount s owner <= i ->
      getEntry s owner i = inl (EntryIndexOutOfBounds owner i)).
Proof.
  intros Hi.
  assert (Hget : forall s0, i < Z.of_nat (length (pouch s0 owner)) ->
            exists entry, nth_error (pouch s0 owner) (Z.to_nat i) = Some entry
                          /\ getEntry s0 owner i = inr (createdAt entry, ciphertext entry)).
  { intros s0 Hlt. unfold getEntry.
    destruct (Z.geb_spec i (Z.of_nat (length (pouch s0 owner)))); [lia |].
    destruct (nth_error (pouch s0 owner) (Z.to_nat i)) as [entry |] eqn:Hn.
    - by exists entry.
    - apply nth_error_None in Hn. lia. }
  assert (Hout : Z.of_nat (length (pouch s owner)) <= i ->
            getEntry s owner i = inl (EntryIndexOutOfBounds owner i)).
  { intros Hge. unfold getEntry.
    by destruct (Z.geb_spec i (Z.of_nat (length (pouch s owner)))); [| lia]. }
  split; [| split; [| exact Hout]].
  - intros v txs Hv.
    destruct (Z.lt_ge_cases i (Z.of_nat (length (pouch s owner)))) as [Hlt | Hge];
      [| by rewrite Hout in Hv by lia].
    destruct (Hget s Hlt) as (entry & Hn & Hg). rewrite Hg in Hv. injection Hv as <-.
    unfold getEntry. rewrite pouch_run, length_app.
    destruct (Z.geb_spec i (Z.of_nat (length (pouch s owner)
                                      + length (stored_by owner txs s)))); [lia |].
    by rewrite nth_error_app1, Hn by lia.
  - unfold getEntryCount. split.
    + intros [v Hv].
      destruct (Z.lt_ge_cases i (Z.of_nat (length (pouch s owner)))) as [Hlt | Hge];
        [done | by rewrite Hout in Hv by lia].
    + intros Hlt. destruct (Hget s Hlt) as (entry & _ & Hg). by eexists.
Qed.

End LedgerInvariants.

(** * The tasks and the wagmi storage *)

Section TaskFacts.

Import SilentLedger Tasks.

Lemma list_loop_all s owner : forall (rest pre : list PouchEntry) (fuel : nat),
  pouch s owner = pre ++ rest ->
  (length rest <= fuel)%nat ->
  list_loop fuel s owner (Z.of_nat (length pre)) (Z.of_nat (length (pouch s owner)))
  = (imap (fun j entry => EntryLine (Z.of_nat (length pre + j)) (createdAt entry)
                            (ciphertext entry)) rest, None).
Proof.
  induction rest as [| entry rest IH]; intros pre fuel Hp Hf.
  - rewrite app_nil_r in Hp. rewrite Hp.
    destruct fuel; cbn [list_loop imap]; [done |].
    by destruct (Z.ltb_spec (Z.of_nat (length pre)) (Z.of_nat (length pre))); [lia |].
  - destruct fuel as [| fuel]; [cbn [length] in Hf; lia |].
    cbn [list_loop].
    assert (Hlen : (length pre < length (pouch s owner))%nat)
      by (rewrite Hp, length_app; cbn [length]; lia).
    destruct (Z.ltb_spec (Z.of_nat (length pre)) (Z.of_nat (length (pouch s owner))));
      [| lia].
    rewrite (getEntry_lookup s owner (length pre) entry)
      by (rewrite Hp, nth_error_app2, Nat.sub_diag by lia; done).
    specialize (IH (pre ++ [entry]) fuel).
    rewrite length_app in IH. cbn [length] in IH.
    replace (Z.of_nat (length pre) + 1) with (Z.of_nat (length pre + 1)) by lia.
    rewrite IH by (rewrite <- ?app_assoc; cbn [length] in Hf; (done || lia)).
    cbn [imap]. rewrite Nat.add_0_r. f_equal. f_equal.
    apply imap_ext. intros j x _. cbn. do 2 f_equal. lia.
Qed.

(** X19. The task [list-entries] writes the count and then one line for
    every entry of the owner's pouch, in index order, all of them (there is no
    limit of 25 as in the page), and no read of it reverts. *)
Theorem listEntries_complete (s : storage) (owner : address) :
  listEntries s owner
  = (EntryCount (getEntryCount s owner)
     :: imap (fun i entry => EntryLine (Z.of_nat i) (createdAt entry) (ciphertext entry))
          (pouch s owner),
     None).
Proof.
  unfold listEntries, getEntryCount. cbv zeta.
  rewrite (list_loop_all s owner (pouch s owner) [] _ eq_refl) by lia.
  reflexivity.
Qed.

End TaskFacts.

Section StorageFacts.

Import WagmiStorage.

Lemma run_leaves k ops : forall m,
  Forall (leaves k) ops -> getItem k (run ops m) = getItem k m.
Proof.
  induction ops as [| o ops IH]; intros m Hl; [done |].
  apply Forall_cons in Hl as [Ho Hl]. cbn [run fold_left].
  change (fold_left _ ops ?x) with (run ops x). rewrite IH by done.
  unfold getItem, memory in *. destruct o as [k' v | k']; unfold leaves in Ho; unfold apply.
  - unfold setItem, memory. by rewrite lookup_insert_ne.
  - unfold removeItem, memory. by rewrite lookup_delete_ne.
Qed.

(** X20. The storage given to wagmi is a map kept in memory: it starts
    empty, and what [getItem] answers for a key is decided by the last
    [setItem] or [removeItem] on that key, the value set or [null]; operations
    on other keys do not matter. *)
Theorem storage_last_write (k : Js.jsstring) (pre post : list op) (m : memory) :
  Forall (leaves k) post ->
  getItem k empty = None
  /\ (forall v, getItem k (run (pre ++ SetItem k v :: post) m) = Some v)
  /\ getItem k (run (pre ++ RemoveItem k :: post) m) = None
  /\ getItem k (run post m) = getItem k m.
Proof.
  intros Hl. split; [done | split; [| split]].
  - intros v. unfold run. rewrite fold_left_app. cbn [fold_left].
    change (fold_left _ post ?x) with (run post x). rewrite run_leaves by done.
    unfold getItem, apply, setItem, memory. by rewrite lookup_insert_eq.
  - unfold run. rewrite fold_left_app. cbn [fold_left].
    change (fold_left _ post ?x) with (run post x). rewrite run_leaves by done.
    unfold getItem, apply, removeItem, memory. by rewrite lookup_delete_eq.
  - by apply run_leaves.
Qed.

End StorageFacts.

(** * Further properties of [LedgerApp.tsx] *)

Section ViewFacts.

Import LedgerApp LedgerView.

Variable pf : platform.

(** X21. [shortHex] leaves a value of at most [2 * size + 2] units as it
    is; a longer one becomes its first [size + 2] units, an ellipsis and its
    last [size] units, [2 * size + 3] units in all, when [size] is at least 1.
    With [size] 0 the last part is [value.slice(-0)], the whole value, and the
    result is longer than the value. *)
Theorem shortHex_shape (value : Js.jsstring) (size : Z) :
  0 <= size ->
  let len := Z.of_nat (length value) in
  (len <= 2 * size + 2 -> shortHex value size = value)
  /\ (2 * size + 2 < len -> 1 <= size ->
      shortHex value size
      = firstn (Z.to_nat (size + 2)) value ++ [0x2026]
        ++ skipn (length value - Z.to_nat size) value
      /\ Z.of_nat (length (shortHex value size)) = 2 * size + 3)
  /\ (2 < len -> shortHex value 0 = firstn 2 value ++ [0x2026] ++ value).
Proof.
  intros Hs len.
  assert (Hlong : forall sz, 0 <= sz -> 2 * sz + 2 < len ->
            shortHex value sz
            = firstn (Z.to_nat (sz + 2)) value ++ [0x2026]
              ++ slice value (- sz) None).
  { intros sz Hsz Hlen. unfold shortHex. fold len.
    destruct (Z.leb_spec len (sz * 2 + 2)); [lia |].
    f_equal. unfold slice, relative. fold len. cbn [Z.ltb Z.compare].
    destruct (Z.ltb_spec (sz + 2) 0); [lia |].
    rewrite (Z.min_l 0 len), (Z.min_l (sz + 2) len), Z.sub_0_r by lia.
    reflexivity. }
  split; [| split].
  - intros Hlen. unfold shortHex. fold len.
    by destruct (Z.leb_spec len (size * 2 + 2)); [| lia].
  - intros Hlen H1. rewrite Hlong by done.
    assert (Htail : slice value (- size) None
                    = skipn (length value - Z.to_nat size) value).
    { unfold slice, relative. fold len.
      destruct (Z.ltb_spec (- size) 0); [| lia].
      rewrite Z.max_l by lia.
      replace (Z.to_nat (len + - size)) with (length value - Z.to_nat size)%nat by lia.
      apply firstn_all2. rewrite length_skipn. lia. }
    rewrite Htail. split; [done |].
    rewrite !length_app, length_firstn, length_skipn. cbn [length]. lia.
  - intros Hlen. rewrite Hlong by lia. do 2 f_equal.
    unfold slice, relative. fold len. cbn [Z.opp Z.ltb Z.compare].
    rewrite Z.min_l, Z.sub_0_r by lia. cbn [Z.to_nat skipn].
    apply firstn_all2. lia.
Qed.

(** X22. An entry whose decryption gave the empty string, or failed with an
    error whose message is empty, is rendered as still "Decrypting..." although
    its decryption has settled; every other settled entry shows its plaintext
    or its error. The encryption of the empty string is such an entry, under
    every key and nonce. *)
Theorem settled_shown_as_decrypting (key : Js.jsstring) (entry : Entry) :
  key <> [] ->
  plaintext entry = None -> decryptError entry = None ->
  let shown := plaintextCell (Some key) (decryptEntry pf key entry) in
  let result :=
    LedgerCrypto.outcome (LedgerCrypto.decryptWithAddressKey (ciphertext entry) key) in
  (result = inr [] -> shown = DecryptingHint)
  /\ (forall c p, result = inr (c :: p) -> shown = PlaintextCell (c :: p))
  /\ (forall err, result = inl err -> LedgerApp.message pf err = [] ->
        shown = DecryptingHint)
  /\ (forall err c m, result = inl err -> LedgerApp.message pf err = c :: m ->
        shown = ErrorCallout (c :: m))
  /\ (forall rng,
        LedgerCrypto.address_shape key ->
        LedgerCrypto.outcome (LedgerCrypto.encryptWithAddressKey rng [] key)
        = inr (ciphertext entry) ->
        shown = DecryptingHint).
Proof.
  intros Hk Hp He shown result.
  assert (Hshown : match result with
                   | inr [] => shown = DecryptingHint
                   | inr (c :: p) => shown = PlaintextCell (c :: p)
                   | inl err =>
                       match LedgerApp.message pf err with
                       | [] => shown = DecryptingHint
                       | c :: m => shown = ErrorCallout (c :: m)
                       end
                   end).
  { unfold shown, result, plaintextCell, decryptEntry.
    rewrite Hp, He. cbn [is_defined orb].
    destruct key as [| k0 key]; [done |]. cbn [Js.truthy negb].
    destruct (LedgerCrypto.outcome _) as [err | [| c p]]; cbn; try done.
    by destruct (LedgerApp.message pf err). }
  split; [| split; [| split; [| split]]].
  - intros Hr. by rewrite Hr in Hshown.
  - intros c p Hr. by rewrite Hr in Hshown.
  - intros err Hr Hm. by rewrite Hr, Hm in Hshown.
  - intros err c m Hr Hm. by rewrite Hr, Hm in Hshown.
  - intros rng Hshape Henc.
    destruct (decrypt_encrypt rng [] key (ciphertext entry) Hshape (List.Forall_nil _) Henc)
      as [_ Hdec].
    change (Utf8.decode (Utf8.encode [])) with (@nil Z) in Hdec.
    fold result in Hdec. by rewrite Hdec in Hshown.
Qed.

Lemma decryptEntry_decided key entry :
  is_defined (plaintext entry) || is_defined (decryptError entry) = true ->
  decryptEntry pf key entry = entry.
Proof. intros H. unfold decryptEntry. by rewrite H. Qed.

Lemma existsb_undecided_false (es : list Entry) :
  Forall (fun e => is_defined (plaintext e) || is_defined (decryptError e) = true) es ->
  existsb (fun e => negb (is_defined (plaintext e)) && negb (is_defined (decryptError e))) es
  = false.
Proof.
  induction 1 as [| e es He _ IH]; [done |]. cbn [existsb]. rewrite IH, orb_false_r.
  by destruct (is_defined (plaintext e)), (is_defined (decryptError e)).
Qed.

Lemma existsb_undecided_true (es : list Entry) :
  existsb (fun e => negb (is_defined (plaintext e)) && negb (is_defined (decryptError e))) es
  = false ->
  Forall (fun e => is_defined (plaintext e) || is_defined (decryptError e) = true) es.
Proof.
  induction es as [| e es IH]; [constructor |]. cbn [existsb].
  intros [He Hes]%orb_false_iff. constructor; [| by apply IH].
  by destruct (is_defined (plaintext e)), (is_defined (decryptError e)).
Qed.

(** The entries after the decrypt effect under a key. *)
Lemma decryptEffect_unlocked (c : Z) (k : Js.jsstring) order a :
  ledgerKeyAddress a = Some (c :: k) ->
  order ≡ₚ seq 0 (length (entries a)) ->
  entries (decryptEffect pf order a) = List.map (decryptEntry pf (c :: k)) (entries a).
Proof.
  intros Hk Hperm. unfold decryptEffect. rewrite Hk.
  destruct (existsb _ (entries a)) eqn:Hex.
  - unfold decryptAll.
    rewrite <- (map_map (decryptEntry pf (c :: k)) inr).
    rewrite all_fulfilled by (by rewrite length_map). done.
  - apply existsb_undecided_true in Hex. symmetry.
    rewrite <- (map_id (entries a)) at 2. apply map_ext_in. intros e He.
    apply decryptEntry_decided. by apply (proj1 (List.Forall_forall _ _) Hex).
Qed.

(** X23. A result, once recorded on an entry, stays: [decryptEntry] leaves
    an entry with a plaintext or an error as it is, whatever the key; so once
    the effect has run under one key, running it under another key changes no
    entry, and the plaintexts and errors of the first key are shown until the
    ledger is locked. *)
Theorem results_stick (k1 k2 : Js.jsstring) (c1 c2 : Z) (order1 order2 : list nat)
    (a : state) :
  ledgerKeyAddress a = Some (c1 :: k1) ->
  order1 ≡ₚ seq 0 (length (entries a)) ->
  let a1 := decryptEffect pf order1 a in
  let a2 := decryptEffect pf order2 (set_ledgerKeyAddress (Some (c2 :: k2)) a1) in
  (forall entry, decryptEntry pf (c2 :: k2) (decryptEntry pf (c1 :: k1) entry)
                 = decryptEntry pf (c1 :: k1) entry)
  /\ entries a2 = entries a1
  /\ entries a1 = List.map (decryptEntry pf (c1 :: k1)) (entries a).
Proof.
  intros Hk Hperm a1 a2.
  pose proof (decryptEffect_unlocked c1 k1 order1 a Hk Hperm) as H1. fold a1 in H1.
  split; [| split; [| done]].
  - intros entry. apply decryptEntry_decided, decryptEntry_recorded.
  - unfold a2, decryptEffect. cbn [ledgerKeyAddress set_ledgerKeyAddress entries].
    rewrite H1, existsb_undecided_false; [done |].
    apply Forall_forall. intros e He.
    apply list_elem_of_In, in_map_iff in He as (e0 & <- & _). apply decryptEntry_recorded.
Qed.

Lemma indices_length count : length (indices count) = Z.to_nat (Z.min count 25).
Proof.
  unfold indices, LedgerApp.max. rewrite length_map, length_seq. lia.
Qed.

Lemma indices_In count x :
  0 <= count -> In x (indices count) <-> Z.max 0 (count - 25) <= x < count.
Proof.
  intros Hc. unfold indices, LedgerApp.max. cbv zeta. rewrite in_map_iff. split.
  - intros (i & <- & Hi%in_seq). lia.
  - intros Hx. exists (Z.to_nat (x - Z.max 0 (count - 25))). split; [lia |].
    apply in_seq. lia.
Qed.

(** X24. [refresh] asks for the newest entries only, at most 25 of them:
    for a count [n] it fetches the indices from [max(0, n - 25)] to [n - 1], in
    this order, and none for a count of zero. *)
Theorem refresh_window (count : Z) :
  0 <= count ->
  indices count
  = List.map (fun i => Z.max 0 (count - 25) + Z.of_nat i) (seq 0 (Z.to_nat (Z.min count 25)))
  /\ (length (indices count) <= 25)%nat
  /\ (forall x, In x (indices count) <-> Z.max 0 (count - 25) <= x < count)
  /\ (count = 0 -> indices count = []).
Proof.
  intros Hc.
  assert (Heq : indices count
                = List.map (fun i => Z.max 0 (count - 25) + Z.of_nat i)
                    (seq 0 (Z.to_nat (Z.min count 25)))).
  { unfold indices, LedgerApp.max. cbv zeta. f_equal. f_equal. lia. }
  split; [done | split; [| split]].
  - rewrite indices_length. lia.
  - intros x. by apply indices_In.
  - intros ->. reflexivity.
Qed.

End ViewFacts.

Lemma lookup_nth_error {A} (l : list A) : forall i, l !! i = nth_error l i.
Proof. induction l as [| x l IH]; intros [| i]; cbn; try done. Qed.

Section PromiseRejects.
Context {E A : Type}.

(** A rejected task that settles rejects the whole, with the reason of
    the first rejection to settle. *)
Lemma settle_rejected (results : list (E + A)) : forall order (values : list (option A)),
  (exists k e, k ∈ order /\ results !! k = Some (inl e)) ->
  exists k e, k ∈ order /\ results !! k = Some (inl e)
              /\ Promise.settle order results values = inl e.
Proof.
  induction order as [| j order IH]; intros values (k & e & Hin & Hk).
  - by apply elem_of_nil in Hin.
  - cbn [Promise.settle].
    destruct (results !! j) as [[e' | v] |] eqn:Hj.
    + exists j, e'. split; [apply list_elem_of_here | done].
    + apply elem_of_cons in Hin as [-> | Hin]; [congruence |].
      destruct (IH (<[j := Some v]> values)) as (k' & e'' & Hin' & Hk' & Hs);
        [by exists k, e |].
      exists k', e''. split; [by apply list_elem_of_further | done].
    + apply elem_of_cons in Hin as [-> | Hin]; [congruence |].
      destruct (IH values) as (k' & e'' & Hin' & Hk' & Hs); [by exists k, e |].
      exists k', e''. split; [by apply list_elem_of_further | done].
Qed.

Lemma all_rejected (results : list (E + A)) (order : list nat) :
  (exists k e, k ∈ order /\ results !! k = Some (inl e)) ->
  exists k e, results !! k = Some (inl e) /\ Promise.all order results = Some (inl e).
Proof.
  intros H. unfold Promise.all.
  destruct (settle_rejected results order (repeat None (length results)) H)
    as (k & e & _ & Hk & ->).
  by exists k, e.
Qed.




End PromiseRejects.

Section RefreshFacts.

Import LedgerApp LedgerView.

(** X25. When a read of an entry is rejected, [refresh] shows the message
    of the first rejection to settle and keeps the entries it had: the list on
    the page is the one of before, beside the new count and key handle. *)
Theorem refresh_failure_keeps_entries {E : Type} (text : E -> Js.jsstring)
    (encryptedKey count : Z) (read : Z -> E + Z * Js.jsstring) (order : list nat)
    (a : state) (i : Z) (e : E) :
  order ≡ₚ seq 0 (length (indices count)) ->
  In i (indices count) -> read i = inl e ->
  let a' := refresh text true encryptedKey count read order a in
  entries a' = entries a
  /\ entryCount a' = count
  /\ encryptedLedgerKey a' = Some encryptedKey
  /\ ledgerKeyAddress a' = ledgerKeyAddress a
  /\ status a' = []
  /\ exists j e', In j (indices count) /\ read j = inl e' /\ error a' = text e'.
Proof.
  intros Hperm Hi He a'.
  assert (Hrej : exists k e0, k ∈ order
            /\ List.map (fetchEntry read) (indices count) !! k = Some (inl e0)).
  { apply In_nth_error in Hi as [k Hk]. exists k, e. split.
    - rewrite Hperm. apply elem_of_seq.
      assert (k < length (indices count))%nat by (apply nth_error_Some; congruence). lia.
    - change (List.map ?f ?l) with (f <$> l). rewrite list_lookup_fmap.
      rewrite lookup_nth_error, Hk. cbn. unfold fetchEntry. by rewrite He. }
  destruct (all_rejected _ order Hrej) as (k & e0 & Hk & Hall).
  unfold a', refresh, fetchPouch. cbn [negb]. rewrite Hall.
  repeat (split; [done |]).
  change (List.map ?f ?l) with (f <$> l) in Hk. rewrite list_lookup_fmap in Hk.
  destruct (indices count !! k) as [j |] eqn:Hj; [| done]. cbn in Hk.
  unfold fetchEntry in Hk. destruct (read j) as [e1 | [t c]] eqn:Hr; [| done].
  injection Hk as ->. exists j, e0. split; [| done].
  apply list_elem_of_In. by eapply list_elem_of_lookup_2.
Qed.

(** X26. [refresh] against the contract, for an account with a ledger:
    no read reverts, the count and the key handle are those of the contract,
    and the entries are the last 25 of the pouch, or all when there are fewer,
    each under its index in the pouch, with its timestamp and its decoded
    string, and none decrypted yet. *)
Theorem refresh_on_chain (text : SilentLedger.error -> Js.jsstring)
    (abiString : bytes -> Js.jsstring) (s : SilentLedger.storage)
    (owner : SilentLedger.address) (order : list nat) (a : state) :
  SilentLedger.has s owner = true ->
  let n := length (SilentLedger.pouch s owner) in
  order ≡ₚ seq 0 (Nat.min n 25) ->
  let a' := refreshOnChain text abiString s owner order a in
  hasLedger a' = true
  /\ encryptedLedgerKey a' = Some (SilentLedger.key s owner)
  /\ entryCount a' = Z.of_nat n
  /\ error a' = []
  /\ length (entries a') = Nat.min n 25
  /\ forall j entry, entries a' !! j = Some entry ->
       exists stored,
         SilentLedger.pouch s owner !! (n - Nat.min n 25 + j)%nat = Some stored
         /\ index entry = Z.of_nat (n - Nat.min n 25 + j)
         /\ createdAt entry = SilentLedger.createdAt stored
         /\ ciphertext entry = abiString (SilentLedger.ciphertext stored)
         /\ plaintext entry = None
         /\ decryptError entry = None.
Proof.
  intros Hhas n Hperm a'.
  set (dflt := {| SilentLedger.createdAt := 0; SilentLedger.ciphertext := [] |}).
  set (mk := fun i : Z =>
    let stored := nth (Z.to_nat i) (SilentLedger.pouch s owner) dflt in
    {| index := i; createdAt := SilentLedger.createdAt stored;
       ciphertext := abiString (SilentLedger.ciphertext stored);
       plaintext := None; decryptError := None |}).
  assert (Hlen : length (indices (Z.of_nat n)) = Nat.min n 25)
    by (rewrite indices_length; lia).
  assert (Hmap : List.map (fetchEntry (readEntry abiString s owner)) (indices (Z.of_nat n))
                 = List.map inr (List.map mk (indices (Z.of_nat n)))).
  { rewrite map_map. apply map_ext_in. intros i Hi.
    apply (indices_In (Z.of_nat n)) in Hi; [| lia].
    unfold fetchEntry, readEntry, mk. cbv zeta.
    assert (Hnth : nth_error (SilentLedger.pouch s owner) (Z.to_nat i)
                   = Some (nth (Z.to_nat i) (SilentLedger.pouch s owner) dflt))
      by (apply nth_error_nth'; fold n; lia).
    pose proof (getEntry_lookup s owner (Z.to_nat i) _ Hnth) as Hg.
    rewrite Z2Nat.id in Hg by lia. by rewrite Hg. }
  assert (Hentries : entries a' = List.map mk (indices (Z.of_nat n))).
  { unfold a', refreshOnChain, refresh, fetchPouch, SilentLedger.hasLedger,
      SilentLedger.getEntryCount. fold n. rewrite Hhas. cbn [negb].
    rewrite Hmap, all_fulfilled by (by rewrite length_map, Hlen). done. }
  assert (Hrest : hasLedger a' = true
            /\ encryptedLedgerKey a' = Some (SilentLedger.key s owner)
            /\ entryCount a' = Z.of_nat n /\ error a' = []).
  { unfold a', refreshOnChain, refresh, fetchPouch, SilentLedger.hasLedger,
      SilentLedger.getEntryCount, SilentLedger.getLedgerKey. fold n. rewrite Hhas.
    cbn [negb]. rewrite Hmap, all_fulfilled by (by rewrite length_map, Hlen). done. }
  destruct Hrest as (H1 & H2 & H3 & H4).
  repeat (split; [done |]). split; [by rewrite Hentries, length_map |].
  intros j entry Hj. rewrite Hentries in Hj.
  change (List.map mk ?l) with (mk <$> l) in Hj. rewrite list_lookup_fmap in Hj.
  destruct (indices (Z.of_nat n) !! j) as [i |] eqn:Hi; [| done].
  cbn in Hj. injection Hj as <-.
  pose proof (lookup_lt_Some _ _ _ Hi) as Hjlt. rewrite Hlen in Hjlt.
  apply indices_lookup in Hi. unfold LedgerApp.max in Hi.
  assert (Hidx : i = Z.of_nat (n - Nat.min n 25 + j)) by lia.
  exists (nth (Z.to_nat i) (SilentLedger.pouch s owner) dflt).
  split; [| by rewrite Hidx at 1].
  rewrite lookup_nth_error.
  replace (n - Nat.min n 25 + j)%nat with (Z.to_nat i) by lia.
  apply nth_error_nth'. fold n. lia.
Qed.

End RefreshFacts.

Section StoreFacts.

Import LedgerApp LedgerView.

Variable pf : platform.

Lemma skip_spaces_split s :
  exists p, s = p ++ Js.skip_spaces s /\ Forall (fun c => Js.is_space c = true) p.
Proof.
  induction s as [| c s (p & Hs & Hp)]; [by exists [] |].
  cbn [Js.skip_spaces]. destruct (Js.is_space c) eqn:Hc.
  - exists (c :: p). split; [by rewrite Hs at 1 | by constructor].
  - by exists [].
Qed.

Lemma skip_spaces_head s c r : Js.skip_spaces s = c :: r -> Js.is_space c = false.
Proof.
  induction s as [| d s IH]; [done |]. cbn [Js.skip_spaces].
  destruct (Js.is_space d) eqn:Hd; [done |]. by intros [= <- _].
Qed.

(** [trim] takes white space off both ends, and only that. *)
Lemma trim_split s :
  exists p q, s = p ++ trim s ++ q
              /\ Forall (fun c => Js.is_space c = true) p
              /\ Forall (fun c => Js.is_space c = true) q.
Proof.
  destruct (skip_spaces_split s) as (p & Hs & Hp).
  destruct (skip_spaces_split (rev (Js.skip_spaces s))) as (q & Hr & Hq).
  exists p, (rev q). split; [| split; [done | by apply List.Forall_rev]].
  unfold trim. rewrite <- rev_app_distr, <- Hr, rev_involutive. exact Hs.
Qed.

Lemma trim_head s c r : trim s = c :: r -> Js.is_space c = false.
Proof.
  intros Ht.
  destruct (skip_spaces_split (rev (Js.skip_spaces s))) as (q & Hr & Hq).
  apply (f_equal (@rev Z)) in Hr. rewrite rev_involutive, rev_app_distr in Hr.
  fold (trim s) in Hr. rewrite Ht in Hr.
  by apply (skip_spaces_head s c (r ++ rev q)).
Qed.

Lemma space_range c : Js.is_space c = true -> 0 <= c < 0xD800 \/ c = 0xFEFF.
Proof.
  unfold Js.is_space. intros H.
  repeat match type of H with
         | (_ || _) = true => apply orb_true_iff in H as [H | H]
         end;
  repeat match type of H with
         | (_ && _) = true => apply andb_true_iff in H as [? H]
         end;
  repeat match goal with
         | H : (_ <=? _) = true |- _ => apply Z.leb_le in H
         | H : (_ =? _) = true |- _ => apply Z.eqb_eq in H
         end; lia.
Qed.

Lemma space_plain c :
  Js.is_space c = true ->
  Utf8.is_high_surrogate c = false /\ Utf8.is_low_surrogate c = false.
Proof.
  intros H%space_range. unfold Utf8.is_high_surrogate, Utf8.is_low_surrogate.
  destruct (Z.leb_spec 0xD800 c), (Z.leb_spec c 0xDBFF), (Z.leb_spec 0xDC00 c),
    (Z.leb_spec c 0xDFFF); cbn; try done; lia.
Qed.

Lemma well_formed_spaces q :
  Forall (fun c => Js.is_space c = true) q -> Utf8.well_formed q = true.
Proof.
  induction 1 as [| c q Hc _ IH]; [done |].
  rewrite well_formed_cons. destruct (space_plain c Hc) as [-> ->]. by rewrite IH.
Qed.

Lemma well_formed_spaces_l p x :
  Forall (fun c => Js.is_space c = true) p ->
  Utf8.well_formed (p ++ x) = Utf8.well_formed x.
Proof.
  induction 1 as [| c p Hc _ IH]; [done |].
  cbn [app]. rewrite well_formed_cons. destruct (space_plain c Hc) as [-> ->].
  by rewrite IH.
Qed.

Lemma well_formed_spaces_r q :
  Forall (fun c => Js.is_space c = true) q ->
  forall x, Utf8.well_formed (x ++ q) = Utf8.well_formed x.
Proof.
  intros Hq x. induction x as [| c | c d r IHr IHdr] using units_ind.
  - by apply well_formed_spaces.
  - cbn [app]. rewrite !well_formed_cons.
    destruct (Utf8.is_high_surrogate c).
    + destruct Hq as [| e q He _]; [done |]. by destruct (space_plain e He) as [_ ->].
    + by rewrite well_formed_spaces.
  - cbn [app]. rewrite (well_formed_cons c (d :: r ++ q)), (well_formed_cons c (d :: r)).
    destruct (Utf8.is_high_surrogate c).
    + by rewrite IHr.
    + change (d :: r ++ q) with ((d :: r) ++ q). by rewrite IHdr.
Qed.

Lemma trim_well_formed s : Utf8.well_formed (trim s) = Utf8.well_formed s.
Proof.
  destruct (trim_split s) as (p & q & Hs & Hp & Hq).
  rewrite Hs at 2. by rewrite well_formed_spaces_l, well_formed_spaces_r.
Qed.

Lemma trim_units s : Forall Js.code_unit s -> Forall Js.code_unit (trim s).
Proof.
  intros H. destruct (trim_split s) as (p & q & Hs & _ & _).
  rewrite Hs in H. apply Forall_app in H as [_ H]. by apply Forall_app in H as [H _].
Qed.

Lemma trim_no_bom s r : trim s <> 0xFEFF :: r.
Proof. intros H. by apply trim_head in H. Qed.

(** X27. What [storeMessage] stores is read back: under a well-formed key
    and for a message without lone surrogate that is not all white space, the
    ciphertext handed to [storeEntry] is one that [decryptEntry] turns into the
    trimmed message under the same key. Trimming takes off a leading U+FEFF,
    so the message the page shows is always the one that was sent. *)
Theorem stored_message_round_trip (rng : nat -> Z) (w : wallet) (click : form)
    (key : Js.jsstring) :
  storeMessage_guard w click = None ->
  ledgerKeyAddress (inner click) = Some key ->
  isAddress key = true ->
  Forall Js.code_unit (message click) ->
  Utf8.well_formed (message click) = true ->
  exists c,
    LedgerCrypto.outcome (storeMessage_ciphertext rng click) = inr c
    /\ trim (message click) <> []
    /\ forall i t,
         decryptEntry pf key
           {| index := i; createdAt := t; ciphertext := c;
              plaintext := None; decryptError := None |}
         = {| index := i; createdAt := t; ciphertext := c;
              plaintext := Some (trim (message click)); decryptError := None |}.
Proof.
  intros Hg Hk Ha Hu Hwf.
  assert (Hne : trim (message click) <> []).
  { unfold storeMessage_guard in Hg.
    repeat match type of Hg with
           | (if ?b then _ else _) = None => destruct b eqn:?; [done |]
           end.
    intros He. by rewrite He in *. }
  unfold isAddress in Ha. apply ADDRESS_RE_shape in Ha.
  unfold storeMessage_ciphertext. rewrite Hk. cbn [default]. unfold id.
  destruct (encrypt_succeeds rng (trim (message click)) key Ha) as [c Hc].
  exists c. split; [exact Hc | split; [exact Hne |]].
  intros i t. unfold decryptEntry. cbn [plaintext decryptError is_defined orb ciphertext].
  destruct (decrypt_encrypt rng (trim (message click)) key c Ha (trim_units _ Hu) Hc)
    as [_ ->].
  rewrite utf8_decode_encode;
    [done | by apply trim_units | by rewrite trim_well_formed | apply trim_no_bom].
Qed.

Lemma refreshWith_status r a : status (refreshWith r a) = [].
Proof.
  destruct r as [| | m | m | k m | has k count read order]; try done.
  unfold refreshWith, refresh. destruct has; cbn [negb]; [| done].
  by destruct (fetchPouch read count order) as [[e | pouch] |].
Qed.

(** X28. The words "Ledger created." and "Entry stored." are set and
    cleared in the same turn: the [refresh] a handler awaits after the receipt
    starts by clearing the messages, so once the handler has settled after a
    mined transaction the status is empty, the message field is empty after a
    store, and the busy flag is down. *)
Theorem success_word_cleared (rng : nat -> Z) (click x : form) (c hash : Js.jsstring)
    (chain : Js.jsstring -> sent) (r : refreshing) :
  LedgerCrypto.outcome (storeMessage_ciphertext rng click) = inr c ->
  chain c = Mined hash ->
  let stored := storeMessage_end pf rng click (inr tt) chain r x in
  let created := createLedger_end (Mined hash) r x in
  status (inner stored) = [] /\ message stored = [] /\ isStoring stored = false
  /\ status (inner created) = [] /\ isCreating created = false.
Proof.
  intros Hc Hm stored created. unfold stored, created, storeMessage_end, createLedger_end.
  rewrite Hc, Hm. cbn [settled on_inner inner message isStoring isCreating set_isStoring
                       set_isCreating set_message].
  by rewrite !refreshWith_status.
Qed.

End StoreFacts.

Section EffectFacts.

Import LedgerApp LedgerView.

Variable pf : platform.

Lemma same_key_refl k : same_key k k = true.
Proof. destruct k as [k |]; [| done]. by apply str_eqb_eq. Qed.

(** X29. The decrypt effect depends on the count and the key only, so a
    [refresh] under a held key whose entries all have their result leaves the
    fetched entries undecrypted: the commit of the count runs the effect, if at
    all, on the old entries, which need nothing, and the commit of the fetched
    entries changes neither dependency. The page then shows "Decrypting..." for
    every entry. *)
Theorem refreshed_entries_stay_undecrypted {E : Type} (text : E -> Js.jsstring)
    (encryptedKey count : Z) (answer : Z -> Z * Js.jsstring)
    (order effect1 effect2 : list nat) (a : state) (c : Z) (key : Js.jsstring) :
  ledgerKeyAddress a = Some (c :: key) ->
  Forall (fun e => is_defined (plaintext e) || is_defined (decryptError e) = true)
         (entries a) ->
  order ≡ₚ seq 0 (length (indices count)) ->
  let read := fun i => inr (answer i) : E + Z * Js.jsstring in
  let a' := refresh_commits pf text encryptedKey count read order effect1 effect2 a in
  a' = refresh text true encryptedKey count read order a
  /\ ledgerKeyAddress a' = Some (c :: key)
  /\ List.map index (entries a') = indices count
  /\ Forall (fun e => plaintext e = None /\ decryptError e = None
                      /\ plaintextCell (ledgerKeyAddress a') e = DecryptingHint)
            (entries a').
Proof.
  intros Hk Hdec Hperm read a'.
  set (mk := fun i : Z =>
    {| index := i; createdAt := fst (answer i); ciphertext := snd (answer i);
       plaintext := None; decryptError := None |}).
  assert (Hfetch : fetchPouch read count order = Some (inr (List.map mk (indices count)))).
  { unfold fetchPouch.
    assert (Hmap : List.map (fetchEntry read) (indices count)
                   = List.map inr (List.map mk (indices count))).
    { rewrite map_map. apply map_ext. intros i. unfold fetchEntry, read, mk.
      by destruct (answer i). }
    rewrite Hmap. apply all_fulfilled. by rewrite length_map. }
  assert (H1 : commit pf effect1 a (refresh_counted encryptedKey count a)
               = refresh_counted encryptedKey count a).
  { unfold commit. destruct (depsChanged _ _); [| done].
    unfold decryptEffect. cbn [refresh_counted ledgerKeyAddress set_entryCount
      set_encryptedLedgerKey set_hasLedger clearMessages set_error set_status entries].
    rewrite Hk. by rewrite existsb_undecided_false. }
  assert (Ha' : a' = set_entries (List.map mk (indices count))
                       (refresh_counted encryptedKey count a)).
  { unfold a', refresh_commits. rewrite H1, Hfetch. unfold commit.
    assert (depsChanged (refresh_counted encryptedKey count a)
              (set_entries (List.map mk (indices count))
                 (refresh_counted encryptedKey count a)) = false) as ->; [| done].
    unfold depsChanged.
    cbn [refresh_counted ledgerKeyAddress entryCount set_entries set_entryCount
      set_encryptedLedgerKey set_hasLedger clearMessages set_error set_status].
    by rewrite Z.eqb_refl, same_key_refl. }
  split; [| split; [| split]].
  - rewrite Ha'. unfold refresh. cbn [negb]. by rewrite Hfetch.
  - by rewrite Ha'.
  - rewrite Ha'. cbn [entries set_entries]. rewrite map_map. apply map_id.
  - rewrite Ha'. cbn [entries set_entries]. apply Forall_forall. intros e He.
    apply list_elem_of_In, in_map_iff in He as (i & <- & _).
    cbn [ledgerKeyAddress set_entries refresh_counted set_entryCount
      set_encryptedLedgerKey set_hasLedger clearMessages set_error set_status].
    by rewrite Hk.
Qed.

End EffectFacts.

Section PageInvariants.

Import LedgerApp LedgerView.

Variable pf : platform.
















End PageInvariants.

(** * Instances *)

Lemma three_bytes : Forall byte [1; 2; 3; 250].
Proof. repeat (constructor; [unfold byte; lia |]). constructor. Defined.

Lemma mixed_case_shape :
  LedgerCrypto.address_shape (Js.lit "0xABCDEF0123456789abcdefABCDEF0123456789ab").
Proof.
  exists (Js.lit "ABCDEF0123456789abcdefABCDEF0123456789ab").
  split; [reflexivity | split; [reflexivity |]]. repeat constructor.
Defined.

Lemma lower_case_shape :
  LedgerCrypto.address_shape (Js.lit "0xabcdef0123456789abcdefabcdef0123456789ab").
Proof.
  exists (Js.lit "abcdef0123456789abcdefabcdef0123456789ab").
  split; [reflexivity | split; [reflexivity |]]. repeat constructor.
Defined.

Lemma hexToBytes_address_witness :
  length (LedgerCrypto.hexToBytes zero_key) = 20%nat
  /\ Forall byte (LedgerCrypto.hexToBytes zero_key).
Proof.
  destruct (hexToBytes_address zero_key zero_key_shape) as (H1 & H2 & _).
  split; [exact H1 | exact H2].
Defined.

Lemma key_case_insensitive_witness :
  LedgerCrypto.aes_key (Js.lit "0xABCDEF0123456789abcdefABCDEF0123456789ab")
  = LedgerCrypto.aes_key (Js.lit "0xabcdef0123456789abcdefabcdef0123456789ab").
Proof.
  exact (proj1 (key_case_insensitive _ _ mixed_case_shape lower_case_shape eq_refl)).
Defined.

Lemma base64_round_trip_witness :
  LedgerCrypto.base64ToBytes (LedgerCrypto.bytesToBase64 [1; 2; 3; 250])
  = ([], inr [1; 2; 3; 250]).
Proof. exact (base64_round_trip [1; 2; 3; 250] three_bytes). Defined.

Lemma bytesToBase64_shape_witness :
  length (LedgerCrypto.bytesToBase64 [1; 2; 3; 250]) = 8%nat.
Proof. exact (proj1 (bytesToBase64_shape [1; 2; 3; 250] three_bytes)). Defined.


Lemma wire_format_witness :
  exists w ivB64 cipherB64,
    LedgerCrypto.outcome
      (LedgerCrypto.encryptWithAddressKey zero_rng (Js.lit "hello") zero_key) = inr w
    /\ Js.split 58 w = [Js.lit "sl1"; ivB64; cipherB64]
    /\ length ivB64 = 16%nat.
Proof.
  destruct (wire_format zero_rng (Js.lit "hello") zero_key zero_key_shape hello_units)
    as (w & a & b & H1 & H2 & _ & H3 & _).
  exists w, a, b. split; [exact H1 | split; [exact H2 | exact H3]].
Defined.

Lemma trailing_segments_ignored_witness :
  LedgerCrypto.decryptWithAddressKey
    (Js.lit "sl1:AAAA:BBBB" ++ Js.lit ":" ++ Js.lit "anything") zero_key
  = LedgerCrypto.decryptWithAddressKey (Js.lit "sl1:AAAA:BBBB") zero_key.
Proof.
  apply (trailing_segments_ignored (Js.lit "sl1:AAAA:BBBB") (Js.lit "anything") zero_key).
  simpl. lia.
Defined.

Lemma short_ciphertext_witness :
  LedgerCrypto.outcome (LedgerCrypto.decryptWithAddressKey (Js.lit "sl1:AAAA:AAAA") zero_key)
  = inl LedgerCrypto.OperationError.
Proof.
  rewrite (short_ciphertext (Js.lit "sl1:AAAA:AAAA") zero_key [0; 0; 0] [0; 0; 0]
             zero_key_shape).
  - reflexivity.
  - reflexivity.
  - simpl. lia.
Defined.

Lemma whitespace_ignored_witness :
  LedgerCrypto.decryptWithAddressKey (Js.lit "sl1:AA AA:BBBB") zero_key
  = LedgerCrypto.decryptWithAddressKey (Js.lit "sl1:AAAA:BBBB") zero_key.
Proof.
  refine (proj1 (whitespace_ignored (Js.lit "AA") (Js.lit "AA") (Js.lit "BB") (Js.lit "BB")
                   zero_key 32 _ _ _ _ _)).
  - reflexivity.
  - repeat (constructor; [simpl; lia |]). constructor.
  - repeat (constructor; [simpl; lia |]). constructor.
  - discriminate.
  - discriminate.
Defined.


Lemma owner_isolation_witness :
  let accept := fun (k : Z) (_ : bytes) (_ : SilentLedger.address) => Some k in
  let e := {| SilentLedger.msg_sender := 7; SilentLedger.block_timestamp := 100 |} in
  let t := {| SilentLedger.tx_env := e; SilentLedger.tx_call := SilentLedger.CreateLedger 5 [] |} in
  SilentLedger.has (SilentLedger.execute 1 accept t SilentLedger.genesis) 8 = false
  /\ SilentLedger.has (SilentLedger.execute 1 accept t SilentLedger.genesis) 7 = true.
Proof.
  intros accept e t. split; [| reflexivity].
  rewrite (proj1 (owner_isolation 1 accept t SilentLedger.genesis 8 ltac:(vm_compute; discriminate))).
  reflexivity.
Defined.

Lemma no_ledger_nothing_stored_witness :
  let accept := fun (k : Z) (_ : bytes) (_ : SilentLedger.address) => Some k in
  let e := {| SilentLedger.msg_sender := 7; SilentLedger.block_timestamp := 100 |} in
  let s := SilentLedger.run 1 accept
             [ {| SilentLedger.tx_env := e;
                  SilentLedger.tx_call := SilentLedger.StoreEntry (Js.lit "ciphertext:one") |} ]
             SilentLedger.genesis in
  SilentLedger.getEntryCount s 7 = 0
  /\ SilentLedger.getLedgerKey s 7 = inl (SilentLedger.LedgerNotFound 7).
Proof.
  intros accept e s.
  destruct (no_ledger_nothing_stored 1 accept
              [ {| SilentLedger.tx_env := e;
                   SilentLedger.tx_call := SilentLedger.StoreEntry (Js.lit "ciphertext:one") |} ]
              7 eq_refl) as (H1 & _ & H2 & _).
  split; [exact H1 | exact H2].
Defined.

Lemma current_key_allowed_witness :
  let accept := fun (k : Z) (_ : bytes) (_ : SilentLedger.address) => Some k in
  let e := {| SilentLedger.msg_sender := 7; SilentLedger.block_timestamp := 100 |} in
  let s := SilentLedger.run 1 accept
             [ {| SilentLedger.tx_env := e; SilentLedger.tx_call := SilentLedger.CreateLedger 5 [] |};
               {| SilentLedger.tx_env := e;
                  SilentLedger.tx_call := SilentLedger.RotateLedgerKey 6 [] |} ]
             SilentLedger.genesis in
  SilentLedger.key s 7 = 6
  /\ (SilentLedger.key s 7, 7) ∈ SilentLedger.allowed s
  /\ (SilentLedger.key s 7, 1) ∈ SilentLedger.allowed s.
Proof.
  intros accept e s. split; [reflexivity |].
  exact (current_key_allowed 1 accept
           [ {| SilentLedger.tx_env := e; SilentLedger.tx_call := SilentLedger.CreateLedger 5 [] |};
             {| SilentLedger.tx_env := e;
                SilentLedger.tx_call := SilentLedger.RotateLedgerKey 6 [] |} ]
           7 eq_refl).
Defined.

Lemma storeEntry_read_back_witness :
  let accept := fun (k : Z) (_ : bytes) (_ : SilentLedger.address) => Some k in
  let e := {| SilentLedger.msg_sender := 7; SilentLedger.block_timestamp := 100 |} in
  let s := SilentLedger.execute 1 accept
             {| SilentLedger.tx_env := e; SilentLedger.tx_call := SilentLedger.CreateLedger 5 [] |}
             SilentLedger.genesis in
  exists s',
    SilentLedger.storeEntry e (Js.lit "ciphertext:one") s
    = inr (s', [SilentLedger.EntryStored 7 0])
    /\ SilentLedger.getEntry s' 7 0 = inr (100, Js.lit "ciphertext:one").
Proof.
  intros accept e s.
  destruct (SilentLedger.storeEntry e (Js.lit "ciphertext:one") s) as [err | [s' evs]] eqn:Hs;
    [discriminate Hs |].
  destruct (storeEntry_read_back e (Js.lit "ciphertext:one") s s' evs Hs) as (H1 & H2 & _).
  exists s'. split; [by rewrite H1 | exact H2].
Defined.

Lemma entries_immutable_witness :
  let accept := fun (k : Z) (_ : bytes) (_ : SilentLedger.address) => Some k in
  let e := {| SilentLedger.msg_sender := 7; SilentLedger.block_timestamp := 100 |} in
  SilentLedger.getEntry SilentLedger.genesis 7 0
  = inl (SilentLedger.EntryIndexOutOfBounds 7 0).
Proof.
  intros accept e.
  apply (proj2 (proj2 (entries_immutable 1 accept SilentLedger.genesis 7 0 ltac:(lia)))).
  vm_compute. discriminate.
Defined.

Lemma storage_last_write_witness :
  WagmiStorage.getItem (Js.lit "wagmi.store")
    (WagmiStorage.run
       [WagmiStorage.SetItem (Js.lit "wagmi.store") (Js.lit "{}");
        WagmiStorage.SetItem (Js.lit "wagmi.recentConnectorId") (Js.lit "injected")]
       WagmiStorage.empty)
  = Some (Js.lit "{}").
Proof.
  refine (proj1 (proj2 (storage_last_write (Js.lit "wagmi.store") []
                   [WagmiStorage.SetItem (Js.lit "wagmi.recentConnectorId") (Js.lit "injected")]
                   WagmiStorage.empty _)) (Js.lit "{}")).
  constructor; [| constructor]. simpl. discriminate.
Defined.

Lemma shortHex_shape_witness :
  LedgerView.shortHex zero_key 6
  = Js.lit "0x000000" ++ [0x2026] ++ Js.lit "000000".
Proof.
  destruct (shortHex_shape zero_key 6 ltac:(lia)) as (_ & H & _).
  destruct (H ltac:(simpl; lia) ltac:(lia)) as [Heq _]. exact Heq.
Defined.

Lemma refresh_window_witness :
  LedgerApp.indices 30 = List.map (fun i => 5 + Z.of_nat i) (seq 0 25)
  /\ (length (LedgerApp.indices 30) <= 25)%nat.
Proof.
  destruct (refresh_window 30 ltac:(lia)) as (H1 & H2 & _).
  split; [exact H1 | exact H2].
Defined.

Lemma settled_shown_as_decrypting_witness :
  let entry :=
    {| LedgerApp.index := 0; LedgerApp.createdAt := 1700000000;
       LedgerApp.ciphertext := Js.lit "sl1:AAAAAAAAAAAAAAAA:6tN8t5RBM56Qv0uxIlYOiQ==";
       LedgerApp.plaintext := None; LedgerApp.decryptError := None |} in
  LedgerView.plaintextCell (Some zero_key) (LedgerApp.decryptEntry terse zero_key entry)
  = LedgerView.DecryptingHint.
Proof.
  intros entry.
  destruct (settled_shown_as_decrypting terse zero_key entry) as (_ & _ & _ & _ & H).
  - discriminate.
  - reflexivity.
  - reflexivity.
  - apply (H zero_rng zero_key_shape). vm_compute. reflexivity.
Defined.

Lemma results_stick_witness :
  let a := LedgerApp.set_ledgerKeyAddress
             (Some (48 :: Js.lit "x0000000000000000000000000000000000000000"))
             (LedgerApp.set_entries sample_entries LedgerApp.mount) in
  LedgerApp.entries
    (LedgerApp.decryptEffect terse [0; 1]%nat
       (LedgerApp.set_ledgerKeyAddress
          (Some (48 :: Js.lit "xABCDEF0123456789abcdefABCDEF0123456789ab"))
          (LedgerApp.decryptEffect terse [1; 0]%nat a)))
  = LedgerApp.entries (LedgerApp.decryptEffect terse [1; 0]%nat a).
Proof.
  intros a.
  destruct (results_stick terse
              (Js.lit "x0000000000000000000000000000000000000000")
              (Js.lit "xABCDEF0123456789abcdefABCDEF0123456789ab") 48 48
              [1; 0]%nat [0; 1]%nat a) as (_ & H & _).
  - reflexivity.
  - apply perm_swap.
  - exact H.
Defined.

Lemma refresh_failure_keeps_entries_witness :
  let read := fun i : Z =>
    if i =? 1 then inl (Js.lit "execution reverted")
    else inr (1700000000, Js.lit "ciphertext:one") in
  let a := LedgerApp.set_entries sample_entries LedgerApp.mount in
  let a' := LedgerApp.refresh (fun m : Js.jsstring => m) true 5 2 read [0; 1]%nat a in
  LedgerApp.entries a' = sample_entries /\ LedgerApp.entryCount a' = 2.
Proof.
  intros read a a'.
  destruct (refresh_failure_keeps_entries (fun m : Js.jsstring => m) 5 2 read [0; 1]%nat a
              1 (Js.lit "execution reverted")) as (H1 & H2 & _).
  - reflexivity.
  - right. left. reflexivity.
  - reflexivity.
  - split; [exact H1 | exact H2].
Defined.

Lemma refresh_on_chain_witness :
  let accept := fun (k : Z) (_ : bytes) (_ : SilentLedger.address) => Some k in
  let e := {| SilentLedger.msg_sender := 7; SilentLedger.block_timestamp := 100 |} in
  let s := SilentLedger.run 1 accept
             [ {| SilentLedger.tx_env := e; SilentLedger.tx_call := SilentLedger.CreateLedger 5 [] |};
               {| SilentLedger.tx_env := e;
                  SilentLedger.tx_call := SilentLedger.StoreEntry (Js.lit "ciphertext:one") |} ]
             SilentLedger.genesis in
  let a' := LedgerView.refreshOnChain (fun _ => []) (fun b => b) s 7 [0%nat] LedgerApp.mount in
  LedgerApp.entryCount a' = 1 /\ length (LedgerApp.entries a') = 1%nat.
Proof.
  intros accept e s a'.
  destruct (refresh_on_chain (fun _ => []) (fun b => b) s 7 [0%nat] LedgerApp.mount)
    as (_ & _ & H1 & _ & H2 & _).
  - reflexivity.
  - vm_compute. reflexivity.
  - split; [exact H1 | exact H2].
Defined.

Lemma padded_hello_units : Forall Js.code_unit (Js.lit "  hello ").
Proof. repeat (constructor; [unfold Js.code_unit; simpl; lia |]). constructor. Defined.

Lemma stored_message_round_trip_witness :
  let click :=
    {| LedgerView.inner := LedgerApp.set_ledgerKeyAddress (Some zero_key) LedgerApp.mount;
       LedgerView.message := Js.lit "  hello ";
       LedgerView.isCreating := false; LedgerView.isStoring := false |} in
  exists c,
    LedgerCrypto.outcome (LedgerView.storeMessage_ciphertext zero_rng click) = inr c
    /\ LedgerApp.plaintext
         (LedgerApp.decryptEntry terse zero_key
            {| LedgerApp.index := 0; LedgerApp.createdAt := 0; LedgerApp.ciphertext := c;
               LedgerApp.plaintext := None; LedgerApp.decryptError := None |})
       = Some (Js.lit "hello").
Proof.
  intros click.
  destruct (stored_message_round_trip terse zero_rng connected click zero_key)
    as (c & H1 & _ & H2).
  - vm_compute. reflexivity.
  - reflexivity.
  - reflexivity.
  - exact padded_hello_units.
  - reflexivity.
  - exists c. split; [exact H1 |]. rewrite (H2 0 0). reflexivity.
Defined.

Lemma success_word_cleared_witness :
  let click :=
    {| LedgerView.inner := LedgerApp.set_ledgerKeyAddress (Some zero_key) LedgerApp.mount;
       LedgerView.message := Js.lit "hello";
       LedgerView.isCreating := false; LedgerView.isStoring := true |} in
  let stored :=
    LedgerView.storeMessage_end terse zero_rng click (inr tt)
      (fun _ => LedgerView.Mined (Js.lit "0xabc")) LedgerView.NotConnected click in
  LedgerApp.status (LedgerView.inner stored) = [] /\ LedgerView.message stored = [].
Proof.
  intros click stored.
  destruct (success_word_cleared terse zero_rng click click
              (Js.lit "sl1:AAAAAAAAAAAAAAAA:fS/ZroE+SNuc1lPovyvJBx+ti6ko") (Js.lit "0xabc")
              (fun _ => LedgerView.Mined (Js.lit "0xabc")) LedgerView.NotConnected)
    as (H1 & H2 & _).
  - vm_compute. reflexivity.
  - reflexivity.
  - split; [exact H1 | exact H2].
Defined.

Lemma refreshed_entries_stay_undecrypted_witness :
  let a := LedgerApp.set_entryCount 1
             (LedgerApp.set_ledgerKeyAddress (Some zero_key) LedgerApp.mount) in
  let read := fun i : Z =>
    inr (1700000000 + i, Js.lit "sl1:AAAAAAAAAAAAAAAA:fS/ZroE+SNuc1lPovyvJBx+ti6ko")
    : Js.jsstring + Z * Js.jsstring in
  let a' := LedgerView.refresh_commits terse (fun m => m) 5 2 read
              [1; 0]%nat [] [] a in
  List.map LedgerApp.index (LedgerApp.entries a') = LedgerApp.indices 2
  /\ Forall (fun e => LedgerApp.plaintext e = None /\ LedgerApp.decryptError e = None
                      /\ LedgerView.plaintextCell (LedgerApp.ledgerKeyAddress a') e
                         = LedgerView.DecryptingHint)
            (LedgerApp.entries a').
Proof.
  intros a read a'.
  destruct (refreshed_entries_stay_undecrypted terse (fun m : Js.jsstring => m) 5 2
              (fun i => (1700000000 + i,
                         Js.lit "sl1:AAAAAAAAAAAAAAAA:fS/ZroE+SNuc1lPovyvJBx+ti6ko"))
              [1; 0]%nat [] [] a 48 (Js.lit "x0000000000000000000000000000000000000000"))
    as (_ & _ & H1 & H2).
  - reflexivity.
  - constructor.
  - apply perm_swap.
  - split; [exact H1 | exact H2].
Defined.
